(** * Login throttling and transfer creation: a shallow embedding

    The development follows two source files of the backend:

    - [src/api/components/authentication/authentication-controller.js],
      the [login] handler with its two process-wide maps [loginAttempts]
      and [lastLoginAttemptTime];
    - [src/api/components/users/users-service.js], the service
      functions over the users repository, [createTransfer] first.

    JavaScript objects used as dictionaries are finite maps keyed by
    strings, holding the entries of their own (module [Proto] puts
    [Object.prototype] behind them and shows when that matters); numbers
    are integers in [Z]; strings are texts of ASCII characters; and an
    [async] function is cut at its [await]s into the segments the event
    loop runs atomically. *)

From Stdlib Require Import ZArith String Ascii List Lia Bool Sorted.
From stdpp Require Import base option gmap strings list relations.

Local Open Scope Z_scope.

(** ** The fragment of JavaScript the handlers rely on *)

Module Js.

(** Values a collaborator can hand back.  Objects are kept as a list of
    named fields; that is all the handlers ever do with them (they are
    tested for truthiness and passed on). *)
Inductive value :=
| Undefined
| Null
| Bool (b : bool)
| Num (n : Z)
| Str (s : string)
| Obj (fields : list (string * string)).

(** [ToBoolean]: what [if (v)], [!v], [v && w] and [v || w] test. *)
Definition truthy (v : value) : bool :=
  match v with
  | Undefined | Null => false
  | Bool b => b
  | Num n => negb (n =? 0)
  | Str s => negb (String.eqb s EmptyString)
  | Obj _ => true
  end.

(** The member names every plain object inherits from
    [Object.prototype].  On a dictionary written [{}], reading one of
    these names where the dictionary holds no entry of its own yields the
    inherited member, not [undefined], and assigning to ["__proto__"]
    stores nothing.  The dictionaries below are modelled by the entries
    of their own, which is what the code reads and writes under every
    other name; a property that depends on what is read under a key
    states that the key is [ordinary]. *)
Definition inherited : list string :=
  ["constructor"; "__proto__"; "__defineGetter__"; "__defineSetter__";
   "__lookupGetter__"; "__lookupSetter__"; "hasOwnProperty"; "isPrototypeOf";
   "propertyIsEnumerable"; "toLocaleString"; "toString"; "valueOf"]%string.

Definition ordinary (key : string) : bool :=
  negb (existsb (String.eqb key) inherited).

(** [m[key] || 0] on a dictionary of numbers, [key] being [ordinary]. *)
Definition or_zero (o : option Z) : Z :=
  match o with
  | Some n => if n =? 0 then 0 else n
  | None => 0
  end.

(** Strings stand for texts of ASCII characters.  On these
    [String.prototype.toLowerCase] changes the letters A to Z and nothing
    else, character by character; a property that depends on how a text
    is lower-cased or upper-cased, rather than on the result being used as
    a key, states that the text [isAscii]. *)
Definition isAscii (s : string) : bool :=
  forallb (fun c => (nat_of_ascii c <? 128)%nat) (list_ascii_of_string s).

(** [String.prototype.toLowerCase], on the ASCII letters. *)
Definition lower_ascii (c : ascii) : ascii :=
  let n := nat_of_ascii c in
  if (65 <=? n)%nat && (n <=? 90)%nat then ascii_of_nat (n + 32) else c.

Fixpoint toLowerCase (s : string) : string :=
  match s with
  | EmptyString => EmptyString
  | String c s' => String (lower_ascii c) (toLowerCase s')
  end.

(** How an awaited promise settles: with a value, or with the reason
    it was rejected with (any value can be thrown). *)
Inductive settled (A : Type) :=
| Resolved (a : A)
| Rejects (reason : value).
Arguments Resolved {A} a.
Arguments Rejects {A} reason.

End Js.

(** ** [authentication-controller.js] *)

Module Auth.

Import Js.

(** [errorTypes] members the controller uses, and the object built by
    [errorResponder(type, message)].  [Foreign] wraps what a rejected
    [await] rethrows inside the handler: it did not come from
    [errorResponder] here. *)
Inductive errorType := FORBIDDEN | INVALID_CREDENTIALS.

Inductive error :=
| errorResponder (ty : errorType) (message : string)
| Foreign (reason : value).

(** Completion of the [try] block: a response, or a thrown error. *)
Inductive completion (A : Type) :=
| Returns (a : A)
| Throws (e : error).
Arguments Returns {A} a.
Arguments Throws {A} e.

(** What the handler hands back: [response.status(200).json(v)] or
    [next(error)]. *)
Inductive response :=
| Status200Json (v : value)
| Next (e : error).

(** The two [logger.info] lines, with the interpolated values kept
    apart: the address as typed, and [5 - remainingAttempts]. *)
Inductive logLine :=
| LoginGagal (email : string) (attempts : Z)
| LoginGagalTimeout (email : string) (attempts : Z).

Inductive event :=
| LoggerInfo (l : logLine)
| SetTimeout (ms : Z)
| CheckLoginCredentials (email : string) (password : value).

(** [let loginAttempts = {}; let lastLoginAttemptTime = {};]
    The two dictionaries, by the entries of their own.  The keys are
    lower-cased e-mail addresses; for an [ordinary] key an absent entry
    reads [undefined]. *)
Record store := Store {
  loginAttempts : gmap string Z;
  lastLoginAttemptTime : gmap string Z
}.

Definition initial : store := Store ∅ ∅.

Definition MAX_LOGIN_ATTEMPTS : Z := 4.
Definition LOGIN_TIMEOUT : Z := 30 * 60 * 1000.

(** The delay of line 41, which the source writes as a literal. *)
Definition PENALTY_DELAY : Z := 1 * 60 * 1000.

(** [lastLoginAttemptTime[key] && now - lastLoginAttemptTime[key] > LOGIN_TIMEOUT] *)
Definition timedOut (last : option Z) (now : Z) : bool :=
  match last with
  | Some t => negb (t =? 0) && (LOGIN_TIMEOUT <? now - t)
  | None => false
  end.

Definition setAttempts (key : string) (n : Z) (st : store) : store :=
  Store (<[key := n]> (loginAttempts st)) (lastLoginAttemptTime st).

Definition deleteAttempts (key : string) (st : store) : store :=
  Store (delete key (loginAttempts st)) (lastLoginAttemptTime st).

(** Where a call of [login] is parked: at the timer of line 41 or at
    the credential check of line 50, with the locals that are live
    after the [await]. *)
Inductive awaiting :=
| AwaitTimeout (ms : Z) (key : string)
| AwaitCredentials (email : string) (password : value) (key : string)
    (now remainingAttempts : Z).

(** Lines 20-41 and 50: from entry to the first [await]. *)
Definition login_enter (email : string) (password : value) (now : Z) (st : store)
  : store * list event * awaiting :=
  let key := toLowerCase email in
  let attempts := or_zero (loginAttempts st !! key) in
  let remainingAttempts := MAX_LOGIN_ATTEMPTS - attempts in
  let st1 :=
    if timedOut (lastLoginAttemptTime st !! key) now
    then setAttempts key 0 st
    else st in
  if remainingAttempts <=? 0 then
    (st1,
     [LoggerInfo (LoginGagalTimeout email (5 - remainingAttempts))],
     AwaitTimeout (1 * 60 * 1000) key)
  else
    (st1, [], AwaitCredentials email password key now remainingAttempts).

(** Lines 42-46: after the timer has fired. *)
Definition after_timeout (key : string) (st : store)
  : store * list event * completion response :=
  (deleteAttempts key st, [],
   Throws (errorResponder FORBIDDEN "Too many failed login attempts")).

(** Lines 54-69: after [checkLoginCredentials] has settled with [c]. *)
Definition after_credentials (email key : string) (now remainingAttempts : Z)
    (c : settled value) (st : store)
  : store * list event * completion response :=
  match c with
  | Rejects reason => (st, [], Throws (Foreign reason))
  | Resolved loginSuccess =>
      if negb (truthy loginSuccess) then
        (Store (<[key := or_zero (loginAttempts st !! key) + 1]> (loginAttempts st))
               (<[key := now]> (lastLoginAttemptTime st)),
         [LoggerInfo (LoginGagal email (5 - remainingAttempts))],
         Throws (errorResponder INVALID_CREDENTIALS "Wrong email or password"))
      else
        (deleteAttempts key st, [], Returns (Status200Json loginSuccess))
  end.

(** [catch (error) { return next(error); }] *)
Definition catch_next (c : completion response) : response :=
  match c with
  | Returns r => r
  | Throws e => Next e
  end.

(** One login request that has passed line 21: the two fields of
    [request.body], of which [email] is a string and [password] whatever
    the client sent, the value [Date.now()] yields on entry, and the
    credential service of the moment
    ([authenticationServices.checkLoginCredentials], which is not part of
    this file and may resolve with anything or be rejected). *)
Record attempt := Attempt {
  email : string;
  password : value;
  clock : Z;
  checkLoginCredentials : string -> value -> settled value
}.

(** The second segment of a call, whichever [await] it was parked at. *)
Definition login_resume (a : attempt) (k : awaiting) (st : store)
  : store * list event * response :=
  match k with
  | AwaitTimeout ms key =>
      let '(st', evs, c) := after_timeout key st in
      (st', SetTimeout ms :: evs, catch_next c)
  | AwaitCredentials em pw key now remainingAttempts =>
      let '(st', evs, c) :=
        after_credentials em key now remainingAttempts
          (checkLoginCredentials a em pw) st in
      (st', CheckLoginCredentials em pw :: evs, catch_next c)
  end.

(** [login] from line 21 on, run without any other request in
    between. *)
Definition login (a : attempt) (st : store) : store * list event * response :=
  let '(st1, evs1, k) := login_enter (email a) (password a) (clock a) st in
  let '(st2, evs2, r) := login_resume a k st1 in
  (st2, (evs1 ++ evs2)%list, r).

(** [request.body] as the handler finds it: missing, or an object whose
    fields [email] and [password] hold what the client sent ([undefined]
    for a field that was not sent). *)
Record body := Body { body_email : value; body_password : value }.

(** How a call of the [async] function ends: inside the [try], with a
    response or with [next(error)]; or with its promise rejected by what
    was thrown before the [try] was entered. *)
Inductive ending :=
| Handled (r : response)
| Unhandled (reason : value).

(** [login] from line 19 on.  Lines 20 and 21 stand before the [try]:
    destructuring a missing body throws a [TypeError], and so does
    [email.toLowerCase()] unless [email] is a string (of the values a
    parsed body can hold, only a string has that method).  Nothing has
    been read or written by then. *)
Definition login_request (b : option body) (now : Z)
    (check : string -> value -> settled value) (st : store)
  : store * list event * ending :=
  match b with
  | Some (Body (Str email) password) =>
      let '(st', evs, r) := login (Attempt email password now check) st in
      (st', evs, Handled r)
  | _ => (st, [], Unhandled (Str "TypeError"))
  end.

(** The three-way classification of the specification, read off the
    handler's result; [Forwarded] is an error the handler did not make. *)
Inductive Outcome :=
| Authenticated
| Rejected
| Locked
| Forwarded (e : error).

Definition classify (r : response) : Outcome :=
  match r with
  | Status200Json _ => Authenticated
  | Next (errorResponder INVALID_CREDENTIALS _) => Rejected
  | Next (errorResponder FORBIDDEN _) => Locked
  | Next (Foreign reason) => Forwarded (Foreign reason)
  end.

(** The stored failure counter of an identity, as [login] reads it. *)
Definition failureCount (st : store) (key : string) : Z :=
  or_zero (loginAttempts st !! key).

(** The attempt number written to the log by a rejected call. *)
Fixpoint reported (evs : list event) : option Z :=
  match evs with
  | [] => None
  | LoggerInfo (LoginGagal _ n) :: _ => Some n
  | _ :: evs' => reported evs'
  end.

(** Time a call spends parked on timers. *)
Fixpoint delay (evs : list event) : Z :=
  match evs with
  | [] => 0
  | SetTimeout ms :: evs' => ms + delay evs'
  | _ :: evs' => delay evs'
  end.

(** A series of requests served one after the other. *)
Fixpoint serve (l : list attempt) (st : store) : store * list (list event * response) :=
  match l with
  | [] => (st, [])
  | a :: l' =>
      let '(st1, evs, r) := login a st in
      let '(st2, rs) := serve l' st1 in
      (st2, (evs, r) :: rs)
  end.

(** What a run shows of each call: the classified outcome and the
    attempt number in its log line, if any. *)
Definition shown (rs : list (list event * response)) : list (Outcome * option Z) :=
  map (fun p => (classify p.2, reported p.1)) rs.

(** [n] rejections in a row, numbered from [from]. *)
Fixpoint rejections (from : Z) (n : nat) : list (Outcome * option Z) :=
  match n with
  | O => []
  | S n' => (Rejected, Some from) :: rejections (from + 1) n'
  end.

(** The counter a call starts from once staleness has been looked at
    (lines 29-35). *)
Definition forgiven (st : store) (key : string) (now : Z) : Z :=
  if timedOut (lastLoginAttemptTime st !! key) now
  then 0
  else or_zero (loginAttempts st !! key).

(** Shorthands for the hypotheses of the scenarios: the identity an
    attempt is counted under, and whether its credential check comes
    back with a falsy value, a truthy one, or throws. *)
Definition identity (a : attempt) : string := toLowerCase (email a).

Definition credentials (a : attempt) : settled value :=
  checkLoginCredentials a (email a) (password a).

Definition failsb (a : attempt) : bool :=
  match credentials a with
  | Resolved v => negb (truthy v)
  | Rejects _ => false
  end.

(** No staleness between consecutive attempts: each one comes at most
    [LOGIN_TIMEOUT] after the one before. *)
Fixpoint withinWindow (l : list attempt) : bool :=
  match l with
  | a :: ((b :: _) as l') => (clock b - clock a <=? LOGIN_TIMEOUT) && withinWindow l'
  | _ => true
  end.

(** No staleness between any two attempts of a batch, whatever the
    order in which they are served. *)
Definition overlapping (l : list attempt) : bool :=
  forallb (fun a => forallb (fun b => clock b - clock a <=? LOGIN_TIMEOUT) l) l.

(** *** Requests in flight together

    Node runs each segment of an [async] function to its next [await]
    without interruption; between segments any other request may run.
    A request is therefore in one of three phases, and a step of the
    server advances one request by one segment. *)
Inductive phase :=
| Arrived
| Parked (evs : list event) (k : awaiting)
| Finished (evs : list event) (r : response).

Abbreviation task := (attempt * phase)%type.
Abbreviation config := (store * list task)%type.

Definition advance (i : nat) (c : config) : option config :=
  let '(st, pool) := c in
  match pool !! i with
  | Some (a, Arrived) =>
      let '(st', evs, k) := login_enter (email a) (password a) (clock a) st in
      Some (st', <[i := (a, Parked evs k)]> pool)
  | Some (a, Parked evs k) =>
      let '(st', evs', r) := login_resume a k st in
      Some (st', <[i := (a, Finished (evs ++ evs') r)]> pool)
  | _ => None
  end.

Definition step (c c' : config) : Prop := ∃ i, advance i c = Some c'.

(** Run the requests named by a schedule, one segment each. *)
Fixpoint schedule (order : list nat) (c : config) : option config :=
  match order with
  | [] => Some c
  | i :: order' =>
      match advance i c with
      | Some c' => schedule order' c'
      | None => None
      end
  end.

Definition arrivals (l : list attempt) : list task := map (fun a => (a, Arrived)) l.

(** What a pool shows of each request: nothing while it is on its way,
    then its outcome and the attempt number in its log line. *)
Definition answered (pool : list task) : list (option (Outcome * option Z)) :=
  map (fun t : task =>
         match t.2 with
         | Finished evs r => Some (classify r, reported evs)
         | _ => None
         end) pool.

Definition finishedb (t : task) : bool :=
  match t.2 with
  | Finished _ _ => true
  | _ => false
  end.

Fixpoint finished (pool : list task) : nat :=
  match pool with
  | [] => O
  | t :: pool' => ((if finishedb t then 1 else 0) + finished pool')%nat
  end.

(** Segments the requests of a pool still have to run. *)
Definition segmentsLeft (t : task) : nat :=
  match t.2 with
  | Arrived => 2
  | Parked _ _ => 1
  | Finished _ _ => 0
  end.

Fixpoint pending (pool : list task) : nat :=
  match pool with
  | [] => O
  | t :: pool' => (segmentsLeft t + pending pool')%nat
  end.

(** What holds of a pool of failing requests on one identity while it
    is being served: requests that are parked are parked on the
    credential check, those that are through were rejected, the counter
    equals the number of those, and once one is through the time stamp
    on record is the entry time of one of the requests. *)
Definition onItsWay (key : string) (t : task) : Prop :=
  match t.2 with
  | Arrived => True
  | Parked evs k =>
      ∃ remainingAttempts,
        k = AwaitCredentials (email t.1) (password t.1) key (clock t.1) remainingAttempts
  | Finished _ r => classify r = Rejected
  end.

Definition countedSoFar (key : string) (l : list attempt) (c : config) : Prop :=
  c.2.*1 = l ∧
  failureCount c.1 key = Z.of_nat (finished c.2) ∧
  (finished c.2 ≠ O → ∃ a, a ∈ l ∧ lastLoginAttemptTime c.1 !! key = Some (clock a)) ∧
  Forall (onItsWay key) c.2.

(** The attempt number in the log line of such a pool: a request takes
    [remainingAttempts] from the counter as it stands on entry, when
    [through] requests have been answered at most, and logs
    [5 - remainingAttempts] once its own check has failed. *)
Definition numbered (through : nat) (t : task) : Prop :=
  match t.2 with
  | Arrived => True
  | Parked evs (AwaitCredentials _ _ _ _ remainingAttempts) =>
      evs = [] ∧
      MAX_LOGIN_ATTEMPTS - Z.of_nat through ≤ remainingAttempts ≤ MAX_LOGIN_ATTEMPTS
  | Parked _ (AwaitTimeout _ _) => True
  | Finished evs _ => ∃ n, reported evs = Some n ∧ 1 ≤ n ≤ Z.of_nat through
  end.

End Auth.

(** ** [users-service.js]: [createTransfer] *)

Module Users.

Import Js.

(** The two operations of [users-repository] that [createTransfer]
    calls.  The repository module itself is not among the sources, so
    the service is modelled over any implementation of them: [getUser]
    resolves with a document or with [null] ([None]); [createTransfer]
    is handed the two looked-up users as they are, [null] included. *)
Record repository (db user : Type) := Repository {
  getUser : string -> db -> settled (option user);
  repoCreateTransfer :
    string -> option user -> option user -> value -> Z -> db -> db * settled unit
}.
Arguments getUser {db user} _ _ _.
Arguments repoCreateTransfer {db user} _ _ _ _ _ _ _.

(** The repository calls a run of the service makes, in order. *)
Inductive call (user : Type) :=
| GetUser (id : string)
| CreateTransfer (transferId : string) (fromUser toUser : option user)
    (amount : value) (timestamp : Z).
Arguments GetUser {user} id.
Arguments CreateTransfer {user} transferId fromUser toUser amount timestamp.

Section Service.

Context {db user : Type} (usersRepository : repository db user).

(** Lines 126-155.  [transferId] is the string drawn from
    [Math.random()] and [timestamp] the value of [Date.now()]; the
    result is [null] or [true]. *)
Definition createTransfer (transferId : string) (timestamp : Z)
    (id toUserId : string) (amount : value) (d : db)
  : db * list (call user) * value :=
  match getUser usersRepository toUserId d with
  | Rejects _ => (d, [GetUser toUserId], Null)
  | Resolved toUser =>
      match getUser usersRepository id d with
      | Rejects _ => (d, [GetUser toUserId; GetUser id], Null)
      | Resolved fromUser =>
          let calls :=
            [GetUser toUserId; GetUser id;
             CreateTransfer transferId fromUser toUser amount timestamp] in
          match repoCreateTransfer usersRepository
                  transferId fromUser toUser amount timestamp d with
          | (d', Rejects _) => (d', calls, Null)
          | (d', Resolved _) =>
              match toUser, fromUser with
              | None, _ => (d', calls, Null)
              | Some _, None => (d', calls, Null)
              | Some _, Some _ => (d', calls, Bool true)
              end
          end
      end
  end.

End Service.

(** Modelled from the spec: [users-repository] and the two mongoose
    schemas are missing from the sources; the specification only says
    that the ledger is plain storage without balance checks.  This
    in-memory repository is one such store, used to run [createTransfer]
    on concrete data: users are looked up by id, and a transfer is
    appended as it is given. *)
Record userDoc := UserDoc { userId : string; userName : string; userEmail : string }.

Record transferDoc := TransferDoc {
  docTransferId : string;
  docFromUser : option userDoc;
  docToUser : option userDoc;
  docAmount : value;
  docTimestamp : Z
}.

Record memory := Memory { users : gmap string userDoc; transfers : list transferDoc }.

Definition memoryRepository : repository memory userDoc :=
  Repository memory userDoc
    (fun id d => Resolved (users d !! id))
    (fun transferId fromUser toUser amount timestamp d =>
       (Memory (users d)
               (transfers d ++ [TransferDoc transferId fromUser toUser amount timestamp]),
        Resolved tt)).

End Users.

(** ** Concrete requests for the scenarios *)

Module Scenario.

Import Js Auth.

(** A credential service that knows one account and answers [null] to
    everything else, be it an unknown address or a wrong password. *)
Definition service (email : string) (password : value) : settled value :=
  match password with
  | Str secret =>
      if String.eqb email "bob@x.com" && String.eqb secret "s3cret"
      then Resolved (Obj [("email", "bob@x.com"); ("token", "t0k3n")]%string)
      else Resolved Null
  | _ => Resolved Null
  end.

(** The same service while its database cannot be reached. *)
Definition unreachable (email : string) (password : value) : settled value :=
  Rejects (Str "MongoNetworkError").

Definition t0 : Z := 1700000000000.
Definition seconds (n : Z) : Z := n * 1000.
Definition minutes (n : Z) : Z := n * 60 * 1000.

Definition wrong (now : Z) : attempt := Attempt "bob@x.com" (Str "guess") now service.
Definition right (now : Z) : attempt := Attempt "bob@x.com" (Str "s3cret") now service.
Definition stranger (now : Z) : attempt := Attempt "eve@x.com" (Str "guess") now service.
Definition outage (now : Z) : attempt := Attempt "bob@x.com" (Str "s3cret") now unreachable.

(** Four wrong passwords within a minute. *)
Definition fourFailures : list attempt :=
  [wrong t0; wrong (t0 + seconds 10); wrong (t0 + seconds 20); wrong (t0 + seconds 30)].

Definition threeFailures : list attempt :=
  [wrong t0; wrong (t0 + seconds 10); wrong (t0 + seconds 20)].

Definition twoFailures : list attempt :=
  [wrong t0; wrong (t0 + seconds 10)].

Definition twoAtOnce : list attempt := [wrong t0; wrong (t0 + seconds 1)].

(** A ledger with one account and no transfer yet. *)
Definition alice : Users.userDoc := Users.UserDoc "u1" "Alice" "alice@x.com".

Definition ledger : Users.memory := Users.Memory {[ "u1"%string := alice ]} [].

End Scenario.

(** ** [users-service.js]: listing, look-ups and guarded writes *)

Module Text.

(** [s.includes(sub)] *)
Fixpoint includes (sub s : string) : bool :=
  String.prefix sub s ||
  match s with
  | EmptyString => false
  | String _ s' => includes sub s'
  end.

(** [s.split(sep)] for a separator of one character. *)
Fixpoint split (sep : ascii) (s : string) : list string :=
  match s with
  | EmptyString => [EmptyString]
  | String c s' =>
      if Ascii.eqb c sep then EmptyString :: split sep s'
      else match split sep s' with
           | p :: ps => String c p :: ps
           | [] => [String c EmptyString]
           end
  end.

(** [Array.prototype.slice(start, end)]: a negative index counts from
    env end, and both are clamped to env array. *)
Definition relativeIndex (len i : Z) : Z :=
  if i <? 0 then Z.max (len + i) 0 else Z.min i len.

Definition slice {A : Type} (l : list A) (first last : Z) : list A :=
  let len := Z.of_nat (length l) in
  let k := relativeIndex len first in
  let final := relativeIndex len last in
  take (Z.to_nat (final - k)) (drop (Z.to_nat k) l).

(** [Array.prototype.sort(compareFn)].  For a consistent [compareFn] the
    result is fixed by env language: env elements in ascending order,
    equal ones in their original order.  It is computed here by
    insertion from env right. *)
Fixpoint insertSorted {A : Type} (compareFn : A -> A -> Z) (x : A) (l : list A) : list A :=
  match l with
  | [] => [x]
  | y :: l' => if compareFn x y <=? 0 then x :: y :: l' else y :: insertSorted compareFn x l'
  end.

Fixpoint sort {A : Type} (compareFn : A -> A -> Z) (l : list A) : list A :=
  match l with
  | [] => []
  | x :: l' => insertSorted compareFn x (sort compareFn l')
  end.

(** [Math.ceil(a / b)] for integers, [b] not zero. *)
Definition ceilDiv (a b : Z) : Z := - ((- a) / b).

End Text.

Module Service.

Import Js Text.

(** The fields of a user document env service reads. *)
Record user := User {
  user_id : string;
  user_name : string;
  user_email : string;
  user_password : string
}.

(** What env service hands out of a user: line 54-58 and 90-94. *)
Record userView := UserView {
  view_id : string;
  view_name : string;
  view_email : string
}.

Record transfer := Transfer {
  transferId : string;
  fromUserId : string;
  toUserId : string;
  amount : value;
  timestamp : Z
}.

(** An element of env array [getTransfers] builds (lines 107-114); its
    [id] is env transfer document itself. *)
Record transferView := TransferView {
  tv_id : transfer;
  tv_transferId : string;
  tv_fromUserId : string;
  tv_toUserId : string;
  tv_amount : value;
  tv_timestamp : Z
}.

(** Calls env service makes on its collaborators, [users-repository]
    and [utils/password]. *)
Inductive op :=
| GetUsers
| GetUser (id : string)
| GetUserByEmail (email : string)
| CreateUser (name email hashedPassword : string)
| UpdateUser (id name email : string)
| DeleteUser (id : string)
| ChangePassword (userId hashedPassword : string)
| GetTransfer
| GetTransfer1 (id : string)
| UpdateTransfer (id : string) (amount : value)
| DeleteTransfer (id : string)
| HashPassword (password : string)
| PasswordMatched (password hashed : string).

(** Neither collaborator is among env sources, so env service is
    modelled over any implementation: each repository call may change the
    database and resolves or is rejected; look-ups resolve with a document
    or with [null] ([None]). *)
Record collaborators (db : Type) := Collaborators {
  repoGetUsers : db -> db * settled (list user);
  repoGetUser : string -> db -> db * settled (option user);
  repoGetUserByEmail : string -> db -> db * settled (option user);
  repoCreateUser : string -> string -> string -> db -> db * settled value;
  repoUpdateUser : string -> string -> string -> db -> db * settled value;
  repoDeleteUser : string -> db -> db * settled value;
  repoChangePassword : string -> string -> db -> db * settled value;
  repoGetTransfer : db -> db * settled (list transfer);
  repoGetTransfer1 : string -> db -> db * settled (option transfer);
  repoUpdateTransfer : string -> value -> db -> db * settled value;
  repoDeleteTransfer : string -> db -> db * settled value;
  hashPassword : string -> settled string;
  passwordMatched : string -> string -> settled value;
  localeCompare : string -> string -> Z
}.
Arguments repoGetUsers {db} _ _.
Arguments repoGetUser {db} _ _ _.
Arguments repoGetUserByEmail {db} _ _ _.
Arguments repoCreateUser {db} _ _ _ _ _.
Arguments repoUpdateUser {db} _ _ _ _ _.
Arguments repoDeleteUser {db} _ _ _.
Arguments repoChangePassword {db} _ _ _ _.
Arguments repoGetTransfer {db} _ _.
Arguments repoGetTransfer1 {db} _ _ _.
Arguments repoUpdateTransfer {db} _ _ _ _.
Arguments repoDeleteTransfer {db} _ _ _.
Arguments hashPassword {db} _ _.
Arguments passwordMatched {db} _ _ _.
Arguments localeCompare {db} _ _ _.

(** *** Asynchronous code over env database

    A computation threads env database, records env calls it makes and
    ends resolved or rejected; [await x <- m; k] is
    [const x = await m; k]. *)
Definition M (db A : Type) : Type := db -> db * list op * settled A.

Definition ret {db A : Type} (a : A) : M db A := fun d => (d, [], Resolved a).

Definition throw {db A : Type} (reason : value) : M db A := fun d => (d, [], Rejects reason).

Definition bind {db A B : Type} (m : M db A) (k : A -> M db B) : M db B :=
  fun d =>
    match m d with
    | (d1, t1, Resolved a) => let '(d2, t2, r) := k a d1 in (d2, (t1 ++ t2)%list, r)
    | (d1, t1, Rejects reason) => (d1, t1, Rejects reason)
    end.

Definition call {db A : Type} (o : op) (f : db -> db * settled A) : M db A :=
  fun d => let '(d', r) := f d in (d', [o], r).

Definition util {db A : Type} (o : op) (r : settled A) : M db A :=
  fun d => (d, [o], r).

(** [try { m } catch (err) { ... }]: how [m] ended, as a value. *)
Definition try {db A : Type} (m : M db A) : M db (settled A) :=
  fun d => let '(d', t, r) := m d in (d', t, Resolved r).

Notation "'await' x <- m ; k" := (bind m (fun x => k))
  (at level 10, x name, m at level 100, k at level 200).

(** *** Lines 9-75: [getUsers] *)

(** The callback of [users.filter] (lines 12-29). *)
Definition matches (search : string) (u : user) : bool :=
  let searchTerm := toLowerCase search in
  if includes ":" searchTerm then
    match split ":" searchTerm with
    | field :: term :: _ =>
        if String.eqb field "email" then includes term (toLowerCase (user_email u))
        else if String.eqb field "name" then includes term (toLowerCase (user_name u))
        else false
    | _ => false
    end
  else
    includes searchTerm (toLowerCase (user_name u))
    || includes searchTerm (toLowerCase (user_email u)).

(** The pagination block of env answer (lines 65-72).  [None] stands
    for [undefined] in [page_size] and for [NaN] in [total_pages]. *)
Record paginationInfo := PaginationInfo {
  page_number : Z;
  page_size : option Z;
  count : Z;
  total_pages : option Z;
  has_previous_page : bool;
  has_next_page : bool
}.

Record listing := Listing {
  pagination : paginationInfo;
  results : list userView
}.

Definition view (u : user) : userView :=
  UserView (user_id u) (user_name u) (user_email u).

Section Listing.

Context {db : Type} (env : collaborators db).

(** The callback of [sort] (lines 34-43); [direction] is [undefined]
    when env sort key has no colon. *)
Definition compareValue (field : string) (a b : user) : Z :=
  if String.eqb field "name" then localeCompare env (user_name a) (user_name b)
  else if String.eqb field "email" then localeCompare env (user_email a) (user_email b)
  else 0.

Definition compareFn (field : string) (direction : option string) (a b : user) : Z :=
  match direction with
  | Some d => if String.eqb d "asc" then compareValue field a b else compareValue field a b * -1
  | None => compareValue field a b * -1
  end.

(** Lines 31-46.  An absent or empty [sort] is falsy. *)
Definition sortedUsers (sort : option string) (filteredUsers : list user) : list user :=
  match sort with
  | None => filteredUsers
  | Some key =>
      if String.eqb key "" then filteredUsers
      else
        let parts := split ":" key in
        Text.sort (compareFn (nth 0 parts EmptyString) (nth_error parts 1)) filteredUsers
  end.

(** Lines 12-74 on env array env repository resolved with.  [page] is
    an integer, [limit] an integer or [undefined].  Without a limit
    [startIndex] is [NaN], which [slice] reads as 0. *)
Definition listUsers (users : list user) (page : Z) (limit : option Z)
    (search : string) (sort : option string) : listing :=
  let filteredUsers := filter (fun u => matches search u = true) users in
  let sorted := sortedUsers sort filteredUsers in
  let len := Z.of_nat (length sorted) in
  let startIndex := match limit with Some n => (page - 1) * n | None => 0 end in
  let endIndex :=
    match limit with
    | Some n => if negb (n =? 0) then Z.min (startIndex + n) len else len
    | None => len
    end in
  let paginatedUsers := slice sorted startIndex endIndex in
  let divisor := match limit with Some n => if n =? 0 then len else n | None => len end in
  let totalPages := if divisor =? 0 then None else Some (ceilDiv len divisor) in
  Listing
    (PaginationInfo page limit (Z.of_nat (length paginatedUsers)) totalPages
       (1 <? page)
       (match totalPages with Some t => page <? t | None => false end))
    (map view paginatedUsers).

Definition getUsers (page : Z) (limit : option Z) (search : string) (sort : option string)
  : M db listing :=
  await users <- call GetUsers (repoGetUsers env);
  ret (listUsers users page limit search sort).

(** *** Lines 82-95: [getUser] *)
Definition getUser (id : string) : M db (option userView) :=
  await user <- call (GetUser id) (repoGetUser env id);
  match user with
  | None => ret None
  | Some u => ret (Some (view u))
  end.

(** *** Lines 101-118: [getTransfers] *)
Definition getTransfers : M db (list transferView) :=
  await transfers <- call GetTransfer (repoGetTransfer env);
  ret (map (fun t => TransferView t (transferId t) (fromUserId t) (toUserId t)
                       (amount t) (timestamp t)) transfers).

(** *** Lines 164-175: [createUser] *)
Definition createUser (name email password : string) : M db value :=
  await hashedPassword <- util (HashPassword password) (hashPassword env password);
  await caught <- try (call (CreateUser name email hashedPassword)
                   (repoCreateUser env name email hashedPassword));
  match caught with
  | Rejects _ => ret Null
  | Resolved _ => ret (Bool true)
  end.

(** *** Lines 184-199: [updateUser] *)
Definition updateUser (id name email : string) : M db value :=
  await user <- call (GetUser id) (repoGetUser env id);
  match user with
  | None => ret Null
  | Some _ =>
      await caught <- try (call (UpdateUser id name email) (repoUpdateUser env id name email));
      match caught with
      | Rejects _ => ret Null
      | Resolved _ => ret (Bool true)
      end
  end.

(** *** Lines 207-222: [updateTransfer] *)
Definition updateTransfer (id : string) (amount : value) : M db value :=
  await transfer <- call (GetTransfer1 id) (repoGetTransfer1 env id);
  match transfer with
  | None => ret Null
  | Some _ =>
      await caught <- try (call (UpdateTransfer id amount) (repoUpdateTransfer env id amount));
      match caught with
      | Rejects _ => ret Null
      | Resolved _ => ret (Bool true)
      end
  end.

(** *** Lines 228-243: [deleteTransfer] *)
Definition deleteTransfer (id : string) : M db value :=
  await transfer <- call (GetTransfer1 id) (repoGetTransfer1 env id);
  match transfer with
  | None => ret Null
  | Some _ =>
      await caught <- try (call (DeleteTransfer id) (repoDeleteTransfer env id));
      match caught with
      | Rejects _ => ret Null
      | Resolved _ => ret (Bool true)
      end
  end.

(** *** Lines 250-265: [deleteUser] *)
Definition deleteUser (id : string) : M db value :=
  await user <- call (GetUser id) (repoGetUser env id);
  match user with
  | None => ret Null
  | Some _ =>
      await caught <- try (call (DeleteUser id) (repoDeleteUser env id));
      match caught with
      | Rejects _ => ret Null
      | Resolved _ => ret (Bool true)
      end
  end.

(** *** Lines 272-280: [emailIsRegistered] *)
Definition emailIsRegistered (email : string) : M db value :=
  await user <- call (GetUserByEmail email) (repoGetUserByEmail env email);
  match user with
  | Some _ => ret (Bool true)
  | None => ret (Bool false)
  end.

(** *** Lines 288-291: [checkPassword].  Reading [user.password] of
    [null] throws a [TypeError]. *)
Definition checkPassword (userId password : string) : M db value :=
  await user <- call (GetUser userId) (repoGetUser env userId);
  match user with
  | None => throw (Str "TypeError")
  | Some u =>
      util (PasswordMatched password (user_password u))
           (passwordMatched env password (user_password u))
  end.

(** *** Lines 299-319: [changePassword] *)
Definition changePassword (userId password : string) : M db value :=
  await user <- call (GetUser userId) (repoGetUser env userId);
  match user with
  | None => ret Null
  | Some _ =>
      await hashedPassword <- util (HashPassword password) (hashPassword env password);
      await changeSuccess <- call (ChangePassword userId hashedPassword)
                         (repoChangePassword env userId hashedPassword);
      if negb (truthy changeSuccess) then ret Null else ret (Bool true)
  end.

End Listing.

(** *** A stand-in for the collaborators

    The repository and the password utilities are not among the sources.
    To run the service on concrete data, this is a repository held in
    memory, a hash that prefixes its input, and the comparison of strings
    by character codes for [localeCompare]. *)
Record memory := Memory { users : list user; transfers : list transfer }.

Definition byCode (a b : string) : Z :=
  match String.compare a b with
  | Lt => -1
  | Eq => 0
  | Gt => 1
  end.

Definition findUser (id : string) (d : memory) : option user :=
  List.find (fun u => String.eqb (user_id u) id) (users d).

Definition findTransfer (id : string) (d : memory) : option transfer :=
  List.find (fun t => String.eqb (transferId t) id) (transfers d).

Definition inMemory : collaborators memory :=
  Collaborators memory
    (fun d => (d, Resolved (users d)))
    (fun id d => (d, Resolved (findUser id d)))
    (fun email d =>
       (d, Resolved (List.find (fun u => String.eqb (user_email u) email) (users d))))
    (fun name email hashed d =>
       (Memory (users d ++ [User name name email hashed]) (transfers d), Resolved Undefined))
    (fun id name email d =>
       (Memory (map (fun u => if String.eqb (user_id u) id
                              then User id name email (user_password u) else u) (users d))
               (transfers d),
        Resolved Undefined))
    (fun id d =>
       (Memory (List.filter (fun u => negb (String.eqb (user_id u) id)) (users d)) (transfers d),
        Resolved Undefined))
    (fun id hashed d =>
       (Memory (map (fun u => if String.eqb (user_id u) id
                              then User id (user_name u) (user_email u) hashed else u) (users d))
               (transfers d),
        Resolved (Bool true)))
    (fun d => (d, Resolved (transfers d)))
    (fun id d => (d, Resolved (findTransfer id d)))
    (fun id amount d =>
       (Memory (users d)
               (map (fun t => if String.eqb (transferId t) id
                              then Transfer id (fromUserId t) (toUserId t) amount (timestamp t)
                              else t) (transfers d)),
        Resolved Undefined))
    (fun id d =>
       (Memory (users d)
               (List.filter (fun t => negb (String.eqb (transferId t) id)) (transfers d)),
        Resolved Undefined))
    (fun password => Resolved ("hash:" ++ password)%string)
    (fun password hashed => Resolved (Bool (String.eqb hashed ("hash:" ++ password))))
    byCode.

Definition ann : user := User "u1" "Ann" "ann@x.com" "hash:a".
Definition bea : user := User "u2" "bea" "Bea@y.org" "hash:b".
Definition cyd : user := User "u3" "Cyd" "cyd@x.com" "hash:c".
Definition dan : user := User "u4" "Dan" "dan@y.org" "hash:d".
Definition eli : user := User "u5" "Eli" "eli@x.com" "hash:e".

Definition five : list user := [cyd; ann; eli; bea; dan].

Definition sampleDb : memory :=
  Memory five [Transfer "t1" "u1" "u2" (Num 10) 1700000000000].

End Service.

(** ** Vocabulary for further properties of [login] *)

Module Throttle.

Import Js Auth.

(** [String.prototype.toUpperCase], on texts of ASCII characters:
    the letters a to z change, character by character, and nothing
    else. *)
Definition upper_ascii (c : ascii) : ascii :=
  let n := nat_of_ascii c in
  if (97 <=? n)%nat && (n <=? 122)%nat then ascii_of_nat (n - 32) else c.

Fixpoint toUpperCase (s : string) : string :=
  match s with
  | EmptyString => EmptyString
  | String c s' => String (upper_ascii c) (toUpperCase s')
  end.

(** The answers a run gave to the requests of one identity. *)
Definition about (key : string) (a : attempt) : bool := String.eqb (identity a) key.

Definition answersFor (key : string) (l : list attempt) (rs : list (list event * response))
  : list (list event * response) :=
  map snd (List.filter (fun p => about key p.1) (combine l rs)).

(** Two stores between which no request can tell: the counters read
    the same, and so do the time stamps of the identities whose counter
    is not zero. *)
Definition alike (st1 st2 : store) : Prop :=
  ∀ k, failureCount st1 k = failureCount st2 k ∧
       (failureCount st1 k ≠ 0 →
        lastLoginAttemptTime st1 !! k = lastLoginAttemptTime st2 !! k).

(** Two ways of ordering the segments of [n] requests: each request
    through both its segments before the next one starts, and every
    request through its first segment before any runs its second. *)
Definition backToBack (first n : nat) : list nat :=
  flat_map (fun i => [i; i]) (seq first n).

Definition allEnterFirst (n : nat) : list nat := (seq 0 n ++ seq 0 n)%list.

(** The pool once the requests [l] have got the answers [rs]. *)
Definition served (l : list attempt) (rs : list (list event * response)) : list task :=
  map (fun p => (p.1, Finished p.2.1 p.2.2)) (combine l rs).

(** A request parked on the credential check having read a counter at
    zero, and the same request once its check has failed. *)
Definition parkedAtZero (a : attempt) : task :=
  (a, Parked [] (AwaitCredentials (email a) (password a) (identity a) (clock a)
                   MAX_LOGIN_ATTEMPTS)).

Definition rejectedAsFirst (a : attempt) : task :=
  (a, Finished [CheckLoginCredentials (email a) (password a);
                LoggerInfo (LoginGagal (email a) 1)]
        (Next (errorResponder INVALID_CREDENTIALS "Wrong email or password"))).

End Throttle.

(** ** Further concrete requests *)

Module Sample.

Import Js Auth Scenario.

(** Five wrong passwords sent at once. *)
Definition fiveAtOnce : list attempt :=
  [wrong t0; wrong (t0 + 1); wrong (t0 + 2); wrong (t0 + 3); wrong (t0 + 4)].

(** Six wrong passwords sent at once. *)
Definition sixAtOnce : list attempt :=
  [wrong t0; wrong (t0 + 1); wrong (t0 + 2); wrong (t0 + 3); wrong (t0 + 4); wrong (t0 + 5)].

(** The address of "bob@x.com" typed in capitals. *)
Definition shouted (now : Z) : attempt := Attempt "BOB@X.COM" (Str "guess") now service.

(** A store that has a time stamp for "bob@x.com" and no counter. *)
Definition stamped : store := Store ∅ {[ "bob@x.com"%string := t0 ]}.

(** Six wrong passwords for an address that lower-cases to the name
    of a member of [Object.prototype]. *)
Definition builtin (now : Z) : attempt := Attempt "Constructor" (Str "guess") now service.

Definition sixForConstructor : list attempt :=
  [builtin t0; builtin (t0 + 1); builtin (t0 + 2);
   builtin (t0 + 3); builtin (t0 + 4); builtin (t0 + 5)].

(** Requests of two identities, mixed. *)
Definition mixed : list attempt :=
  [wrong t0; stranger (t0 + 1); wrong (t0 + 2); stranger (t0 + 3); right (t0 + 4)].

End Sample.

(** ** [authentication-controller.js] on dictionaries with their prototype *)

Module Proto.

Import Js Auth.

(** What the handler can find under a key of a dictionary written
    [{}], and what it can leave there: [undefined], a number, a member
    inherited from [Object.prototype] (a function, or the prototype itself
    under ["__proto__"]), or the string that [+ 1] makes of such a member:
    the member's text followed by as many "1" as there were additions. *)
Inductive found :=
| Nothing
| Number (n : Z)
| Member (name : string)
| Text (member : string) (ones : nat).

(** The result of arithmetic on what was found. *)
Inductive number :=
| Finite (n : Z)
| NaN.

(** [ToBoolean]: a member is an object, and the text of a member is not
    empty. *)
Definition holds (v : found) : bool :=
  match v with
  | Nothing => false
  | Number n => negb (n =? 0)
  | Member _ | Text _ _ => true
  end.

(** [ToNumber]: the text of a member, a function's source or
    "[object Object]", does not read as a number, with or without "1"s
    after it. *)
Definition toNumber (v : found) : number :=
  match v with
  | Number n => Finite n
  | Nothing | Member _ | Text _ _ => NaN
  end.

(** [m[key]]: the entry of the dictionary's own, or else the member
    [Object.prototype] has under that name, or else [undefined]. *)
Definition get (m : gmap string found) (key : string) : found :=
  match m !! key with
  | Some v => v
  | None => if ordinary key then Nothing else Member key
  end.

(** [m[key] = v] for a number or a string [v]: an entry of the
    dictionary's own is made or overwritten, except under ["__proto__"],
    where without such an entry the inherited setter is run, and ignores
    what is not an object. *)
Definition set (key : string) (v : found) (m : gmap string found) : gmap string found :=
  match m !! key with
  | None => if String.eqb key "__proto__" then m else <[key := v]> m
  | Some _ => <[key := v]> m
  end.

(** [v || 0] *)
Definition orZero (v : found) : found := if holds v then v else Number 0.

(** [(v || 0) + 1]: a sum of numbers, or else, a member or the text
    of one being turned into a string, a concatenation. *)
Definition incremented (v : found) : found :=
  match orZero v with
  | Number n => Number (n + 1)
  | Member name => Text name 1
  | Text name ones => Text name (S ones)
  | Nothing => Number 1
  end.

Definition minus (a : Z) (b : number) : number :=
  match b with
  | Finite n => Finite (a - n)
  | NaN => NaN
  end.

(** [a > b] and [a <= b] are false as soon as one side is [NaN]. *)
Definition exceeds (a : number) (b : Z) : bool :=
  match a with
  | Finite n => b <? n
  | NaN => false
  end.

Definition atMost (a : number) (b : Z) : bool :=
  match a with
  | Finite n => n <=? b
  | NaN => false
  end.

Record store := Store {
  loginAttempts : gmap string found;
  lastLoginAttemptTime : gmap string found
}.

Definition initial : store := Store ∅ ∅.

(** The log lines, whose number can now be [NaN]. *)
Inductive logLine :=
| LoginGagal (email : string) (attempts : number)
| LoginGagalTimeout (email : string) (attempts : number).

Inductive event :=
| LoggerInfo (l : logLine)
| SetTimeout (ms : Z)
| CheckLoginCredentials (email : string) (password : value).

Inductive awaiting :=
| AwaitTimeout (ms : Z) (key : string)
| AwaitCredentials (email : string) (password : value) (key : string)
    (now : Z) (remainingAttempts : number).

(** Lines 20-41 and 50. *)
Definition login_enter (email : string) (password : value) (now : Z) (st : store)
  : store * list event * awaiting :=
  let key := toLowerCase email in
  let attempts := orZero (get (loginAttempts st) key) in
  let remainingAttempts := minus MAX_LOGIN_ATTEMPTS (toNumber attempts) in
  let last := get (lastLoginAttemptTime st) key in
  let st1 :=
    if holds last && exceeds (minus now (toNumber last)) LOGIN_TIMEOUT
    then Store (set key (Number 0) (loginAttempts st)) (lastLoginAttemptTime st)
    else st in
  if atMost remainingAttempts 0 then
    (st1,
     [LoggerInfo (LoginGagalTimeout email (minus 5 remainingAttempts))],
     AwaitTimeout (1 * 60 * 1000) key)
  else
    (st1, [], AwaitCredentials email password key now remainingAttempts).

(** Lines 42-46. *)
Definition after_timeout (key : string) (st : store)
  : store * list event * completion response :=
  (Store (delete key (loginAttempts st)) (lastLoginAttemptTime st), [],
   Throws (errorResponder FORBIDDEN "Too many failed login attempts")).

(** Lines 54-69. *)
Definition after_credentials (email key : string) (now : Z) (remainingAttempts : number)
    (c : settled value) (st : store)
  : store * list event * completion response :=
  match c with
  | Rejects reason => (st, [], Throws (Foreign reason))
  | Resolved loginSuccess =>
      if negb (truthy loginSuccess) then
        (Store (set key (incremented (get (loginAttempts st) key)) (loginAttempts st))
               (set key (Number now) (lastLoginAttemptTime st)),
         [LoggerInfo (LoginGagal email (minus 5 remainingAttempts))],
         Throws (errorResponder INVALID_CREDENTIALS "Wrong email or password"))
      else
        (Store (delete key (loginAttempts st)) (lastLoginAttemptTime st), [],
         Returns (Status200Json loginSuccess))
  end.

Definition login_resume (a : attempt) (k : awaiting) (st : store)
  : store * list event * response :=
  match k with
  | AwaitTimeout ms key =>
      let '(st', evs, c) := after_timeout key st in
      (st', SetTimeout ms :: evs, catch_next c)
  | AwaitCredentials em pw key now remainingAttempts =>
      let '(st', evs, c) :=
        after_credentials em key now remainingAttempts
          (checkLoginCredentials a em pw) st in
      (st', CheckLoginCredentials em pw :: evs, catch_next c)
  end.

Definition login (a : attempt) (st : store) : store * list event * response :=
  let '(st1, evs1, k) := login_enter (email a) (password a) (clock a) st in
  let '(st2, evs2, r) := login_resume a k st1 in
  (st2, (evs1 ++ evs2)%list, r).

Fixpoint serve (l : list attempt) (st : store) : store * list (list event * response) :=
  match l with
  | [] => (st, [])
  | a :: l' =>
      let '(st1, evs, r) := login a st in
      let '(st2, rs) := serve l' st1 in
      (st2, (evs, r) :: rs)
  end.

(** The attempt number in the log line of a rejected call. *)
Fixpoint reported (evs : list event) : option number :=
  match evs with
  | [] => None
  | LoggerInfo (LoginGagal _ n) :: _ => Some n
  | _ :: evs' => reported evs'
  end.

Definition shown (rs : list (list event * response)) : list (Outcome * option number) :=
  map (fun p => (classify p.2, reported p.1)) rs.

(** A store of numbers, a log line and a parked call of the model on
    own entries, as they read here. *)
Definition ofStore (st : Auth.store) : store :=
  Store (Number <$> Auth.loginAttempts st) (Number <$> Auth.lastLoginAttemptTime st).

Definition ofEvent (e : Auth.event) : event :=
  match e with
  | Auth.LoggerInfo (Auth.LoginGagal em n) => LoggerInfo (LoginGagal em (Finite n))
  | Auth.LoggerInfo (Auth.LoginGagalTimeout em n) => LoggerInfo (LoginGagalTimeout em (Finite n))
  | Auth.SetTimeout ms => SetTimeout ms
  | Auth.CheckLoginCredentials em pw => CheckLoginCredentials em pw
  end.

Definition ofAwaiting (k : Auth.awaiting) : awaiting :=
  match k with
  | Auth.AwaitTimeout ms key => AwaitTimeout ms key
  | Auth.AwaitCredentials em pw key now remainingAttempts =>
      AwaitCredentials em pw key now (Finite remainingAttempts)
  end.

(** The key a parked call will write under. *)
Definition parkedKey (k : Auth.awaiting) : string :=
  match k with
  | Auth.AwaitTimeout _ key | Auth.AwaitCredentials _ _ key _ _ => key
  end.

Definition ofAnswers (rs : list (list Auth.event * response)) : list (list event * response) :=
  map (fun p => (map ofEvent p.1, p.2)) rs.

End Proto.

(** * Properties of [login] *)

Import Js Auth.

(** ** One call, case by case *)

Section LoginCases.

Variables (a : attempt) (st : store).

Local Abbreviation key := (identity a).

Lemma or_zero_default (o : option Z) : or_zero o = default 0 o.
Proof. destruct o as [n|]; simpl; [|done]. destruct (Z.eqb_spec n 0); congruence. Qed.

Lemma deleteAttempts_setAttempts k n s :
  deleteAttempts k (setAttempts k n s) = deleteAttempts k s.
Proof. unfold deleteAttempts, setAttempts; simpl. by rewrite delete_insert_eq. Qed.

(** A call that finds the counter at the limit. *)
Lemma login_locked :
  MAX_LOGIN_ATTEMPTS ≤ failureCount st key →
  login a st =
    (deleteAttempts key st,
     [LoggerInfo (LoginGagalTimeout (email a) (1 + failureCount st key));
      SetTimeout PENALTY_DELAY],
     Next (errorResponder FORBIDDEN "Too many failed login attempts")).
Proof.
  intros Hmax. unfold login, login_enter. fold (identity a).
  fold (failureCount st key).
  destruct (Z.leb_spec (MAX_LOGIN_ATTEMPTS - failureCount st key) 0) as [_|Hlt]; [|lia].
  simpl. replace (5 - (MAX_LOGIN_ATTEMPTS - failureCount st key))
    with (1 + failureCount st key) by (unfold MAX_LOGIN_ATTEMPTS; lia).
  destruct (timedOut _ _); [by rewrite deleteAttempts_setAttempts | done].
Qed.

(** A call that finds the counter below the limit reaches the
    credential check, and what follows depends on how that settles. *)
Lemma login_open :
  failureCount st key < MAX_LOGIN_ATTEMPTS →
  login a st =
    let stale := timedOut (lastLoginAttemptTime st !! key) (clock a) in
    let asked := CheckLoginCredentials (email a) (password a) in
    match credentials a with
    | Rejects x => (if stale then setAttempts key 0 st else st, [asked], Next (Foreign x))
    | Resolved v =>
        if truthy v then (deleteAttempts key st, [asked], Status200Json v)
        else
          (Store (<[key := (if stale then 0 else failureCount st key) + 1]> (loginAttempts st))
                 (<[key := clock a]> (lastLoginAttemptTime st)),
           [asked; LoggerInfo (LoginGagal (email a) (1 + failureCount st key))],
           Next (errorResponder INVALID_CREDENTIALS "Wrong email or password"))
    end.
Proof.
  intros Hlt. unfold login, login_enter. fold (identity a).
  fold (failureCount st key).
  destruct (Z.leb_spec (MAX_LOGIN_ATTEMPTS - failureCount st key) 0) as [Hle|_]; [lia|].
  cbn zeta. unfold login_resume, after_credentials. fold (credentials a).
  replace (5 - (MAX_LOGIN_ATTEMPTS - failureCount st key))
    with (1 + failureCount st key) by (unfold MAX_LOGIN_ATTEMPTS; lia).
  destruct (credentials a) as [v|x]; [|done].
  destruct (truthy v); simpl.
  - destruct (timedOut _ _); [by rewrite deleteAttempts_setAttempts | done].
  - destruct (timedOut _ _); simpl; [|done].
    rewrite lookup_insert_eq, insert_insert_eq. done.
Qed.

End LoginCases.

(** ** The lockout path *)

(** C3, as the code has it.  An attempt that finds the identity at the
    limit ([failureCount >= MAX_LOGIN_ATTEMPTS]) parks on the one-minute
    timer with the counter entry still in the map; only the segment after
    the timer deletes the entry, and it ends in the Forbidden error,
    classified [Locked].  So such a call always pays [PENALTY_DELAY] and
    always leaves the identity without a counter.  The counter is all it
    clears: neither segment writes to [lastLoginAttemptTime], so the time
    of the last failure stays on record as it was, and the entries of the
    other identities are untouched. *)
Theorem C3_locked_attempt_waits_then_deletes_the_counter (a : attempt) (st : store) :
  MAX_LOGIN_ATTEMPTS ≤ failureCount st (identity a) →
  ∃ st1 evs1,
    login_enter (email a) (password a) (clock a) st
      = (st1, evs1, AwaitTimeout PENALTY_DELAY (identity a)) ∧
    is_Some (loginAttempts st1 !! identity a) ∧
    lastLoginAttemptTime st1 = lastLoginAttemptTime st ∧
    login_resume a (AwaitTimeout PENALTY_DELAY (identity a)) st1
      = (deleteAttempts (identity a) st, [SetTimeout PENALTY_DELAY],
         Next (errorResponder FORBIDDEN "Too many failed login attempts")) ∧
    ∃ st' evs r,
      login a st = (st', evs, r) ∧
      classify r = Locked ∧
      delay evs = PENALTY_DELAY ∧
      loginAttempts st' !! identity a = None ∧
      failureCount st' (identity a) = 0 ∧
      lastLoginAttemptTime st' = lastLoginAttemptTime st ∧
      (∀ k, k ≠ identity a → loginAttempts st' !! k = loginAttempts st !! k).
Proof.
  intros Hmax.
  assert (Hsome : is_Some (loginAttempts st !! identity a)).
  { unfold failureCount, MAX_LOGIN_ATTEMPTS in Hmax.
    destruct (loginAttempts st !! identity a); [eauto | simpl in Hmax; lia]. }
  unfold login_enter. fold (identity a). fold (failureCount st (identity a)).
  destruct (Z.leb_spec (MAX_LOGIN_ATTEMPTS - failureCount st (identity a)) 0) as [_|?]; [|lia].
  eexists _, _. split; [reflexivity|]. split; [|split; [|split]].
  - destruct (timedOut _ _); simpl; [|done]. rewrite lookup_insert_eq. eauto.
  - by destruct (timedOut _ _).
  - simpl. unfold after_timeout. simpl.
    destruct (timedOut _ _); [by rewrite deleteAttempts_setAttempts | done].
  - rewrite (login_locked a st Hmax). eexists _, _, _. split; [reflexivity|].
    unfold failureCount. simpl. rewrite lookup_delete_eq.
    do 5 (split; [done|]). intros k Hk. by rewrite lookup_delete_ne.
Qed.

(** C8.  A call is answered [Locked] exactly when it found the counter
    at the limit; the last thing such a call does before the error is
    handed to [next] is to sit out the timer of [PENALTY_DELAY] = 60000 ms,
    and a call with any other outcome waits on no timer.  A request parked
    on that timer has one way forward only, the segment that follows it:
    nothing cancels the wait. *)
Theorem C8_locked_outcome_pays_the_penalty (a : attempt) (st : store) :
  ∃ st' evs r,
    login a st = (st', evs, r) ∧
    (MAX_LOGIN_ATTEMPTS ≤ failureCount st (identity a) ↔ classify r = Locked) ∧
    (classify r = Locked →
       PENALTY_DELAY = 60000 ∧
       delay evs = PENALTY_DELAY ∧
       ∃ pre, evs = (pre ++ [SetTimeout PENALTY_DELAY])%list) ∧
    (classify r ≠ Locked → delay evs = 0) ∧
    (∀ i pool evs0 ms key c',
       pool !! i = Some (a, Parked evs0 (AwaitTimeout ms key)) →
       advance i (st, pool) = Some c' →
       ∃ evs1 r1, c'.2 !! i = Some (a, Finished (evs0 ++ SetTimeout ms :: evs1) r1) ∧
                  classify r1 = Locked).
Proof.
  assert (Hpool : ∀ i pool evs0 ms key c',
     pool !! i = Some (a, Parked evs0 (AwaitTimeout ms key)) →
     advance i (st, pool) = Some c' →
     ∃ evs1 r1, c'.2 !! i = Some (a, Finished (evs0 ++ SetTimeout ms :: evs1) r1) ∧
                classify r1 = Locked).
  { intros i pool evs0 ms key c' Hi Hadv. simpl in Hadv. rewrite Hi in Hadv.
    simpl in Hadv. injection Hadv as <-. simpl. eexists _, _.
    rewrite list_lookup_insert_eq by (by eapply lookup_lt_Some). done. }
  destruct (Z.le_gt_cases MAX_LOGIN_ATTEMPTS (failureCount st (identity a))) as [Hmax|Hlt].
  - rewrite (login_locked a st Hmax). eexists _, _, _. split; [reflexivity|].
    split; [done|]. split; [|split; [simpl; congruence | done]].
    intros _. split; [done|]. split; [done|]. by eexists [_].
  - rewrite (login_open a st Hlt). cbv zeta.
    destruct (credentials a) as [v|x]; [destruct (truthy v)|];
      (eexists _, _, _; split; [reflexivity|]; simpl;
       split; [split; [lia | congruence] |];
       split; [congruence |]; split; [done | by apply Hpool]).
Qed.

(** ** What a call does to the counters *)

Lemma failureCount_setAttempts (st : store) (key : string) :
  failureCount (setAttempts key 0 st) key = 0.
Proof. unfold failureCount, setAttempts; simpl. by rewrite lookup_insert_eq. Qed.

Lemma failureCount_deleteAttempts (st : store) (key : string) :
  failureCount (deleteAttempts key st) key = 0.
Proof. unfold failureCount, deleteAttempts; simpl. by rewrite lookup_delete_eq. Qed.

(** The counter of the identity after a call, in each of its four ways
    out. *)
Lemma failureCount_after_login (a : attempt) (st : store) :
  failureCount (login a st).1.1 (identity a) =
    if MAX_LOGIN_ATTEMPTS <=? failureCount st (identity a) then 0
    else match credentials a with
         | Rejects _ => forgiven st (identity a) (clock a)
         | Resolved v =>
             if truthy v then 0
             else (if forgiven st (identity a) (clock a) =? -1 then 0
                   else forgiven st (identity a) (clock a) + 1)
         end.
Proof.
  destruct (Z.leb_spec MAX_LOGIN_ATTEMPTS (failureCount st (identity a))) as [Hmax|Hlt].
  - rewrite (login_locked a st Hmax). apply failureCount_deleteAttempts.
  - rewrite (login_open a st Hlt). cbv zeta. unfold forgiven. fold (failureCount st (identity a)).
    destruct (credentials a) as [v|x].
    + destruct (truthy v); simpl; [apply failureCount_deleteAttempts|].
      unfold failureCount at 1. simpl. rewrite lookup_insert_eq. simpl.
      destruct (timedOut _ _); simpl.
      * done.
      * destruct (Z.eqb_spec (failureCount st (identity a) + 1) 0),
                 (Z.eqb_spec (failureCount st (identity a)) (-1)); lia.
    + simpl. destruct (timedOut _ _); [apply failureCount_setAttempts | done].
Qed.

(** A call leaves the other identities alone. *)
Lemma login_frame (a : attempt) (st : store) (k : string) :
  k ≠ identity a →
  loginAttempts (login a st).1.1 !! k = loginAttempts st !! k ∧
  lastLoginAttemptTime (login a st).1.1 !! k = lastLoginAttemptTime st !! k.
Proof.
  intros Hk.
  destruct (Z.le_gt_cases MAX_LOGIN_ATTEMPTS (failureCount st (identity a))) as [Hmax|Hlt].
  - rewrite (login_locked a st Hmax). simpl. by rewrite lookup_delete_ne.
  - rewrite (login_open a st Hlt). cbv zeta.
    destruct (credentials a) as [v|x]; [destruct (truthy v)|]; simpl.
    + by rewrite lookup_delete_ne.
    + by rewrite !lookup_insert_ne.
    + destruct (timedOut _ _); simpl; [by rewrite lookup_insert_ne | done].
Qed.

(** The time stamps change on a rejection only. *)
Lemma lastLoginAttemptTime_after_login (a : attempt) (st : store) :
  lastLoginAttemptTime (login a st).1.1 =
    if (failureCount st (identity a) <? MAX_LOGIN_ATTEMPTS) && failsb a
    then <[identity a := clock a]> (lastLoginAttemptTime st)
    else lastLoginAttemptTime st.
Proof.
  unfold failsb.
  destruct (Z.ltb_spec (failureCount st (identity a)) MAX_LOGIN_ATTEMPTS) as [Hlt|Hmax].
  - rewrite (login_open a st Hlt). cbv zeta.
    destruct (credentials a) as [v|x]; [destruct (truthy v)|]; simpl; try done.
    by destruct (timedOut _ _).
  - by rewrite (login_locked a st Hmax).
Qed.

(** How a call is classified. *)
Lemma classify_login (a : attempt) (st : store) :
  classify (login a st).2 =
    if MAX_LOGIN_ATTEMPTS <=? failureCount st (identity a) then Locked
    else match credentials a with
         | Rejects x => Forwarded (Foreign x)
         | Resolved v => if truthy v then Authenticated else Rejected
         end.
Proof.
  destruct (Z.leb_spec MAX_LOGIN_ATTEMPTS (failureCount st (identity a))) as [Hmax|Hlt].
  - by rewrite (login_locked a st Hmax).
  - rewrite (login_open a st Hlt). cbv zeta.
    by destruct (credentials a) as [v|x]; [destruct (truthy v)|].
Qed.

(** ** Success *)

Lemma login_authenticated (a : attempt) (st : store) :
  classify (login a st).2 = Authenticated →
  (login a st).1.1 = deleteAttempts (identity a) st.
Proof.
  intros Hauth.
  destruct (Z.le_gt_cases MAX_LOGIN_ATTEMPTS (failureCount st (identity a))) as [Hmax|Hlt].
  { rewrite (login_locked a st Hmax) in Hauth. discriminate. }
  revert Hauth. rewrite (login_open a st Hlt). cbv zeta.
  by destruct (credentials a) as [v|x]; [destruct (truthy v)|].
Qed.

(** C4, as the code has it.  A call answered [Authenticated] deletes the
    identity's entry of [loginAttempts] and nothing else: the map of
    time stamps [lastLoginAttemptTime] is left exactly as it was, so the
    time of the last failure stays on record; the counters of the other
    identities are untouched. *)
Theorem C4_success_deletes_counter_only (a : attempt) (st : store) :
  classify (login a st).2 = Authenticated →
  (login a st).1.1 = deleteAttempts (identity a) st ∧
  loginAttempts (login a st).1.1 !! identity a = None ∧
  lastLoginAttemptTime (login a st).1.1 = lastLoginAttemptTime st ∧
  (∀ k, k ≠ identity a → loginAttempts (login a st).1.1 !! k = loginAttempts st !! k).
Proof.
  intros Hauth. rewrite (login_authenticated a st Hauth). simpl.
  rewrite lookup_delete_eq. repeat split; try done.
  intros k Hk. by rewrite lookup_delete_ne.
Qed.

(** ** The credential check *)

(** C7, as the code has it.  A request whose body holds a string
    under [email] (and anything under [password]) always ends in a
    response or in [next(error)]; a request without one does not, for
    lines 20 and 21 stand before the [try]: the call is rejected with a
    [TypeError] and nothing is read or written.  When the credential
    check resolves, or is not reached, the outcome is one of
    [Authenticated], [Rejected], [Locked]; every falsy answer of the
    check, whatever it stands for (unknown address or wrong password),
    goes down one path: below the limit it is answered [Rejected] and, the
    identity being [ordinary], adds one to the counter, and two calls that
    differ only in which falsy value came back end the same.  When the
    check itself is rejected, the reason is handed to [next] as it is and
    the counter is not incremented. *)
Theorem C7_falsy_answers_count_and_exceptions_pass (a : attempt) (st : store) :
  ∃ st' evs r,
    login a st = (st', evs, r) ∧
    login_request (Some (Body (Str (email a)) (password a))) (clock a)
                  (checkLoginCredentials a) st = (st', evs, Handled r) ∧
    (∀ b now check, (∀ em pw, b ≠ Some (Body (Str em) pw)) →
       login_request b now check st = (st, [], Unhandled (Str "TypeError"))) ∧
    (MAX_LOGIN_ATTEMPTS ≤ failureCount st (identity a) → classify r = Locked) ∧
    (∀ v, credentials a = Resolved v →
          classify r = Authenticated ∨ classify r = Rejected ∨ classify r = Locked) ∧
    (failsb a = true → failureCount st (identity a) < MAX_LOGIN_ATTEMPTS →
       classify r = Rejected ∧
       (ordinary (identity a) = true →
        loginAttempts st' !! identity a = Some (forgiven st (identity a) (clock a) + 1)) ∧
       ∀ b, email b = email a → password b = password a → clock b = clock a →
            failsb b = true → login b st = login a st) ∧
    (∀ x, credentials a = Rejects x → failureCount st (identity a) < MAX_LOGIN_ATTEMPTS →
       r = Next (Foreign x) ∧
       classify r = Forwarded (Foreign x) ∧
       failureCount st' (identity a) = forgiven st (identity a) (clock a)).
Proof.
  destruct (login a st) as [[st' evs] r] eqn:Hlogin.
  exists st', evs, r. split; [done|].
  assert (Hst : st' = (login a st).1.1) by by rewrite Hlogin.
  assert (Hr : r = (login a st).2) by by rewrite Hlogin.
  split.
  { unfold login_request.
    replace (Attempt (email a) (password a) (clock a) (checkLoginCredentials a)) with a
      by (by destruct a).
    by rewrite Hlogin. }
  split.
  { intros b now check Hb. unfold login_request.
    destruct b as [[[| |?|?|em|?] pw]|]; try done. by destruct (Hb em pw). }
  split; [|split; [|split]].
  - intros Hmax. rewrite Hr, classify_login.
    by destruct (Z.leb_spec MAX_LOGIN_ATTEMPTS (failureCount st (identity a))); [|lia].
  - intros v Hv. rewrite Hr, classify_login, Hv.
    destruct (_ <=? _); [auto|]. destruct (truthy v); auto.
  - intros Hfail Hlt. unfold failsb in Hfail.
    destruct (credentials a) as [v|x] eqn:Hcred; [|done].
    apply negb_true_iff in Hfail.
    assert (Hopen := login_open a st Hlt). cbv zeta in Hopen. rewrite Hcred, Hfail in Hopen.
    split; [by rewrite Hr, Hopen|]. split.
    + intros _. rewrite Hst, Hopen. simpl. rewrite lookup_insert_eq. done.
    + intros b Hem Hpw Hclk Hb. unfold failsb in Hb.
      destruct (credentials b) as [w|y] eqn:Hcredb; [|done].
      apply negb_true_iff in Hb.
      assert (Hid : identity b = identity a) by (unfold identity; by rewrite Hem).
      assert (Hopenb := login_open b st). cbv zeta in Hopenb.
      rewrite Hid, Hcredb, Hb, Hem, Hpw, Hclk in Hopenb.
      rewrite Hopenb by done. rewrite <- Hlogin, Hopen. done.
  - intros x Hx Hlt.
    assert (Hopen := login_open a st Hlt). cbv zeta in Hopen. rewrite Hx in Hopen.
    split; [by rewrite Hr, Hopen|]. split; [by rewrite Hr, Hopen|].
    rewrite Hst, Hopen. simpl. unfold forgiven.
    destruct (timedOut _ _); [apply failureCount_setAttempts | done].
Qed.

(** ** Requests served in a row *)

Lemma serve_cons (a : attempt) (l : list attempt) (st : store) :
  serve (a :: l) st =
    ((serve l (login a st).1.1).1,
     ((login a st).1.2, (login a st).2) :: (serve l (login a st).1.1).2).
Proof.
  simpl. destruct (login a st) as [[st1 evs] r]. simpl.
  by destruct (serve l st1) as [st2 rs].
Qed.

Lemma serve_app (l1 l2 : list attempt) (st : store) :
  serve (l1 ++ l2) st =
    ((serve l2 (serve l1 st).1).1, ((serve l1 st).2 ++ (serve l2 (serve l1 st).1).2)%list).
Proof.
  revert st. induction l1 as [|a l1 IH]; intros st.
  - simpl. by destruct (serve l2 st).
  - rewrite <- app_comm_cons, !serve_cons, IH. done.
Qed.


(** One more failure below the limit, none forgiven. *)
Lemma login_failure (a : attempt) (st : store) :
  failsb a = true →
  failureCount st (identity a) < MAX_LOGIN_ATTEMPTS →
  failureCount st (identity a) = 0
    ∨ timedOut (lastLoginAttemptTime st !! identity a) (clock a) = false →
  login a st =
    (Store (<[identity a := failureCount st (identity a) + 1]> (loginAttempts st))
           (<[identity a := clock a]> (lastLoginAttemptTime st)),
     [CheckLoginCredentials (email a) (password a);
      LoggerInfo (LoginGagal (email a) (1 + failureCount st (identity a)))],
     Next (errorResponder INVALID_CREDENTIALS "Wrong email or password")).
Proof.
  intros Hfail Hlt Hfresh. unfold failsb in Hfail.
  destruct (credentials a) as [v|x] eqn:Hcred; [|done]. apply negb_true_iff in Hfail.
  rewrite (login_open a st Hlt). cbv zeta. rewrite Hcred, Hfail.
  destruct Hfresh as [H0|Hns]; [rewrite H0 | rewrite Hns]; [|done].
  by destruct (timedOut _ _).
Qed.

(** Counting: [length l] failures in a row on a counter that stands at
    [c], with room below the limit and nothing forgiven on the way. *)
Lemma failures_counted (key : string) (l : list attempt) : ∀ (st : store) (c : Z),
  Forall (fun a => identity a = key ∧ failsb a = true) l →
  withinWindow l = true →
  failureCount st key = c → 0 ≤ c →
  (∀ a, head l = Some a →
        c = 0 ∨ timedOut (lastLoginAttemptTime st !! key) (clock a) = false) →
  c + Z.of_nat (length l) ≤ MAX_LOGIN_ATTEMPTS →
  failureCount (serve l st).1 key = c + Z.of_nat (length l) ∧
  shown (serve l st).2 = rejections (c + 1) (length l).
Proof.
  induction l as [|a l IH]; intros st c Hall Hwin Hc Hc0 Hhead Hroom.
  - simpl. split; [lia | done].
  - apply Forall_cons in Hall as [[Hkey Hfail] Hall].
    assert (Hlt : failureCount st (identity a) < MAX_LOGIN_ATTEMPTS).
    { rewrite Hkey, Hc. simpl length in Hroom. lia. }
    assert (Hfresh : failureCount st (identity a) = 0
              ∨ timedOut (lastLoginAttemptTime st !! identity a) (clock a) = false).
    { rewrite Hkey, Hc. by apply Hhead. }
    rewrite serve_cons, (login_failure a st Hfail Hlt Hfresh). simpl fst. simpl snd.
    rewrite Hkey, Hc.
    set (st1 := Store _ _).
    assert (Hc1 : failureCount st1 key = c + 1).
    { unfold failureCount, st1. simpl. rewrite lookup_insert_eq. simpl.
      destruct (Z.eqb_spec (c + 1) 0); [lia | done]. }
    destruct (IH st1 (c + 1)) as [Hcount Hshown]; try done.
    + simpl in Hwin. destruct l as [|b l]; [done|]. by apply andb_true_iff in Hwin as [_ ?].
    + lia.
    + intros b Hb. right. unfold st1. simpl. rewrite lookup_insert_eq.
      destruct l as [|b' l]; [done|]. simpl in Hb. injection Hb as ->.
      simpl in Hwin. apply andb_true_iff in Hwin as [Hle _]. apply Z.leb_le in Hle.
      unfold timedOut. destruct (Z.ltb_spec LOGIN_TIMEOUT (clock b - clock a)); [lia|].
      apply andb_false_r.
    + simpl length in Hroom |- *. lia.
    + split.
      * rewrite Hcount. simpl length. lia.
      * simpl. f_equal; [by replace (1 + c) with (c + 1) by lia |]. apply Hshown.
Qed.

(** The counters of a server that started empty stay between zero and
    the limit. *)
Lemma login_bounded (a : attempt) (st : store) :
  (∀ k, 0 ≤ failureCount st k ≤ MAX_LOGIN_ATTEMPTS) →
  ∀ k, 0 ≤ failureCount (login a st).1.1 k ≤ MAX_LOGIN_ATTEMPTS.
Proof.
  intros Hst k. destruct (decide (k = identity a)) as [->|Hk].
  - rewrite failureCount_after_login. specialize (Hst (identity a)).
    assert (Hf : 0 ≤ forgiven st (identity a) (clock a) ≤ failureCount st (identity a)).
    { unfold forgiven. fold (failureCount st (identity a)). destruct (timedOut _ _); lia. }
    unfold MAX_LOGIN_ATTEMPTS in *.
    destruct (Z.leb_spec 4 (failureCount st (identity a))); [lia|].
    destruct (credentials a) as [v|x]; [|lia].
    destruct (truthy v); [lia|].
    destruct (Z.eqb_spec (forgiven st (identity a) (clock a)) (-1)); lia.
  - unfold failureCount. destruct (login_frame a st k Hk) as [-> _]. apply Hst.
Qed.

Lemma serve_bounded (l : list attempt) : ∀ (st : store),
  (∀ k, 0 ≤ failureCount st k ≤ MAX_LOGIN_ATTEMPTS) →
  ∀ k, 0 ≤ failureCount (serve l st).1 k ≤ MAX_LOGIN_ATTEMPTS.
Proof.
  induction l as [|a l IH]; intros st Hst; [done|].
  rewrite serve_cons. simpl. apply IH. by apply login_bounded.
Qed.

Lemma initial_bounded (k : string) : 0 ≤ failureCount initial k ≤ MAX_LOGIN_ATTEMPTS.
Proof. unfold failureCount, initial; simpl. rewrite lookup_empty. simpl. unfold MAX_LOGIN_ATTEMPTS. lia. Qed.

(** An identity whose counter reads zero is served like one the server
    has never seen, whatever time stamp is still on record for it. *)
Lemma login_clean_agree (a : attempt) (st1 st2 : store) :
  failureCount st1 (identity a) = 0 →
  failureCount st2 (identity a) = 0 →
  (login a st1).1.2 = (login a st2).1.2 ∧
  (login a st1).2 = (login a st2).2 ∧
  failureCount (login a st1).1.1 (identity a) = failureCount (login a st2).1.1 (identity a).
Proof.
  intros H1 H2.
  assert (Hf : ∀ st, failureCount st (identity a) = 0 → forgiven st (identity a) (clock a) = 0).
  { intros st H. unfold forgiven. fold (failureCount st (identity a)). rewrite H.
    by destruct (timedOut _ _). }
  split; [|split].
  - rewrite !login_open by (rewrite ?H1, ?H2; done). cbv zeta. rewrite H1, H2.
    by destruct (credentials a) as [v|x]; [destruct (truthy v)|].
  - rewrite !login_open by (rewrite ?H1, ?H2; done). cbv zeta. rewrite H1, H2.
    by destruct (credentials a) as [v|x]; [destruct (truthy v)|].
  - rewrite !failureCount_after_login, H1, H2, !Hf by done. done.
Qed.

Lemma withinWindow_take (l : list attempt) : ∀ k : nat,
  withinWindow l = true → withinWindow (take k l) = true.
Proof.
  induction l as [|a l IH]; intros k Hwin; [by destruct k|].
  destruct k as [|k]; [done|]. destruct l as [|b l]; [by destruct k|].
  simpl in Hwin. apply andb_true_iff in Hwin as [Hab Hwin].
  specialize (IH k Hwin). destruct k as [|k]; [done|].
  change (take (S (S k)) (a :: b :: l)) with (a :: take (S k) (b :: l)).
  change (take (S k) (b :: l)) with (b :: take k l) in *.
  simpl. rewrite Hab. exact IH.
Qed.

(** ** The lockout trip *)

(** C1, as the code has it.  Let the identity be an [ordinary] key.
    From a counter at zero, four failed attempts in a row on it, none of
    them forgiven, are answered [Rejected] with the numbers 1, 2, 3, 4,
    and leave the counter at the limit.  It is the attempt after these,
    the fifth, that is answered [Locked], whatever its credentials; it
    deletes the counter, and a sixth attempt is served as for an identity
    the server has never seen. *)
Theorem C1_four_rejections_then_locked
    (key : string) (l : list attempt) (fifth sixth : attempt) (st unseen : store) :
  ordinary key = true →
  failureCount st key = 0 →
  Z.of_nat (length l) = MAX_LOGIN_ATTEMPTS →
  Forall (fun a => identity a = key ∧ failsb a = true) l →
  withinWindow l = true →
  identity fifth = key →
  identity sixth = key →
  loginAttempts unseen !! key = None →
  lastLoginAttemptTime unseen !! key = None →
  let st4 := (serve l st).1 in
  let st5 := (login fifth st4).1.1 in
  shown (serve l st).2
    = [(Rejected, Some 1); (Rejected, Some 2); (Rejected, Some 3); (Rejected, Some 4)] ∧
  failureCount st4 key = MAX_LOGIN_ATTEMPTS ∧
  classify (login fifth st4).2 = Locked ∧
  loginAttempts st5 !! key = None ∧
  failureCount st5 key = 0 ∧
  (login sixth st5).1.2 = (login sixth unseen).1.2 ∧
  (login sixth st5).2 = (login sixth unseen).2 ∧
  failureCount (login sixth st5).1.1 key = failureCount (login sixth unseen).1.1 key.
Proof.
  intros _ Hclean Hlen Hall Hwin H5 H6 Hu1 Hu2 st4 st5.
  destruct (failures_counted key l st 0) as [Hcount Hshown]; try done.
  { intros; by left. }
  { lia. }
  assert (Hl : length l = 4%nat) by (unfold MAX_LOGIN_ATTEMPTS in Hlen; lia).
  rewrite Hl in Hshown, Hcount. simpl in Hshown, Hcount.
  assert (Hmax : MAX_LOGIN_ATTEMPTS ≤ failureCount st4 (identity fifth)).
  { rewrite H5. unfold st4. rewrite Hcount. done. }
  assert (H5st : st5 = deleteAttempts key st4).
  { unfold st5. rewrite (login_locked fifth st4 Hmax). simpl. by rewrite H5. }
  assert (Hz5 : failureCount st5 key = 0).
  { rewrite H5st. apply failureCount_deleteAttempts. }
  assert (Hzu : failureCount unseen key = 0).
  { unfold failureCount. by rewrite Hu1. }
  split; [done|]. split; [done|]. split.
  { by rewrite (login_locked fifth st4 Hmax). }
  split. { rewrite H5st. simpl. apply lookup_delete_eq. }
  split; [done|].
  rewrite <- H6 in Hz5, Hzu |- *. by apply login_clean_agree.
Qed.

(** ** Reset on success *)



(** ** Requests in flight together *)

Lemma finished_insert (pool : list task) : ∀ (i : nat) (t t' : task),
  pool !! i = Some t →
  (finished (<[i:=t']> pool) + (if finishedb t then 1 else 0)
   = finished pool + (if finishedb t' then 1 else 0))%nat.
Proof.
  induction pool as [|u pool IH]; intros i t t' Hi; [done|].
  destruct i as [|i]; simpl in *.
  - injection Hi as ->. lia.
  - specialize (IH i t t' Hi). lia.
Qed.

Lemma pending_insert (pool : list task) : ∀ (i : nat) (t t' : task),
  pool !! i = Some t →
  (pending (<[i:=t']> pool) + segmentsLeft t = pending pool + segmentsLeft t')%nat.
Proof.
  induction pool as [|u pool IH]; intros i t t' Hi; [done|].
  destruct i as [|i]; simpl in *.
  - injection Hi as ->. lia.
  - specialize (IH i t t' Hi). lia.
Qed.

Lemma finished_le_length (pool : list task) : (finished pool ≤ length pool)%nat.
Proof. induction pool as [|t pool IH]; simpl; [lia|]. destruct (finishedb t); lia. Qed.

Lemma finished_lt_length (pool : list task) : ∀ (i : nat) (t : task),
  pool !! i = Some t → finishedb t = false → (finished pool < length pool)%nat.
Proof.
  induction pool as [|u pool IH]; intros i t Hi Ht; [done|].
  destruct i as [|i]; simpl in *.
  - injection Hi as ->. rewrite Ht. pose proof (finished_le_length pool). lia.
  - specialize (IH i t Hi Ht). destruct (finishedb u); lia.
Qed.

Lemma pending_zero (pool : list task) : pending pool = O → finished pool = length pool.
Proof.
  induction pool as [|[a ph] pool IH]; simpl; [done|]. intros H.
  destruct ph; unfold segmentsLeft in H; simpl in H; try lia.
  unfold finishedb. simpl. rewrite IH by lia. done.
Qed.

Lemma pending_pick (pool : list task) :
  pending pool ≠ O → ∃ i t, pool !! i = Some t ∧ segmentsLeft t ≠ O.
Proof.
  induction pool as [|t pool IH]; simpl; [done|]. intros H.
  destruct (decide (segmentsLeft t = O)) as [Ht|Ht].
  - destruct IH as (i & u & Hi & Hu); [lia|]. by exists (S i), u.
  - by exists O, t.
Qed.

Lemma advance_eq (i : nat) (st : store) (pool : list task) :
  advance i (st, pool) =
    match pool !! i with
    | Some (a, Arrived) =>
        let '(st', evs, k) := login_enter (email a) (password a) (clock a) st in
        Some (st', <[i := (a, Parked evs k)]> pool)
    | Some (a, Parked evs k) =>
        let '(st', evs', r) := login_resume a k st in
        Some (st', <[i := (a, Finished (evs ++ evs') r)]> pool)
    | _ => None
    end.
Proof. reflexivity. Qed.

Lemma schedule_cons (i : nat) (order : list nat) (c : config) :
  schedule (i :: order) c =
    match advance i c with
    | Some c' => schedule order c'
    | None => None
    end.
Proof. reflexivity. Qed.

(** A request that is not through can always run its next segment. *)
Lemma advance_pending (st : store) (pool : list task) (i : nat) (t : task) :
  pool !! i = Some t → segmentsLeft t ≠ O →
  ∃ c', advance i (st, pool) = Some c' ∧ pending pool = S (pending c'.2).
Proof.
  intros Hi Ht. destruct t as [a ph]. rewrite advance_eq, Hi.
  destruct ph as [|evs k|evs r]; [| |done].
  - destruct (login_enter _ _ _ _) as [[st' evs] k]. eexists. split; [done|]. simpl.
    pose proof (pending_insert pool i (a, Arrived) (a, Parked evs k) Hi) as H.
    unfold segmentsLeft in H. simpl in H. lia.
  - destruct (login_resume _ _ _) as [[st' evs'] r]. eexists. split; [done|]. simpl.
    pose proof (pending_insert pool i (a, Parked evs k) (a, Finished (evs ++ evs') r) Hi) as H.
    unfold segmentsLeft in H. simpl in H. lia.
Qed.

Lemma login_enter_open (a : attempt) (st : store) :
  failureCount st (identity a) < MAX_LOGIN_ATTEMPTS →
  login_enter (email a) (password a) (clock a) st =
    (if timedOut (lastLoginAttemptTime st !! identity a) (clock a)
     then setAttempts (identity a) 0 st else st,
     [],
     AwaitCredentials (email a) (password a) (identity a) (clock a)
       (MAX_LOGIN_ATTEMPTS - failureCount st (identity a))).
Proof.
  intros Hlt. unfold login_enter. fold (identity a). fold (failureCount st (identity a)).
  by destruct (Z.leb_spec (MAX_LOGIN_ATTEMPTS - failureCount st (identity a)) 0); [lia|].
Qed.

Lemma finished_arrivals (l : list attempt) : finished (arrivals l) = O.
Proof. induction l as [|a l IH]; simpl; done. Qed.

Lemma arrivals_requests (l : list attempt) : (arrivals l).*1 = l.
Proof. induction l as [|a l IH]; [done|]. simpl. f_equal. exact IH. Qed.

Lemma arrivals_onItsWay (key : string) (l : list attempt) : Forall (onItsWay key) (arrivals l).
Proof. induction l as [|a l IH]; simpl; by constructor. Qed.

Lemma numbered_arrivals (l : list attempt) : Forall (numbered 0) (arrivals l).
Proof. induction l as [|a l IH]; simpl; by constructor. Qed.

Lemma numbered_more (n m : nat) (t : task) : (n ≤ m)%nat → numbered n t → numbered m t.
Proof.
  intros Hnm. unfold numbered.
  destruct t as [a [|evs [ms k|em pw k now rem]|evs r]]; simpl; try done.
  - intros [-> Hrem]. split; [done | lia].
  - intros (n' & Hrep & Hn). exists n'. split; [done | lia].
Qed.

Section Interleaving.

Variables (key : string) (l : list attempt).

Hypothesis Hall : Forall (fun a => identity a = key ∧ failsb a = true) l.
Hypothesis Hlen : Z.of_nat (length l) ≤ MAX_LOGIN_ATTEMPTS.
Hypothesis Hover : overlapping l = true.

Lemma overlapping_not_stale (a b : attempt) :
  a ∈ l → b ∈ l → timedOut (Some (clock a)) (clock b) = false.
Proof using Hover.
  intros Ha Hb. unfold overlapping in Hover.
  rewrite forallb_forall in Hover. apply list_elem_of_In in Ha, Hb.
  specialize (Hover a Ha). rewrite forallb_forall in Hover.
  specialize (Hover b Hb). apply Z.leb_le in Hover.
  unfold timedOut. destruct (Z.ltb_spec LOGIN_TIMEOUT (clock b - clock a)); [lia|].
  apply andb_false_r.
Qed.

Lemma countedSoFar_arrivals (st : store) :
  failureCount st key = 0 → countedSoFar key l (st, arrivals l).
Proof using Type.
  intros Hclean. unfold countedSoFar. simpl.
  rewrite finished_arrivals, arrivals_requests.
  repeat split; try done. apply arrivals_onItsWay.
Qed.

Lemma countedSoFar_advance (c c' : config) (i : nat) :
  countedSoFar key l c → advance i c = Some c' → countedSoFar key l c'.
Proof using Hall Hlen Hover.
  destruct c as [st pool]. intros (Hl & Hcount & Hlast & Hpool) Hadv.
  simpl in Hl, Hcount, Hlast, Hpool. rewrite advance_eq in Hadv.
  destruct (pool !! i) as [[a ph]|] eqn:Hi; [|done].
  assert (Hal : l !! i = Some a).
  { rewrite <- Hl, list_lookup_fmap, Hi. done. }
  assert (Ha : a ∈ l) by by eapply list_elem_of_lookup_2.
  destruct (proj1 (Forall_forall _ _) Hall a Ha) as [Hkey Hfail].
  assert (Hfst : ∀ ph', (<[i:=(a, ph')]> pool).*1 = l).
  { intros ph'. rewrite list_fmap_insert. simpl. rewrite Hl. by apply list_insert_id. }
  destruct ph as [|evs k|evs r]; [| |done].
  - (* entry *)
    assert (Hnf : (finished pool < length pool)%nat)
      by (by eapply (finished_lt_length pool i (a, Arrived))).
    assert (Hlenp : length pool = length l) by (by rewrite <- Hl, length_fmap).
    assert (Hlt : failureCount st (identity a) < MAX_LOGIN_ATTEMPTS) by (rewrite Hkey; lia).
    rewrite (login_enter_open a st Hlt) in Hadv. injection Hadv as <-.
    pose proof (finished_insert pool i (a, Arrived)
                  (a, Parked [] (AwaitCredentials (email a) (password a) (identity a)
                     (clock a) (MAX_LOGIN_ATTEMPTS - failureCount st (identity a)))) Hi) as Hfin.
    unfold finishedb in Hfin. simpl in Hfin.
    unfold countedSoFar. simpl. split; [apply Hfst|].
    replace (finished (<[i:=_]> pool)) with (finished pool) by lia.
    rewrite Hkey.
    destruct (decide (finished pool = O)) as [Hz|Hnz].
    + split; [|split; [done|]].
      * rewrite Hz in Hcount |- *.
        destruct (timedOut _ _); [apply failureCount_setAttempts | done].
      * apply Forall_insert; [done|]. unfold onItsWay. simpl. eauto.
    + destruct (Hlast Hnz) as (b & Hb & Hstamp).
      rewrite Hstamp, (overlapping_not_stale b a Hb Ha).
      split; [done|]. split; [eauto|].
      apply Forall_insert; [done|]. unfold onItsWay. simpl. eauto.
  - (* after the credential check *)
    pose proof (Forall_lookup_1 _ _ _ _ Hpool Hi) as Hk. unfold onItsWay in Hk.
    simpl in Hk. destruct Hk as [rem ->]. simpl in Hadv.
    unfold failsb in Hfail. fold (credentials a) in Hadv.
    destruct (credentials a) as [v|x]; [|done]. apply negb_true_iff in Hfail.
    unfold after_credentials in Hadv. rewrite Hfail in Hadv. simpl in Hadv.
    injection Hadv as <-.
    pose proof (finished_insert pool i (a, Parked evs
                  (AwaitCredentials (email a) (password a) key (clock a) rem))
                  (a, Finished (evs ++ [CheckLoginCredentials (email a) (password a);
                         LoggerInfo (LoginGagal (email a) (5 - rem))])
                     (Next (errorResponder INVALID_CREDENTIALS "Wrong email or password")))
                  Hi) as Hfin.
    unfold finishedb in Hfin. simpl in Hfin.
    unfold countedSoFar. simpl. split; [apply Hfst|].
    replace (finished (<[i:=_]> pool)) with (S (finished pool)) by lia.
    split; [|split].
    + unfold failureCount at 1. simpl. rewrite lookup_insert_eq.
      fold (failureCount st key). rewrite Hcount. simpl.
      destruct (Z.eqb_spec (Z.of_nat (finished pool) + 1) 0); lia.
    + intros _. exists a. split; [done|]. by rewrite lookup_insert_eq.
    + apply Forall_insert; [done|]. done.
Qed.

Lemma countedSoFar_rtc (c c' : config) :
  countedSoFar key l c → rtc step c c' → countedSoFar key l c'.
Proof using Hall Hlen Hover.
  intros Hc Hsteps. induction Hsteps as [c|c c1 c2 [i Hadv] _ IH]; [done|].
  apply IH. by eapply countedSoFar_advance.
Qed.

(** From wherever the pool stands, some order of segments takes every
    request through. *)
Lemma countedSoFar_completes (n : nat) : ∀ c : config,
  pending c.2 = n → countedSoFar key l c →
  ∃ order c', schedule order c = Some c' ∧ rtc step c c' ∧ finished c'.2 = length l.
Proof using Hall Hlen Hover.
  induction n as [|n IH]; intros [st pool] Hn Hc; simpl in Hn.
  - exists [], (st, pool). split; [done|]. split; [done|]. simpl.
    rewrite (pending_zero pool Hn). destruct Hc as (<- & _). by rewrite length_fmap.
  - destruct (pending_pick pool) as (i & t & Hi & Ht); [lia|].
    destruct (advance_pending st pool i t Hi Ht) as (c1 & Hadv & Hpend).
    destruct (IH c1) as (order & c' & Hrun & Hsteps & Hfin).
    + lia.
    + by eapply countedSoFar_advance.
    + exists (i :: order), c'. split; [|split; [|done]].
      * by rewrite schedule_cons, Hadv.
      * eapply rtc_l; [by exists i | done].
Qed.

Lemma numbered_advance (c c' : config) (i : nat) :
  countedSoFar key l c → Forall (numbered (finished c.2)) c.2 →
  advance i c = Some c' → Forall (numbered (finished c'.2)) c'.2.
Proof using Hall Hlen Hover.
  destruct c as [st pool]. intros (Hl & Hcount & Hlast & Hpool) Hnum Hadv.
  simpl in Hl, Hcount, Hlast, Hpool, Hnum. rewrite advance_eq in Hadv.
  destruct (pool !! i) as [[a ph]|] eqn:Hi; [|done].
  assert (Ha : a ∈ l).
  { eapply list_elem_of_lookup_2. rewrite <- Hl, list_lookup_fmap, Hi. done. }
  destruct (proj1 (Forall_forall _ _) Hall a Ha) as [Hkey Hfail].
  destruct ph as [|evs k|evs r]; [| |done].
  - assert (Hnf : (finished pool < length pool)%nat)
      by (by eapply (finished_lt_length pool i (a, Arrived))).
    assert (Hlenp : length pool = length l) by (by rewrite <- Hl, length_fmap).
    assert (Hlt : failureCount st (identity a) < MAX_LOGIN_ATTEMPTS) by (rewrite Hkey; lia).
    rewrite (login_enter_open a st Hlt) in Hadv. injection Hadv as <-.
    pose proof (finished_insert pool i (a, Arrived)
                  (a, Parked [] (AwaitCredentials (email a) (password a) (identity a)
                     (clock a) (MAX_LOGIN_ATTEMPTS - failureCount st (identity a)))) Hi) as Hfin.
    unfold finishedb in Hfin. simpl in Hfin. simpl.
    replace (finished (<[i:=_]> pool)) with (finished pool) by lia.
    apply Forall_insert; [done|]. unfold numbered. simpl. rewrite Hkey, Hcount.
    split; [done | lia].
  - pose proof (Forall_lookup_1 _ _ _ _ Hpool Hi) as Hk. unfold onItsWay in Hk.
    simpl in Hk. destruct Hk as [rem ->].
    pose proof (Forall_lookup_1 _ _ _ _ Hnum Hi) as Hn. unfold numbered in Hn.
    simpl in Hn. destruct Hn as [-> Hrem]. simpl in Hadv.
    unfold failsb in Hfail. fold (credentials a) in Hadv.
    destruct (credentials a) as [v|x]; [|done]. apply negb_true_iff in Hfail.
    unfold after_credentials in Hadv. rewrite Hfail in Hadv. simpl in Hadv.
    injection Hadv as <-.
    pose proof (finished_insert pool i (a, Parked []
                  (AwaitCredentials (email a) (password a) key (clock a) rem))
                  (a, Finished ([] ++ [CheckLoginCredentials (email a) (password a);
                         LoggerInfo (LoginGagal (email a) (5 - rem))])
                     (Next (errorResponder INVALID_CREDENTIALS "Wrong email or password")))
                  Hi) as Hfin.
    unfold finishedb in Hfin. simpl in Hfin. simpl.
    replace (finished (<[i:=_]> pool)) with (S (finished pool)) by lia.
    apply Forall_insert.
    + eapply Forall_impl; [exact Hnum|]. intros t. apply numbered_more. lia.
    + unfold numbered. simpl. exists (5 - rem). split; [done|].
      unfold MAX_LOGIN_ATTEMPTS in Hrem. lia.
Qed.

Lemma numbered_rtc (c c' : config) :
  countedSoFar key l c → Forall (numbered (finished c.2)) c.2 →
  rtc step c c' → Forall (numbered (finished c'.2)) c'.2.
Proof using Hall Hlen Hover.
  intros Hc Hn Hsteps. induction Hsteps as [c|c c1 c2 [i Hadv] _ IH]; [done|].
  apply IH; [by eapply countedSoFar_advance | by eapply numbered_advance].
Qed.

End Interleaving.

(** C9, as the code has it.  Let at most [MAX_LOGIN_ATTEMPTS] failing
    requests for one [ordinary] identity, whose entry times lie within the
    window of each other, be in flight together over a counter at zero.
    However their segments interleave, the counter always equals the
    number of requests that are through, each request is answered
    [Rejected], the request that gets through next stores the next number,
    and when all are through the counter equals their number; and every
    interleaving can be run to that end.  The increment of line 55 reads
    the counter again inside its own segment, so no update is lost.  The
    attempt number a call logs is another matter: [remainingAttempts] is
    taken on entry from the number of requests through by then, and the
    call logs [5 - remainingAttempts] when it is answered, a number between
    1 and the number of requests through, which need not be its own
    rank. *)
Theorem C9_interleaved_failures_all_counted
    (key : string) (l : list attempt) (st : store) :
  ordinary key = true →
  failureCount st key = 0 →
  Forall (fun a => identity a = key ∧ failsb a = true) l →
  Z.of_nat (length l) ≤ MAX_LOGIN_ATTEMPTS →
  overlapping l = true →
  ∀ st' pool',
    rtc step (st, arrivals l) (st', pool') →
    failureCount st' key = Z.of_nat (finished pool') ∧
    (finished pool' = length l → failureCount st' key = Z.of_nat (length l)) ∧
    (∀ i a evs r, pool' !! i = Some (a, Finished evs r) →
       classify r = Rejected ∧
       ∃ n, reported evs = Some n ∧ 1 ≤ n ≤ Z.of_nat (finished pool')) ∧
    (∀ i c'', advance i (st', pool') = Some c'' →
       finished c''.2 = S (finished pool') →
       loginAttempts c''.1 !! key = Some (Z.of_nat (finished pool') + 1)) ∧
    (∀ i a, pool' !! i = Some (a, Arrived) →
       ∃ st'', advance i (st', pool') =
         Some (st'', <[i := (a, Parked [] (AwaitCredentials (email a) (password a) key (clock a)
                                  (MAX_LOGIN_ATTEMPTS - Z.of_nat (finished pool'))))]> pool')) ∧
    (∀ i a evs em pw k now remainingAttempts,
       pool' !! i = Some (a, Parked evs (AwaitCredentials em pw k now remainingAttempts)) →
       ∃ c'' evs' r, advance i (st', pool') = Some c'' ∧
                     c''.2 !! i = Some (a, Finished evs' r) ∧
                     reported evs' = Some (5 - remainingAttempts)) ∧
    (∃ order c'', schedule order (st', pool') = Some c'' ∧
       finished c''.2 = length l ∧ failureCount c''.1 key = Z.of_nat (length l)).
Proof.
  intros _ Hclean Hall Hlen Hover st' pool' Hsteps.
  pose proof (countedSoFar_arrivals key l st Hclean) as H0.
  pose proof (countedSoFar_rtc key l Hall Hlen Hover _ _ H0 Hsteps) as Hc.
  assert (Hnum : Forall (numbered (finished pool')) pool').
  { apply (numbered_rtc key l Hall Hlen Hover (st, arrivals l) (st', pool') H0); [|done].
    simpl. rewrite finished_arrivals. apply numbered_arrivals. }
  pose proof Hc as (Hl & Hcount & Hlast & Hpool). simpl in Hl, Hcount, Hlast, Hpool.
  split; [done|]. split; [by intros <-|]. split; [|split; [|split; [|split]]].
  - intros i a evs r Hi. split; [by apply (Forall_lookup_1 _ _ _ _ Hpool Hi)|].
    by apply (Forall_lookup_1 _ _ _ _ Hnum Hi).
  - intros i c'' Hadv Hfin.
    pose proof (countedSoFar_advance key l Hall Hlen Hover _ _ i Hc Hadv) as (_ & Hcount' & _).
    rewrite Hfin in Hcount'. unfold failureCount in Hcount'.
    destruct (loginAttempts c''.1 !! key) as [n|]; simpl in Hcount'; [|lia].
    f_equal. destruct (Z.eqb_spec n 0); lia.
  - intros i a Hi.
    assert (Ha : a ∈ l).
    { eapply list_elem_of_lookup_2. rewrite <- Hl, list_lookup_fmap, Hi. done. }
    destruct (proj1 (Forall_forall _ _) Hall a Ha) as [Hkey _].
    assert (Hnf : (finished pool' < length pool')%nat)
      by (by eapply (finished_lt_length pool' i (a, Arrived))).
    assert (Hlenp : length pool' = length l) by (by rewrite <- Hl, length_fmap).
    assert (Hlt : failureCount st' (identity a) < MAX_LOGIN_ATTEMPTS) by (rewrite Hkey; lia).
    rewrite advance_eq, Hi, (login_enter_open a st' Hlt), Hkey, Hcount. eauto.
  - intros i a evs em pw k now rem Hi.
    assert (Ha : a ∈ l).
    { eapply list_elem_of_lookup_2. rewrite <- Hl, list_lookup_fmap, Hi. done. }
    destruct (proj1 (Forall_forall _ _) Hall a Ha) as [Hkey Hfail].
    pose proof (Forall_lookup_1 _ _ _ _ Hpool Hi) as Hk. unfold onItsWay in Hk.
    simpl in Hk. destruct Hk as [rem' [= -> -> -> -> ->]].
    pose proof (Forall_lookup_1 _ _ _ _ Hnum Hi) as Hn. unfold numbered in Hn.
    simpl in Hn. destruct Hn as [-> _].
    rewrite advance_eq, Hi. cbn [login_resume]. fold (credentials a).
    unfold failsb in Hfail. destruct (credentials a) as [v|x]; [|done].
    apply negb_true_iff in Hfail. unfold after_credentials. rewrite Hfail. simpl.
    eexists _, _, _. split; [reflexivity|]. simpl.
    rewrite list_lookup_insert_eq by (by eapply lookup_lt_Some). done.
  - destruct (countedSoFar_completes key l Hall Hlen Hover (pending pool') (st', pool') eq_refl Hc)
      as (order & c'' & Hrun & Hsteps' & Hfin).
    exists order, c''. split; [done|]. split; [done|].
    pose proof (countedSoFar_rtc key l Hall Hlen Hover _ _ Hc Hsteps') as (_ & Hcount'' & _).
    by rewrite Hcount'', Hfin.
Qed.

(** No segment of any request makes a counter negative. *)
Lemma advance_nonnegative (i : nat) (st : store) (pool : list task) (c' : config) :
  (∀ k, 0 ≤ failureCount st k) →
  advance i (st, pool) = Some c' →
  ∀ k, 0 ≤ failureCount c'.1 k.
Proof.
  intros Hst Hadv k. rewrite advance_eq in Hadv.
  assert (Hset : ∀ key n, 0 ≤ n → ∀ last,
            0 ≤ failureCount (Store (<[key:=n]> (loginAttempts st)) last) k).
  { intros key n Hn last. unfold failureCount. simpl.
    destruct (decide (key = k)) as [->|Hne].
    - rewrite lookup_insert_eq. simpl. destruct (Z.eqb_spec n 0); lia.
    - rewrite lookup_insert_ne by done. apply Hst. }
  assert (Hdel : ∀ key, 0 ≤ failureCount (deleteAttempts key st) k).
  { intros key. unfold failureCount. simpl.
    destruct (decide (key = k)) as [->|Hne].
    - by rewrite lookup_delete_eq.
    - rewrite lookup_delete_ne by done. apply Hst. }
  destruct (pool !! i) as [[a [|evs w|evs r]]|]; [| |done|done].
  - unfold login_enter in Hadv. cbv zeta in Hadv.
    destruct (_ <=? 0); injection Hadv as <-; simpl;
      (destruct (timedOut _ _); [by apply Hset | apply Hst]).
  - destruct w as [ms key|em pw key now rem]; simpl in Hadv.
    + injection Hadv as <-. apply Hdel.
    + unfold after_credentials in Hadv.
      destruct (checkLoginCredentials a em pw) as [v|x]; [destruct (truthy v)|];
        simpl in Hadv; injection Hadv as <-; simpl.
      * apply Hdel.
      * apply Hset. specialize (Hst key). unfold failureCount in Hst. lia.
      * apply Hst.
Qed.

Lemma rtc_step_nonnegative (c c' : config) :
  (∀ k, 0 ≤ failureCount c.1 k) → rtc step c c' → ∀ k, 0 ≤ failureCount c'.1 k.
Proof.
  intros Hc Hsteps. induction Hsteps as [c|[st pool] c1 c2 [i Hadv] _ IH]; [done|].
  apply IH. by eapply advance_nonnegative.
Qed.

(** ** Counting *)

(** C6, as the code has it.  Let the identities be [ordinary] keys.
    From a counter at zero, fewer than [MAX_LOGIN_ATTEMPTS] failed
    attempts in a row on one identity, none forgiven, leave the counter at
    [k] after the [k]-th.  Whatever requests a server that started empty
    has served one after the other, no counter is negative or above the
    limit, and no counter is negative however the segments of requests in
    flight together interleave; an attempt that finds the counter at the
    limit is not counted: the credential check is not run and the counter
    reads zero afterwards.  (Above the limit nothing is promised for
    requests in flight together: one that entered below the limit is
    counted when its check fails, wherever the counter stands by then.) *)
Theorem C6_failures_are_counted_once
    (key : string) (l : list attempt) (st : store) :
  ordinary key = true →
  failureCount st key = 0 →
  Forall (fun a => identity a = key ∧ failsb a = true) l →
  withinWindow l = true →
  Z.of_nat (length l) < MAX_LOGIN_ATTEMPTS →
  (∀ k : nat, (k ≤ length l)%nat →
     failureCount (serve (take k l) st).1 key = Z.of_nat k) ∧
  (∀ (history : list attempt) (k : string),
     Forall (fun a => ordinary (identity a) = true) history →
     ordinary k = true →
     0 ≤ failureCount (serve history initial).1 k ≤ MAX_LOGIN_ATTEMPTS) ∧
  (∀ (arriving : list attempt) (c : config) (k : string),
     Forall (fun a => ordinary (identity a) = true) arriving →
     ordinary k = true →
     rtc step (initial, arrivals arriving) c → 0 ≤ failureCount c.1 k) ∧
  (∀ (a : attempt) (st' : store),
     MAX_LOGIN_ATTEMPTS ≤ failureCount st' (identity a) →
     failureCount (login a st').1.1 (identity a) = 0 ∧
     ∀ em pw, CheckLoginCredentials em pw ∉ (login a st').1.2).
Proof.
  intros _ Hclean Hall Hwin Hlen. split; [|split; [|split]].
  - intros k Hk.
    destruct (failures_counted key (take k l) st 0) as [Hcount _]; try done.
    + by apply Forall_take.
    + by apply withinWindow_take.
    + intros; by left.
    + rewrite length_take. lia.
    + rewrite Hcount, length_take. lia.
  - intros history k _ _. apply serve_bounded. apply initial_bounded.
  - intros arriving c k _ _ Hsteps.
    apply (rtc_step_nonnegative (initial, arrivals arriving) c); [|done].
    intros k'. apply initial_bounded.
  - intros a st' Hmax. rewrite (login_locked a st' Hmax). simpl.
    split; [apply failureCount_deleteAttempts|].
    intros em pw Hin. apply list_elem_of_In in Hin. simpl in Hin.
    destruct Hin as [?|[?|[]]]; discriminate.
Qed.

(** ** Staleness *)

(** Below the limit a stale record is forgiven before it is counted:
    the call is classified, and leaves the counter, as it would from a
    counter at zero. *)
Lemma stale_below_limit_counts_from_zero (a : attempt) (st clean : store) :
  timedOut (lastLoginAttemptTime st !! identity a) (clock a) = true →
  failureCount st (identity a) < MAX_LOGIN_ATTEMPTS →
  failureCount clean (identity a) = 0 →
  classify (login a st).2 = classify (login a clean).2 ∧
  failureCount (login a st).1.1 (identity a) = failureCount (login a clean).1.1 (identity a).
Proof.
  intros Hstale Hlt Hclean.
  assert (Hf1 : forgiven st (identity a) (clock a) = 0) by (unfold forgiven; by rewrite Hstale).
  assert (Hf2 : forgiven clean (identity a) (clock a) = 0).
  { unfold forgiven. fold (failureCount clean (identity a)). rewrite Hclean.
    by destruct (timedOut (lastLoginAttemptTime clean !! _) _). }
  rewrite !classify_login, !failureCount_after_login, Hf1, Hf2, Hclean.
  destruct (Z.leb_spec MAX_LOGIN_ATTEMPTS (failureCount st (identity a))); [lia|]. done.
Qed.

Import Scenario.

(** C2.  The code at the failing input.  Four wrong passwords bring the
    counter of "bob@x.com" to the limit; forty minutes later the record is
    stale, yet a request with the right password is answered [Locked]
    after the one-minute wait, where a counter at zero would have had it
    [Authenticated]: [attempts] is read on line 25, before the reset of
    line 34, and the lockout test of line 37 uses that earlier reading.
    In the scenario of three failures, the gap, and one more failure, the
    call is rejected and the counter restarts at 1, while the log line,
    built from the same earlier reading, says attempt 4. *)
Theorem C2_lockout_test_uses_the_reading_before_the_reset :
  let st4 := (serve fourFailures initial).1 in
  let late := right (t0 + seconds 30 + minutes 40) in
  let st3 := (serve threeFailures initial).1 in
  let again := wrong (t0 + seconds 20 + minutes 40) in
  failureCount st4 "bob@x.com" = 4 ∧
  timedOut (lastLoginAttemptTime st4 !! "bob@x.com") (clock late) = true ∧
  classify (login late st4).2 = Locked ∧
  delay (login late st4).1.2 = 60000 ∧
  classify (login late initial).2 = Authenticated ∧
  timedOut (lastLoginAttemptTime st3 !! "bob@x.com") (clock again) = true ∧
  classify (login again st3).2 = Rejected ∧
  reported (login again st3).1.2 = Some 4 ∧
  failureCount (login again st3).1.1 "bob@x.com" = 1.
Proof. vm_compute. repeat split; congruence. Qed.

(** C1 fails as stated: the fourth wrong password in a row is answered
    [Rejected], numbered 4, not [Locked], and the attempt that follows
    finds the counter at 4, not at 0. *)
Lemma C1_fourth_failure_is_rejected :
  shown (serve fourFailures initial).2
    = [(Rejected, Some 1); (Rejected, Some 2); (Rejected, Some 3); (Rejected, Some 4)] ∧
  map fst (shown (serve fourFailures initial).2) ≠ [Rejected; Rejected; Rejected; Locked] ∧
  failureCount (serve fourFailures initial).1 "bob@x.com" = 4 ∧
  failureCount (serve fourFailures initial).1 "bob@x.com" ≠ 0.
Proof. vm_compute. repeat split; congruence. Qed.

(** C3 fails as stated: the fifth request of "bob@x.com" after four
    wrong passwords is answered [Locked] and deletes the counter, but the
    time of the fourth failure is still on record: the record is not
    absent. *)
Lemma C3_time_stamp_outlives_lockout :
  let run := serve (fourFailures ++ [wrong (t0 + seconds 40)]) initial in
  map fst (shown run.2) = [Rejected; Rejected; Rejected; Rejected; Locked] ∧
  loginAttempts run.1 !! "bob@x.com" = None ∧
  lastLoginAttemptTime run.1 !! "bob@x.com" = Some (t0 + seconds 30) ∧
  ¬ (loginAttempts run.1 !! "bob@x.com" = None ∧
     lastLoginAttemptTime run.1 !! "bob@x.com" = None).
Proof. vm_compute. repeat split; try congruence. intros [_ H]. congruence. Qed.

(** C4 fails as stated: after two failures and a success the counter of
    "bob@x.com" is gone but the time of the second failure is still on
    record. *)
Lemma C4_time_stamp_outlives_success :
  let run := serve (twoFailures ++ [right (t0 + seconds 20)]) initial in
  map fst (shown run.2) = [Rejected; Rejected; Authenticated] ∧
  loginAttempts run.1 !! "bob@x.com" = None ∧
  lastLoginAttemptTime run.1 !! "bob@x.com" = Some (t0 + seconds 10) ∧
  ¬ (loginAttempts run.1 !! "bob@x.com" = None ∧
     lastLoginAttemptTime run.1 !! "bob@x.com" = None).
Proof. vm_compute. repeat split; try congruence. intros [_ H]. congruence. Qed.

(** C7 fails as stated: when the credential service is rejected for
    want of its database, the call is none of [Authenticated], [Rejected],
    [Locked], and the counter stays at 0, where a wrong password puts it
    at 1. *)
Lemma C7_rejected_check_is_forwarded_uncounted :
  classify (login (outage t0) initial).2 = Forwarded (Foreign (Str "MongoNetworkError")) ∧
  classify (login (outage t0) initial).2 ≠ Authenticated ∧
  classify (login (outage t0) initial).2 ≠ Rejected ∧
  classify (login (outage t0) initial).2 ≠ Locked ∧
  failureCount (login (outage t0) initial).1.1 "bob@x.com" = 0 ∧
  failureCount (login (wrong t0) initial).1.1 "bob@x.com" = 1 ∧
  (login_request (Some (Body Undefined (Str "guess"))) t0 service initial).2
    = Unhandled (Str "TypeError") ∧
  (login_request None t0 service initial).2 = Unhandled (Str "TypeError").
Proof. vm_compute. repeat split; congruence. Qed.

(** The two views of a call agree: a request alone in the pool, run
    through its two segments, is [login]. *)
Lemma schedule_alone (a : attempt) (st : store) :
  schedule [0%nat; 0%nat] (st, arrivals [a]) =
    Some ((login a st).1.1, [(a, Finished (login a st).1.2 (login a st).2)]).
Proof.
  unfold login. rewrite schedule_cons, advance_eq.
  change (arrivals [a] !! 0%nat) with (Some (a, Arrived)). cbv beta iota.
  destruct (login_enter _ _ _ _) as [[st1 evs1] k].
  rewrite schedule_cons, advance_eq.
  change (<[0%nat:=(a, Parked evs1 k)]> (arrivals [a]) !! 0%nat) with (Some (a, Parked evs1 k)).
  cbv beta iota. by destruct (login_resume _ _ _) as [[st2 evs2] r].
Qed.

Lemma schedule_rtc (order : list nat) : ∀ c c' : config,
  schedule order c = Some c' → rtc step c c'.
Proof.
  induction order as [|i order IH]; intros c c' Hrun.
  - injection Hrun as <-. done.
  - rewrite schedule_cons in Hrun. destruct (advance i c) as [c1|] eqn:Hadv; [|done].
    eapply rtc_l; [by exists i | by apply IH].
Qed.

(** C6 fails as stated: of six wrong passwords for "bob@x.com" that
    have all entered before any is answered, the first four bring the
    counter to the limit, and the fifth and the sixth, which passed the
    lockout test on entry, are counted all the same: the counter goes on
    to 5 and to 6, and every one of the six is answered [Rejected]. *)
Lemma C6_requests_in_flight_pass_the_limit :
  let c0 : config := (initial, arrivals Sample.sixAtOnce) in
  let count := fun c : config => failureCount c.1 "bob@x.com" in
  let entered := [0; 1; 2; 3; 4; 5]%nat in
  count <$> schedule (entered ++ [0; 1; 2; 3])%nat c0 = Some MAX_LOGIN_ATTEMPTS ∧
  count <$> schedule (entered ++ [0; 1; 2; 3; 4])%nat c0 = Some (MAX_LOGIN_ATTEMPTS + 1) ∧
  count <$> schedule (entered ++ [0; 1; 2; 3; 4; 5])%nat c0 = Some (MAX_LOGIN_ATTEMPTS + 2) ∧
  answered <$> (snd <$> schedule (entered ++ [0; 1; 2; 3; 4; 5])%nat c0)
    = Some (replicate 6 (Some (Rejected, Some 1))) ∧
  ∃ c, rtc step c0 c ∧ MAX_LOGIN_ATTEMPTS + 1 < failureCount c.1 "bob@x.com".
Proof.
  intros c0 count entered.
  assert (H6 : count <$> schedule (entered ++ [0; 1; 2; 3; 4; 5])%nat c0
               = Some (MAX_LOGIN_ATTEMPTS + 2)) by (vm_compute; reflexivity).
  split; [vm_compute; reflexivity|]. split; [vm_compute; reflexivity|].
  split; [exact H6|]. split; [vm_compute; reflexivity|].
  destruct (schedule (entered ++ [0; 1; 2; 3; 4; 5])%nat c0) as [c|] eqn:Hrun; [|done].
  exists c. split; [by eapply schedule_rtc|].
  simpl in H6. injection H6 as H6. unfold count in H6. rewrite H6. unfold MAX_LOGIN_ATTEMPTS. lia.
Qed.

(** C9 fails as stated: two wrong passwords for "bob@x.com" in flight
    together, both entered before either is answered, are both logged as
    attempt 1, while the counter ends at 2. *)
Lemma C9_concurrent_failures_log_the_same_number :
  (fun c : config => (answered c.2, loginAttempts c.1 !! "bob@x.com"))
    <$> schedule [0; 1; 0; 1]%nat (initial, arrivals twoAtOnce)
  = Some ([Some (Rejected, Some 1); Some (Rejected, Some 1)], Some 2).
Proof. vm_compute. reflexivity. Qed.

(** * Properties of [createTransfer] *)

Import Users.

(** C10.  When both look-ups resolve and either of them resolves with
    [null], [createTransfer] answers [null], yet by then it has called the
    repository's [createTransfer] with the users as found, [null]
    included: the write comes third, before either test of line 143 or
    147, and the store is left as that write left it. *)
Theorem C10_transfer_written_before_the_checks
    {db user : Type} (usersRepository : repository db user)
    (transferId : string) (timestamp : Z) (id toUserId : string) (amount : value)
    (d : db) (fromUser toUser : option user) :
  getUser usersRepository toUserId d = Resolved toUser →
  getUser usersRepository id d = Resolved fromUser →
  toUser = None ∨ fromUser = None →
  createTransfer usersRepository transferId timestamp id toUserId amount d =
    ((repoCreateTransfer usersRepository transferId fromUser toUser amount timestamp d).1,
     [GetUser toUserId; GetUser id;
      CreateTransfer transferId fromUser toUser amount timestamp],
     Null).
Proof.
  intros Hto Hfrom Hmissing. unfold createTransfer. rewrite Hto, Hfrom.
  destruct (repoCreateTransfer _ _ _ _ _ _ _) as [d' [[]|reason]]; simpl; [|done].
  destruct Hmissing as [-> | ->]; [done|]. by destruct toUser.
Qed.

(** * The theorems at concrete requests *)

Ltac by_assumptions := first [assumption | split; [assumption | by_assumptions]].

Ltac each_by_computation :=
  repeat (apply List.Forall_cons; [vm_compute; first [split; congruence | congruence] |]);
  apply List.Forall_nil.

(** The scenario of "bob@x.com": four wrong passwords ten seconds apart,
    then the right one, then a wrong one again. *)
Lemma C1_four_rejections_then_locked_bob :
  (ordinary "bob@x.com" = true ∧
   failureCount initial "bob@x.com" = 0 ∧
   Z.of_nat (length fourFailures) = MAX_LOGIN_ATTEMPTS ∧
   Forall (fun a => identity a = "bob@x.com"%string ∧ failsb a = true) fourFailures ∧
   withinWindow fourFailures = true ∧
   identity (right (t0 + seconds 40)) = "bob@x.com"%string ∧
   identity (wrong (t0 + seconds 50)) = "bob@x.com"%string ∧
   loginAttempts initial !! "bob@x.com"%string = None ∧
   lastLoginAttemptTime initial !! "bob@x.com"%string = None) ∧
  shown (serve fourFailures initial).2
    = [(Rejected, Some 1); (Rejected, Some 2); (Rejected, Some 3); (Rejected, Some 4)] ∧
  classify (login (right (t0 + seconds 40)) (serve fourFailures initial).1).2 = Locked ∧
  failureCount (login (right (t0 + seconds 40)) (serve fourFailures initial).1).1.1 "bob@x.com" = 0.
Proof.
  assert (H0 : ordinary "bob@x.com" = true) by (vm_compute; reflexivity).
  assert (H1 : failureCount initial "bob@x.com" = 0) by (vm_compute; reflexivity).
  assert (H2 : Z.of_nat (length fourFailures) = MAX_LOGIN_ATTEMPTS) by (vm_compute; reflexivity).
  assert (H3 : Forall (fun a => identity a = "bob@x.com"%string ∧ failsb a = true) fourFailures)
    by each_by_computation.
  assert (H4 : withinWindow fourFailures = true) by (vm_compute; reflexivity).
  assert (H5 : identity (right (t0 + seconds 40)) = "bob@x.com"%string) by (vm_compute; reflexivity).
  assert (H6 : identity (wrong (t0 + seconds 50)) = "bob@x.com"%string) by (vm_compute; reflexivity).
  assert (H7 : loginAttempts initial !! "bob@x.com"%string = None) by (vm_compute; reflexivity).
  assert (H8 : lastLoginAttemptTime initial !! "bob@x.com"%string = None) by (vm_compute; reflexivity).
  split; [by_assumptions|].
  destruct (C1_four_rejections_then_locked "bob@x.com" fourFailures
              (right (t0 + seconds 40)) (wrong (t0 + seconds 50)) initial initial
              H0 H1 H2 H3 H4 H5 H6 H7 H8) as (Hshown & _ & Hlocked & _ & Hzero & _).
  by_assumptions.
Defined.

(** The fifth request of "bob@x.com", sent with the right password. *)
Lemma C3_locked_attempt_waits_then_deletes_the_counter_bob :
  MAX_LOGIN_ATTEMPTS ≤ failureCount (serve fourFailures initial).1 (identity (right (t0 + seconds 40))) ∧
  classify (login (right (t0 + seconds 40)) (serve fourFailures initial).1).2 = Locked ∧
  delay (login (right (t0 + seconds 40)) (serve fourFailures initial).1).1.2 = PENALTY_DELAY ∧
  loginAttempts (login (right (t0 + seconds 40)) (serve fourFailures initial).1).1.1
    !! identity (right (t0 + seconds 40)) = None ∧
  lastLoginAttemptTime (login (right (t0 + seconds 40)) (serve fourFailures initial).1).1.1
    = lastLoginAttemptTime (serve fourFailures initial).1.
Proof.
  assert (H : MAX_LOGIN_ATTEMPTS
                ≤ failureCount (serve fourFailures initial).1 (identity (right (t0 + seconds 40))))
    by (vm_compute; congruence).
  split; [exact H|].
  destruct (C3_locked_attempt_waits_then_deletes_the_counter
              (right (t0 + seconds 40)) (serve fourFailures initial).1 H)
    as (st1 & evs1 & _ & _ & _ & _ & st' & evs & r
        & Hlogin & Hlocked & Hdelay & Hnone & _ & Hstamps & _).
  rewrite Hlogin. simpl. by_assumptions.
Defined.

(** A success after two failures. *)
Lemma C4_success_deletes_counter_only_bob :
  classify (login (right (t0 + seconds 20)) (serve twoFailures initial).1).2 = Authenticated ∧
  loginAttempts (login (right (t0 + seconds 20)) (serve twoFailures initial).1).1.1
    !! identity (right (t0 + seconds 20)) = None ∧
  lastLoginAttemptTime (login (right (t0 + seconds 20)) (serve twoFailures initial).1).1.1
    = lastLoginAttemptTime (serve twoFailures initial).1.
Proof.
  assert (H : classify (login (right (t0 + seconds 20)) (serve twoFailures initial).1).2
              = Authenticated) by (vm_compute; reflexivity).
  split; [exact H|].
  destruct (C4_success_deletes_counter_only
              (right (t0 + seconds 20)) (serve twoFailures initial).1 H)
    as (_ & Hnone & Hsame & _).
  by_assumptions.
Defined.


(** Three failures, counted one by one. *)
Lemma C6_failures_are_counted_once_bob :
  (ordinary "bob@x.com" = true ∧
   failureCount initial "bob@x.com" = 0 ∧
   Forall (fun a => identity a = "bob@x.com"%string ∧ failsb a = true) threeFailures ∧
   withinWindow threeFailures = true ∧
   Z.of_nat (length threeFailures) < MAX_LOGIN_ATTEMPTS) ∧
  failureCount (serve (take 1 threeFailures) initial).1 "bob@x.com" = 1 ∧
  failureCount (serve (take 2 threeFailures) initial).1 "bob@x.com" = 2 ∧
  failureCount (serve (take 3 threeFailures) initial).1 "bob@x.com" = 3.
Proof.
  assert (H0 : ordinary "bob@x.com" = true) by (vm_compute; reflexivity).
  assert (H1 : failureCount initial "bob@x.com" = 0) by (vm_compute; reflexivity).
  assert (H2 : Forall (fun a => identity a = "bob@x.com"%string ∧ failsb a = true) threeFailures)
    by each_by_computation.
  assert (H3 : withinWindow threeFailures = true) by (vm_compute; reflexivity).
  assert (H4 : Z.of_nat (length threeFailures) < MAX_LOGIN_ATTEMPTS) by (vm_compute; reflexivity).
  split; [by_assumptions|].
  destruct (C6_failures_are_counted_once "bob@x.com" threeFailures initial H0 H1 H2 H3 H4)
    as (Hcount & _).
  split; [|split].
  - apply (Hcount 1%nat). simpl. lia.
  - apply (Hcount 2%nat). simpl. lia.
  - apply (Hcount 3%nat). simpl. lia.
Defined.

(** A wrong password against a working service, and the right one
    against a service that cannot reach its database. *)
Lemma C7_falsy_answers_count_and_exceptions_pass_bob :
  (failsb (wrong t0) = true ∧
   failureCount initial (identity (wrong t0)) < MAX_LOGIN_ATTEMPTS ∧
   ordinary (identity (wrong t0)) = true ∧
   credentials (outage t0) = Rejects (Str "MongoNetworkError") ∧
   failureCount initial (identity (outage t0)) < MAX_LOGIN_ATTEMPTS ∧
   (∀ em pw, Some (Body (Num 7) (Str "guess")) ≠ Some (Body (Str em) pw))) ∧
  classify (login (wrong t0) initial).2 = Rejected ∧
  loginAttempts (login (wrong t0) initial).1.1 !! identity (wrong t0) = Some 1 ∧
  (login (outage t0) initial).2 = Next (Foreign (Str "MongoNetworkError")) ∧
  login_request (Some (Body (Num 7) (Str "guess"))) t0 service initial
    = (initial, [], Unhandled (Str "TypeError")).
Proof.
  assert (H1 : failsb (wrong t0) = true) by (vm_compute; reflexivity).
  assert (H2 : failureCount initial (identity (wrong t0)) < MAX_LOGIN_ATTEMPTS)
    by (vm_compute; reflexivity).
  assert (H3 : credentials (outage t0) = Rejects (Str "MongoNetworkError"))
    by (vm_compute; reflexivity).
  assert (H4 : failureCount initial (identity (outage t0)) < MAX_LOGIN_ATTEMPTS)
    by (vm_compute; reflexivity).
  assert (H5 : ordinary (identity (wrong t0)) = true) by (vm_compute; reflexivity).
  assert (H6 : ∀ em pw, Some (Body (Num 7) (Str "guess")) ≠ Some (Body (Str em) pw))
    by (intros em pw; discriminate).
  split; [by_assumptions|]. split; [|split; [|split]].
  - destruct (C7_falsy_answers_count_and_exceptions_pass (wrong t0) initial)
      as (st' & evs & r & Hlogin & _ & _ & _ & _ & Hfalsy & _).
    rewrite Hlogin. simpl. exact (proj1 (Hfalsy H1 H2)).
  - destruct (C7_falsy_answers_count_and_exceptions_pass (wrong t0) initial)
      as (st' & evs & r & Hlogin & _ & _ & _ & _ & Hfalsy & _).
    rewrite Hlogin. simpl. exact (proj1 (proj2 (Hfalsy H1 H2)) H5).
  - destruct (C7_falsy_answers_count_and_exceptions_pass (outage t0) initial)
      as (st' & evs & r & Hlogin & _ & _ & _ & _ & _ & Hthrown).
    rewrite Hlogin. simpl. exact (proj1 (Hthrown _ H3 H4)).
  - destruct (C7_falsy_answers_count_and_exceptions_pass (wrong t0) initial)
      as (st' & evs & r & _ & _ & Hraise & _).
    exact (Hraise _ t0 service H6).
Defined.

(** The fifth request of "bob@x.com", sent with a wrong password. *)
Lemma C8_locked_outcome_pays_the_penalty_bob :
  MAX_LOGIN_ATTEMPTS ≤ failureCount (serve fourFailures initial).1 (identity (wrong (t0 + seconds 40))) ∧
  classify (login (wrong (t0 + seconds 40)) (serve fourFailures initial).1).2 = Locked ∧
  delay (login (wrong (t0 + seconds 40)) (serve fourFailures initial).1).1.2 = 60000.
Proof.
  assert (H : MAX_LOGIN_ATTEMPTS
                ≤ failureCount (serve fourFailures initial).1 (identity (wrong (t0 + seconds 40))))
    by (vm_compute; congruence).
  split; [exact H|].
  destruct (C8_locked_outcome_pays_the_penalty
              (wrong (t0 + seconds 40)) (serve fourFailures initial).1)
    as (st' & evs & r & Hlogin & Hiff & Hpays & _).
  rewrite Hlogin. simpl.
  pose proof (proj1 Hiff H) as Hlocked. split; [exact Hlocked|].
  destruct (Hpays Hlocked) as (H60 & Hdelay & _). by rewrite Hdelay.
Defined.

(** Two failing requests in flight together: the first enters, the
    second enters and is rejected, then the first is rejected. *)
Lemma C9_interleaved_failures_all_counted_bob :
  (ordinary "bob@x.com" = true ∧
   failureCount initial "bob@x.com" = 0 ∧
   Forall (fun a => identity a = "bob@x.com"%string ∧ failsb a = true) twoAtOnce ∧
   Z.of_nat (length twoAtOnce) ≤ MAX_LOGIN_ATTEMPTS ∧
   overlapping twoAtOnce = true) ∧
  ∃ c, schedule [0; 1; 1; 0]%nat (initial, arrivals twoAtOnce) = Some c ∧
       finished c.2 = 2%nat ∧
       failureCount c.1 "bob@x.com" = 2.
Proof.
  assert (H0 : ordinary "bob@x.com" = true) by (vm_compute; reflexivity).
  assert (H1 : failureCount initial "bob@x.com" = 0) by (vm_compute; reflexivity).
  assert (H2 : Forall (fun a => identity a = "bob@x.com"%string ∧ failsb a = true) twoAtOnce)
    by each_by_computation.
  assert (H3 : Z.of_nat (length twoAtOnce) ≤ MAX_LOGIN_ATTEMPTS) by (vm_compute; congruence).
  assert (H4 : overlapping twoAtOnce = true) by (vm_compute; reflexivity).
  split; [by_assumptions|].
  destruct (schedule [0; 1; 1; 0]%nat (initial, arrivals twoAtOnce)) as [[st' pool']|] eqn:Hrun.
  - assert (Hfin : finished pool' = 2%nat).
    { assert (Hf : (fun c : config => finished c.2) <$> schedule [0; 1; 1; 0]%nat (initial, arrivals twoAtOnce)
                   = Some 2%nat) by (vm_compute; reflexivity).
      rewrite Hrun in Hf. simpl in Hf. congruence. }
    exists (st', pool'). split; [reflexivity|]. split; [exact Hfin|]. simpl.
    destruct (C9_interleaved_failures_all_counted "bob@x.com" twoAtOnce initial H0 H1 H2 H3 H4
                st' pool' (schedule_rtc _ _ _ Hrun)) as (Hcount & _).
    rewrite Hcount, Hfin. reflexivity.
  - exfalso.
    assert (Hs : is_Some (schedule [0; 1; 1; 0]%nat (initial, arrivals twoAtOnce)))
      by (vm_compute; eauto).
    rewrite Hrun in Hs. by destruct Hs.
Defined.

(** A transfer from an existing account to one that does not exist. *)
Lemma C10_transfer_written_before_the_checks_ledger :
  (getUser memoryRepository "nobody" ledger = Resolved None ∧
   getUser memoryRepository "u1" ledger = Resolved (Some alice) ∧
   ((None : option userDoc) = None ∨ Some alice = None)) ∧
  (createTransfer memoryRepository "k3j2h1" t0 "u1" "nobody" (Num 100) ledger).2 = Null ∧
  transfers (createTransfer memoryRepository "k3j2h1" t0 "u1" "nobody" (Num 100) ledger).1.1
    = [TransferDoc "k3j2h1" (Some alice) None (Num 100) t0].
Proof.
  assert (H1 : getUser memoryRepository "nobody" ledger = Resolved None)
    by (vm_compute; reflexivity).
  assert (H2 : getUser memoryRepository "u1" ledger = Resolved (Some alice))
    by (vm_compute; reflexivity).
  assert (H3 : (None : option userDoc) = None ∨ Some alice = None) by (left; reflexivity).
  split; [by_assumptions|].
  rewrite (C10_transfer_written_before_the_checks memoryRepository
             "k3j2h1" t0 "u1" "nobody" (Num 100) ledger (Some alice) None H1 H2 H3).
  split; reflexivity.
Defined.

(** * Properties of the users service *)

Import Text.

(** ** Strings and arrays *)

Lemma lower_ascii_idempotent (c : ascii) : lower_ascii (lower_ascii c) = lower_ascii c.
Proof.
  destruct c as [[] [] [] [] [] [] [] []]; vm_compute; reflexivity.
Qed.

Lemma toLowerCase_idempotent (s : string) : toLowerCase (toLowerCase s) = toLowerCase s.
Proof. induction s as [|c s IH]; simpl; [done|]. by rewrite lower_ascii_idempotent, IH. Qed.

Lemma toLowerCase_app (s1 s2 : string) :
  toLowerCase (s1 ++ s2) = (toLowerCase s1 ++ toLowerCase s2)%string.
Proof. induction s1 as [|c s1 IH]; simpl; [done|]. by rewrite IH. Qed.

Lemma includes_empty (s : string) : includes "" s = true.
Proof. by destruct s. Qed.

Lemma includes_cons (sub : string) (c : ascii) (s : string) :
  includes sub (String c s) = String.prefix sub (String c s) || includes sub s.
Proof. reflexivity. Qed.

Lemma prefix_one (a c : ascii) (s : string) :
  String.prefix (String a EmptyString) (String c s) = bool_decide (a = c).
Proof.
  change (String.prefix (String a EmptyString) (String c s))
    with (if Ascii.ascii_dec a c then String.prefix EmptyString s else false).
  destruct (Ascii.ascii_dec a c); case_bool_decide; try done. by destruct s.
Qed.

Lemma split_cons (sep c : ascii) (s : string) :
  split sep (String c s) =
    if Ascii.eqb c sep then EmptyString :: split sep s
    else match split sep s with
         | p :: ps => String c p :: ps
         | [] => [String c EmptyString]
         end.
Proof. reflexivity. Qed.

Lemma split_never_empty (sep : ascii) (s : string) : split sep s ≠ [].
Proof.
  induction s as [|c s IH]; [done|]. rewrite split_cons.
  destruct (Ascii.eqb c sep); [done|]. by destruct (split sep s).
Qed.

(** A string with a colon splits into two parts at least. *)
Lemma split_colon_two (s : string) :
  includes ":" s = true → ∃ field term rest, split ":" s = field :: term :: rest.
Proof.
  induction s as [|c s IH]; [done|]. rewrite includes_cons, prefix_one, split_cons.
  destruct (Ascii.eqb_spec c ":") as [->|Hc].
  - intros _. pose proof (split_never_empty ":" s).
    destruct (split ":" s) as [|p ps]; [done|]. by eexists _, _, _.
  - rewrite bool_decide_false by congruence. simpl. intros H.
    destruct (IH H) as (field & term & rest & ->). by eexists _, _, _.
Qed.

(** Splitting at the first separator. *)
Lemma split_app (sep : ascii) (s1 s2 : string) :
  includes (String sep EmptyString) s1 = false →
  split sep (s1 ++ String sep s2) = s1 :: split sep s2.
Proof.
  induction s1 as [|c s1 IH].
  - intros _. change (EmptyString +:+ String sep s2) with (String sep s2).
    by rewrite split_cons, Ascii.eqb_refl.
  - rewrite includes_cons, prefix_one. intros H. apply orb_false_iff in H as [Hpre Hrest].
    apply bool_decide_eq_false in Hpre.
    change (String c s1 +:+ String sep s2) with (String c (s1 +:+ String sep s2)).
    rewrite split_cons, (IH Hrest).
    by destruct (Ascii.eqb_spec c sep); [congruence|].
Qed.

Lemma relativeIndex_inside (len i : Z) : 0 ≤ i → relativeIndex len i = Z.min i len.
Proof. intros Hi. unfold relativeIndex. by destruct (Z.ltb_spec i 0); [lia|]. Qed.

Lemma slice_all {A : Type} (l : list A) : slice l 0 (Z.of_nat (length l)) = l.
Proof.
  unfold slice. rewrite !relativeIndex_inside by lia.
  replace (Z.to_nat (Z.min 0 (Z.of_nat (length l)))) with O by lia.
  rewrite drop_0. apply take_ge. lia.
Qed.

Lemma slice_length_le {A : Type} (l : list A) (first last n : Z) :
  0 ≤ n → last ≤ first + n → (0 ≤ first → 0 ≤ last) →
  Z.of_nat (length (slice l first last)) ≤ n.
Proof.
  intros Hn Hlast Hsign. unfold slice, relativeIndex. rewrite length_take, length_drop.
  destruct (Z.ltb_spec first 0), (Z.ltb_spec last 0); lia.
Qed.

Lemma slice_nil {A : Type} (l : list A) (first last : Z) :
  relativeIndex (Z.of_nat (length l)) last ≤ relativeIndex (Z.of_nat (length l)) first →
  slice l first last = [].
Proof.
  intros H. unfold slice.
  replace (Z.to_nat (relativeIndex (Z.of_nat (length l)) last
                     - relativeIndex (Z.of_nat (length l)) first)) with O by lia.
  done.
Qed.

(** A slice is a run of consecutive elements. *)
Lemma slice_segment {A : Type} (l : list A) (first last : Z) :
  ∃ i j : nat, slice l first last = take j (drop i l).
Proof. unfold slice. by eexists _, _. Qed.

(** The page [p] of size [n], for [p] from 1 on. *)
Lemma slice_page {A : Type} (l : list A) (p n : Z) :
  1 ≤ p → 0 < n →
  slice l ((p - 1) * n) (Z.min ((p - 1) * n + n) (Z.of_nat (length l)))
  = take (Z.to_nat n) (drop (Z.to_nat ((p - 1) * n)) l).
Proof.
  intros Hp Hn. unfold slice. rewrite !relativeIndex_inside by nia.
  set (len := Z.of_nat (length l)). set (s := (p - 1) * n).
  assert (0 ≤ s) by (unfold s; nia).
  destruct (Z.le_gt_cases len s) as [Hout|Hin].
  - rewrite !drop_ge by lia. by rewrite !take_nil.
  - replace (Z.min s len) with s by lia.
    destruct (Z.le_gt_cases (s + n) len) as [Hfull|Hpart].
    + f_equal. lia.
    + rewrite !take_ge; [done | rewrite length_drop; lia | rewrite length_drop; lia].
Qed.

Lemma pages_concat {A : Type} (l : list A) (m : nat) : ∀ N : nat,
  concat (map (fun i : nat => take m (drop (i * m) l)) (seq 0 N)) = take (N * m) l.
Proof.
  induction N as [|N IH]; [done|].
  rewrite seq_S, map_app, concat_app, IH. simpl. rewrite app_nil_r.
  replace (m + N * m)%nat with (N * m + m)%nat by lia.
  by rewrite take_take_drop.
Qed.

Lemma ceilDiv_gt (a n p : Z) : 0 < n → p < ceilDiv a n ↔ p * n < a.
Proof.
  intros Hn. unfold ceilDiv.
  pose proof (Z.mul_div_le (- a) n Hn). pose proof (Z.mul_succ_div_gt (- a) n Hn). nia.
Qed.

Lemma ceilDiv_same (a : Z) : 0 < a → ceilDiv a a = 1.
Proof.
  intros Ha. unfold ceilDiv.
  pose proof (Z.mul_div_le (- a) a Ha). pose proof (Z.mul_succ_div_gt (- a) a Ha). nia.
Qed.

Lemma insertSorted_permutation {A : Type} (f : A → A → Z) (x : A) (l : list A) :
  insertSorted f x l ≡ₚ x :: l.
Proof.
  induction l as [|y l IH]; simpl; [done|].
  destruct (f x y <=? 0); [done|]. rewrite IH. apply Permutation_swap.
Qed.

Lemma sort_permutation {A : Type} (f : A → A → Z) (l : list A) : sort f l ≡ₚ l.
Proof.
  induction l as [|x l IH]; simpl; [done|]. by rewrite insertSorted_permutation, IH.
Qed.

(** A comparison that never says "greater" leaves the array as it is. *)
Lemma sort_indifferent {A : Type} (f : A → A → Z) (l : list A) :
  (∀ a b, f a b ≤ 0) → sort f l = l.
Proof.
  intros Hf. induction l as [|x l IH]; simpl; [done|]. rewrite IH.
  destruct l as [|y l]; simpl; [done|].
  by destruct (Z.leb_spec (f x y) 0); [|specialize (Hf x y); lia].
Qed.

Lemma insertSorted_sorted {A : Type} (f : A → A → Z) (x : A) (l : list A) :
  (∀ a b, 0 < f a b → f b a ≤ 0) →
  Sorted (fun a b => f a b ≤ 0) l → Sorted (fun a b => f a b ≤ 0) (insertSorted f x l).
Proof.
  intros Hf Hl. induction Hl as [|y l Hl IH Hhd]; simpl.
  - by repeat constructor.
  - destruct (Z.leb_spec (f x y) 0) as [Hle|Hgt].
    + constructor; [by constructor | by constructor].
    + constructor; [done|].
      destruct Hhd as [|z l Hyz]; simpl.
      * constructor. by apply Hf.
      * destruct (f x z <=? 0); constructor; [by apply Hf | done].
Qed.

Lemma sort_sorted {A : Type} (f : A → A → Z) (l : list A) :
  (∀ a b, 0 < f a b → f b a ≤ 0) → Sorted (fun a b => f a b ≤ 0) (sort f l).
Proof.
  intros Hf. induction l as [|x l IH]; simpl; [constructor|].
  by apply insertSorted_sorted.
Qed.

Lemma Sorted_segment {A : Type} (R : A → A → Prop) (l : list A) (i j : nat) :
  Sorted R l → Sorted R (take j (drop i l)).
Proof.
  intros Hl.
  assert (Hdrop : ∀ (l : list A) i, Sorted R l → Sorted R (drop i l)).
  { clear. intros l i Hl. revert i. induction Hl as [|x l Hl IH Hhd]; intros [|i]; simpl;
      [constructor | constructor | by constructor | apply IH]. }
  assert (Htake : ∀ (l : list A) j, Sorted R l → Sorted R (take j l)).
  { clear. intros l j Hl. revert j. induction Hl as [|x l Hl IH Hhd]; intros [|j]; simpl;
      [constructor | constructor | constructor |].
    constructor; [apply IH|]. destruct Hhd; destruct j; simpl; by constructor. }
  by apply Htake, Hdrop.
Qed.

(** ** Listing users *)

Import Service.

Lemma ltb_bool_decide (a b : Z) : (a <? b) = bool_decide (a < b).
Proof. destruct (Z.ltb_spec a b); case_bool_decide; first [done | lia]. Qed.

Section ListingFacts.

Context {db : Type} (env : collaborators db).

Variables (users : list user) (search : string) (sort : option string).

Local Abbreviation chosen :=
  (sortedUsers env sort (filter (fun u => matches search u = true) users)).

(** Without a limit, or with limit 0, every page is the whole
    selection. *)
Lemma listUsers_unlimited (page : Z) (limit : option Z) :
  limit = None ∨ limit = Some 0 →
  results (listUsers env users page limit search sort) = map view chosen.
Proof.
  intros [-> | ->]; unfold listUsers; cbv zeta; simpl; rewrite ?Z.mul_0_r; by rewrite slice_all.
Qed.

(** With a limit [n > 0], page [p >= 1] is the [p]-th run of [n]. *)
Lemma listUsers_page (page n : Z) :
  1 ≤ page → 0 < n →
  results (listUsers env users page (Some n) search sort)
  = map view (take (Z.to_nat n) (drop (Z.to_nat ((page - 1) * n)) chosen)).
Proof.
  intros Hp Hn. assert (Hn0 : (n =? 0) = false) by (apply Z.eqb_neq; lia).
  unfold listUsers; cbv zeta; simpl. rewrite !Hn0. simpl. by rewrite slice_page.
Qed.

Lemma listUsers_total_pages (page n : Z) :
  0 < n →
  total_pages (pagination (listUsers env users page (Some n) search sort))
  = Some (ceilDiv (Z.of_nat (length chosen)) n).
Proof.
  intros Hn. assert (Hn0 : (n =? 0) = false) by (apply Z.eqb_neq; lia).
  unfold listUsers; cbv zeta; simpl. by rewrite !Hn0.
Qed.

Lemma listUsers_has_next_page (page n : Z) :
  0 < n →
  has_next_page (pagination (listUsers env users page (Some n) search sort))
  = bool_decide (page < ceilDiv (Z.of_nat (length chosen)) n).
Proof.
  intros Hn. assert (Hn0 : (n =? 0) = false) by (apply Z.eqb_neq; lia).
  unfold listUsers; cbv zeta; simpl. rewrite !Hn0. apply ltb_bool_decide.
Qed.

End ListingFacts.

(** X1.  Without a limit ([undefined] or 0) the page number selects
    nothing: every page carries the whole selection, in the same order;
    [count] is its size, [total_pages] is 1 (and [NaN] when nobody is
    selected), and [has_next_page] is true only for a page number below
    1. *)
Theorem listUsers_without_limit {db : Type} (env : collaborators db)
    (users : list user) (page page' : Z) (limit : option Z)
    (search : string) (sort : option string) :
  limit = None ∨ limit = Some 0 →
  let all := listUsers env users page limit search sort in
  results all = results (listUsers env users page' None search sort) ∧
  count (pagination all) = Z.of_nat (length (results all)) ∧
  total_pages (pagination all) = (if decide (results all = []) then None else Some 1) ∧
  has_previous_page (pagination all) = bool_decide (1 < page) ∧
  has_next_page (pagination all) = bool_decide (results all ≠ [] ∧ page < 1).
Proof.
  intros Hlimit all. unfold all.
  rewrite !(listUsers_unlimited env users search sort) by auto.
  set (chosen := sortedUsers env sort _).
  assert (Hshape : ∀ limit, limit = None ∨ limit = Some 0 →
    pagination (listUsers env users page limit search sort) =
      PaginationInfo page limit (Z.of_nat (length chosen))
        (if Z.of_nat (length chosen) =? 0 then None else Some (ceilDiv (Z.of_nat (length chosen)) (Z.of_nat (length chosen))))
        (1 <? page)
        (match (if Z.of_nat (length chosen) =? 0 then None else Some (ceilDiv (Z.of_nat (length chosen)) (Z.of_nat (length chosen)))) with
         | Some t => page <? t | None => false end)).
  { intros ? [-> | ->]; unfold listUsers; cbv zeta; simpl; fold chosen;
      rewrite ?Z.mul_0_r; by rewrite slice_all. }
  rewrite (Hshape limit Hlimit).
  cbn [count total_pages has_previous_page has_next_page]. rewrite length_map.
  split; [done|]. split; [done|].
  destruct chosen as [|u chosen'] eqn:Hchosen.
  - cbn [length map]. change (Z.of_nat 0 =? 0) with true. cbv iota.
    split; [done|]. split; [apply ltb_bool_decide|].
    rewrite bool_decide_false; [done | intros [? _]; done].
  - destruct (Z.eqb_spec (Z.of_nat (length (u :: chosen'))) 0) as [H0|Hn0]; [simpl in H0; lia|].
    rewrite ceilDiv_same by (simpl; lia).
    split; [by rewrite decide_False|]. split; [apply ltb_bool_decide|].
    rewrite ltb_bool_decide. apply bool_decide_ext. split; [by split | by intros [_ ?]].
Qed.

(** X2.  With a limit [n > 0], the pages 1 to [total_pages], one after
    the other, are exactly the unlimited listing: nobody selected is left
    out, repeated or moved. *)
Theorem listUsers_pages_cover {db : Type} (env : collaborators db)
    (users : list user) (n page : Z) (search : string) (sort : option string) (N : Z) :
  0 < n →
  total_pages (pagination (listUsers env users page (Some n) search sort)) = Some N →
  concat (map (fun p : nat => results (listUsers env users (Z.of_nat p) (Some n) search sort))
              (seq 1 (Z.to_nat N)))
  = results (listUsers env users page None search sort).
Proof.
  intros Hn Htotal. rewrite listUsers_total_pages in Htotal by done.
  injection Htotal as <-.
  rewrite (listUsers_unlimited env users search sort) by auto.
  set (chosen := sortedUsers env sort _).
  set (N := Z.to_nat (ceilDiv (Z.of_nat (length chosen)) n)).
  assert (Hpages : ∀ k : nat,
    map (fun p : nat => results (listUsers env users (Z.of_nat p) (Some n) search sort)) (seq 1 k)
    = map (fun i : nat => map view (take (Z.to_nat n) (drop (i * Z.to_nat n) chosen))) (seq 0 k)).
  { intros k. rewrite <- (fmap_S_seq 0 k). rewrite <- list_fmap_compose.
    apply map_ext. intros i. unfold compose.
    rewrite (listUsers_page env users search sort) by lia. fold chosen.
    do 3 f_equal. rewrite Z2Nat.inj_mul by lia. f_equal. lia. }
  rewrite Hpages.
  assert (Hmap : ∀ k : nat,
    concat (map (fun i : nat => map view (take (Z.to_nat n) (drop (i * Z.to_nat n) chosen))) (seq 0 k))
    = map view (take (k * Z.to_nat n) chosen)).
  { intros k. rewrite <- pages_concat. rewrite concat_map, map_map. done. }
  rewrite Hmap. f_equal. apply take_ge. unfold N.
  destruct (Z.le_gt_cases (Z.of_nat (length chosen)) 0) as [Hz|Hpos]; [lia|].
  assert (H1 : ¬ (ceilDiv (Z.of_nat (length chosen)) n < ceilDiv (Z.of_nat (length chosen)) n)) by lia.
  rewrite (ceilDiv_gt _ n _ Hn) in H1.
  assert (H0 : 0 < ceilDiv (Z.of_nat (length chosen)) n) by (apply ceilDiv_gt; lia).
  nia.
Qed.

(** X3.  With a limit [n > 0]: a page never has more than [n] entries
    and [count] is their number; the pages 1 to [total_pages] are not
    empty, page 0 and the pages after [total_pages] are; and from page 1
    on, [has_next_page] says exactly whether the next page has
    anybody. *)
Theorem listUsers_page_bounds {db : Type} (env : collaborators db)
    (users : list user) (n page : Z) (search : string) (sort : option string) (N : Z) :
  0 < n →
  total_pages (pagination (listUsers env users page (Some n) search sort)) = Some N →
  let this := listUsers env users page (Some n) search sort in
  let next := listUsers env users (page + 1) (Some n) search sort in
  count (pagination this) = Z.of_nat (length (results this)) ∧
  count (pagination this) ≤ n ∧
  (1 ≤ page ≤ N → results this ≠ []) ∧
  (page = 0 ∨ N < page → results this = []) ∧
  (1 ≤ page < N → count (pagination this) = n) ∧
  (1 ≤ page → has_next_page (pagination this) = bool_decide (results next ≠ [])).
Proof.
  intros Hn Htotal this next. rewrite listUsers_total_pages in Htotal by done.
  assert (Hn0 : (n =? 0) = false) by (apply Z.eqb_neq; lia).
  injection Htotal as <-.
  set (chosen := sortedUsers env sort (filter (fun u => matches search u = true) users)).
  set (len := Z.of_nat (length chosen)).
  assert (Hlen : 0 ≤ len) by (unfold len; lia).
  assert (Hgt := fun p => ceilDiv_gt len n p Hn).
  assert (Hpage : ∀ p, 1 ≤ p →
     Z.of_nat (length (results (listUsers env users p (Some n) search sort)))
     = Z.max 0 (Z.min n (len - (p - 1) * n))).
  { intros p Hp. rewrite (listUsers_page env users search sort) by done. fold chosen.
    rewrite length_map, length_take, length_drop. fold len. unfold len. nia. }
  assert (Hcount : count (pagination this) = Z.of_nat (length (results this))).
  { unfold this, listUsers; cbv zeta; simpl. by rewrite length_map. }
  split; [done|]. split; [|split; [|split; [|split]]].
  - rewrite Hcount. unfold this, listUsers; cbv zeta; simpl.
    rewrite !Hn0. simpl. rewrite length_map. fold chosen.
    apply slice_length_le; lia.
  - intros [Hp HN] Hnil. specialize (Hpage page Hp). fold this in Hpage.
    rewrite Hnil in Hpage. simpl in Hpage.
    assert (page - 1 < ceilDiv len n) by lia. apply Hgt in H. lia.
  - intros [-> | Hafter].
    + unfold this, listUsers; cbv zeta; simpl.
      rewrite !Hn0. simpl. fold chosen.
      rewrite slice_nil; [done|]. unfold relativeIndex.
      repeat match goal with |- context [?a <? ?b] => destruct (Z.ltb_spec a b) end; lia.
    + destruct (Z.le_gt_cases 1 page) as [Hp|Hp].
      * specialize (Hpage page Hp). fold this in Hpage.
        assert (Hno : ¬ (page - 1 < ceilDiv len n)) by lia. rewrite Hgt in Hno.
        destruct (results this); [done | simpl in Hpage; lia].
      * assert (0 < ceilDiv len n ∨ ceilDiv len n ≤ 0) as [H0|H0] by lia.
        { lia. }
        assert (Hz : ¬ (0 < ceilDiv len n)) by lia. rewrite Hgt in Hz.
        assert (Hempty : chosen = []) by (destruct chosen; [done | unfold len in *; simpl in *; lia]).
        unfold this, listUsers; cbv zeta; simpl. fold chosen. rewrite Hempty.
        rewrite slice_nil; [done|]. unfold relativeIndex. simpl length.
        repeat match goal with |- context [?a <? ?b] => destruct (Z.ltb_spec a b) end; lia.
  - intros [Hp HN]. rewrite Hcount. specialize (Hpage page Hp). fold this in Hpage.
    apply Hgt in HN. lia.
  - intros Hp.
    assert (Hnext := Hpage (page + 1) ltac:(lia)). fold next in Hnext.
    unfold this. rewrite (listUsers_has_next_page env users search sort) by done.
    fold chosen. fold len. apply bool_decide_ext. rewrite Hgt. split.
    + intros Hlt Hnil. rewrite Hnil in Hnext. simpl in Hnext. lia.
    + intros Hnn. destruct (results next); [done | simpl in Hnext; lia].
Qed.

(** ** Searching *)

Lemma lower_ascii_colon (c : ascii) : lower_ascii c = ":"%char ↔ c = ":"%char.
Proof.
  split; [|by intros ->].
  destruct c as [[] [] [] [] [] [] [] []]; vm_compute; congruence.
Qed.

Lemma includes_colon_lower (s : string) : includes ":" (toLowerCase s) = includes ":" s.
Proof.
  induction s as [|c s IH]; [done|].
  change (toLowerCase (String c s)) with (String (lower_ascii c) (toLowerCase s)).
  rewrite !includes_cons, !prefix_one, IH. f_equal.
  apply bool_decide_ext. split; intros H.
  - symmetry. apply lower_ascii_colon. done.
  - by rewrite <- H.
Qed.

Lemma includes_colon_app (s1 s2 : string) : includes ":" (s1 +:+ String ":" s2) = true.
Proof.
  induction s1 as [|c s1 IH].
  - change (EmptyString +:+ String ":" s2) with (String ":" s2).
    rewrite includes_cons, prefix_one. by rewrite bool_decide_true.
  - change (String c s1 +:+ String ":" s2) with (String c (s1 +:+ String ":" s2)).
    rewrite includes_cons, IH. apply orb_true_r.
Qed.

(** How a search text with a colon is read: the field is what stands
    before the first colon, the term what stands between the first and
    the second. *)
Lemma matches_field (field rest : string) (u : user) :
  includes ":" field = false →
  matches (field +:+ String ":" rest) u =
    let term := hd EmptyString (split ":" (toLowerCase rest)) in
    if String.eqb (toLowerCase field) "email" then includes term (toLowerCase (user_email u))
    else if String.eqb (toLowerCase field) "name" then includes term (toLowerCase (user_name u))
    else false.
Proof.
  intros Hfield. unfold matches. cbv zeta.
  rewrite toLowerCase_app.
  change (toLowerCase (String ":" rest)) with (String ":" (toLowerCase rest)).
  rewrite includes_colon_app, split_app by (by rewrite includes_colon_lower).
  pose proof (split_never_empty ":" (toLowerCase rest)).
  by destruct (split ":" (toLowerCase rest)).
Qed.

Lemma matches_lower (search : string) (u : user) :
  matches (toLowerCase search) u = matches search u.
Proof. unfold matches. by rewrite toLowerCase_idempotent. Qed.

Lemma matches_everybody (u : user) : matches "" u = true.
Proof. unfold matches. simpl. by rewrite includes_empty. Qed.

Lemma filter_all {A : Type} (P : A → Prop) `{∀ x, Decision (P x)} (l : list A) :
  (∀ x, P x) → filter P l = l.
Proof.
  intros HP. induction l as [|x l IH]; [done|].
  rewrite filter_cons_True by done. by rewrite IH.
Qed.

Lemma filter_none {A : Type} (P : A → Prop) `{∀ x, Decision (P x)} (l : list A) :
  (∀ x, ¬ P x) → filter P l = [].
Proof.
  intros HP. induction l as [|x l IH]; [done|].
  rewrite filter_cons_False by done. done.
Qed.

(** X4.  The case of the letters of the search text does not matter:
    two texts that agree once lower-cased give the same answer. *)
Theorem listUsers_search_ignores_case {db : Type} (env : collaborators db)
    (users : list user) (page : Z) (limit : option Z)
    (search search' : string) (sort : option string) :
  toLowerCase search = toLowerCase search' →
  listUsers env users page limit search sort = listUsers env users page limit search' sort.
Proof.
  intros Hsame. unfold listUsers. cbv zeta.
  assert (Hfilter : filter (fun u => matches search u = true) users
                    = filter (fun u => matches search' u = true) users).
  { apply list_filter_iff. intros u.
    by rewrite <- (matches_lower search), <- (matches_lower search'), Hsame. }
  by rewrite Hfilter.
Qed.

(** X5.  A search text with a colon whose part before the first colon
    is neither "email" nor "name" (in any case of letters) selects nobody,
    whatever the page, the limit and the sort key. *)
Theorem listUsers_unknown_field_selects_nobody {db : Type} (env : collaborators db)
    (users : list user) (page : Z) (limit : option Z)
    (field rest : string) (sort : option string) :
  includes ":" field = false →
  toLowerCase field ≠ "email"%string →
  toLowerCase field ≠ "name"%string →
  results (listUsers env users page limit (field +:+ String ":" rest) sort) = [] ∧
  count (pagination (listUsers env users page limit (field +:+ String ":" rest) sort)) = 0.
Proof.
  intros Hfield Hemail Hname.
  assert (Hnone : filter (fun u => matches (field +:+ String ":" rest) u = true) users = []).
  { apply filter_none. intros u. rewrite matches_field by done. cbv zeta.
    destruct (String.eqb_spec (toLowerCase field) "email"); [done|].
    destruct (String.eqb_spec (toLowerCase field) "name"); [done|]. done. }
  assert (Hsorted : sortedUsers env sort [] = []).
  { destruct sort as [key|]; [|done]. unfold sortedUsers. by destruct (String.eqb key ""). }
  unfold listUsers. cbv zeta. rewrite Hnone, Hsorted.
  cbn [results pagination count].
  assert (Hslice : ∀ a b, slice (@nil user) a b = []).
  { intros a b. unfold slice. by rewrite drop_nil, take_nil. }
  by rewrite Hslice.
Qed.

(** X6.  What follows a second colon in a search text of ASCII
    characters is not read: "name:an:x" selects the same users as
    "name:an". *)
Theorem listUsers_search_reads_two_parts {db : Type} (env : collaborators db)
    (users : list user) (page : Z) (limit : option Z)
    (field term rest : string) (sort : option string) :
  isAscii (field +:+ String ":" (term +:+ String ":" rest)) = true →
  includes ":" field = false →
  includes ":" term = false →
  listUsers env users page limit (field +:+ String ":" (term +:+ String ":" rest)) sort
  = listUsers env users page limit (field +:+ String ":" term) sort.
Proof.
  intros _ Hfield Hterm. unfold listUsers. cbv zeta.
  assert (Hfilter :
    filter (fun u => matches (field +:+ String ":" (term +:+ String ":" rest)) u = true) users
    = filter (fun u => matches (field +:+ String ":" term) u = true) users).
  { apply list_filter_iff. intros u. rewrite !matches_field by done. cbv zeta.
    rewrite toLowerCase_app.
    change (toLowerCase (String ":" rest)) with (String ":" (toLowerCase rest)).
    rewrite split_app by (by rewrite includes_colon_lower).
    assert (Hone : split ":" (toLowerCase term) = [toLowerCase term]).
    { clear -Hterm. rewrite <- includes_colon_lower in Hterm.
      induction (toLowerCase term) as [|c s IH]; [done|].
      rewrite includes_cons, prefix_one in Hterm. apply orb_false_iff in Hterm as [Hc Hs].
      apply bool_decide_eq_false in Hc. rewrite split_cons, (IH Hs).
      by destruct (Ascii.eqb_spec c ":"); [congruence|]. }
    by rewrite Hone. }
  by rewrite Hfilter.
Qed.

(** ** Sorting *)

Lemma split_plain (s : string) : includes ":" s = false → split ":" s = [s].
Proof.
  induction s as [|c s IH]; [done|].
  rewrite includes_cons, prefix_one. intros H. apply orb_false_iff in H as [Hc Hs].
  apply bool_decide_eq_false in Hc. rewrite split_cons, (IH Hs).
  by destruct (Ascii.eqb_spec c ":"); [congruence|].
Qed.

Lemma Sorted_map {A B : Type} (R : A → A → Prop) (R' : B → B → Prop) (f : A → B) (l : list A) :
  (∀ a b, R a b → R' (f a) (f b)) → Sorted R l → Sorted R' (map f l).
Proof.
  intros HR Hl. induction Hl as [|x l Hl IH Hhd]; simpl; constructor; [done|].
  destruct Hhd; simpl; constructor. by apply HR.
Qed.

Section SortingFacts.

Context {db : Type} (env : collaborators db).

(** Every page is a run of consecutive elements of the sorted
    selection. *)
Lemma listUsers_segment (users : list user) (page : Z) (limit : option Z)
    (search : string) (sort : option string) :
  ∃ i j : nat,
    results (listUsers env users page limit search sort)
    = map view (take j (drop i (sortedUsers env sort
                                  (filter (fun u => matches search u = true) users)))).
Proof.
  unfold listUsers. cbv zeta. cbn [results].
  destruct (slice_segment (sortedUsers env sort (filter (fun u => matches search u = true) users))
              (match limit with Some n => (page - 1) * n | None => 0 end)
              (match limit with
               | Some n => if negb (n =? 0)
                           then Z.min ((match limit with Some n => (page - 1) * n | None => 0 end) + n)
                                      (Z.of_nat (length (sortedUsers env sort
                                         (filter (fun u => matches search u = true) users))))
                           else Z.of_nat (length (sortedUsers env sort
                                         (filter (fun u => matches search u = true) users)))
               | None => Z.of_nat (length (sortedUsers env sort
                                         (filter (fun u => matches search u = true) users)))
               end)) as (i & j & Hseg).
  exists i, j. by rewrite <- Hseg.
Qed.

Lemma sortedUsers_by (key field : string) (direction : option string) (l : list user) :
  key ≠ ""%string →
  split ":" key = field :: match direction with Some d => [d] | None => [] end →
  sortedUsers env (Some key) l = Text.sort (compareFn env field direction) l.
Proof.
  intros Hkey Hsplit. unfold sortedUsers.
  destruct (String.eqb_spec key ""); [done|]. cbv zeta. rewrite Hsplit.
  by destruct direction.
Qed.

End SortingFacts.

(** X7.  With the sort key "name:asc" (or "email:asc") every page is in
    ascending order of the names (of the addresses), as [localeCompare]
    orders them, provided [localeCompare] never calls both of two strings
    the greater one. *)
Theorem listUsers_sorted_ascending {db : Type} (env : collaborators db)
    (users : list user) (page : Z) (limit : option Z) (search : string) :
  (∀ a b, 0 < localeCompare env a b → localeCompare env b a ≤ 0) →
  Sorted (fun a b => localeCompare env (view_name a) (view_name b) ≤ 0)
         (results (listUsers env users page limit search (Some "name:asc"%string))) ∧
  Sorted (fun a b => localeCompare env (view_email a) (view_email b) ≤ 0)
         (results (listUsers env users page limit search (Some "email:asc"%string))).
Proof.
  intros Htotal. split.
  - destruct (listUsers_segment env users page limit search (Some "name:asc"%string))
      as (i & j & ->).
    rewrite (sortedUsers_by env "name:asc" "name" (Some "asc"%string)) by done.
    eapply Sorted_map; [|apply Sorted_segment, sort_sorted].
    + intros a b H. exact H.
    + intros a b. apply Htotal.
  - destruct (listUsers_segment env users page limit search (Some "email:asc"%string))
      as (i & j & ->).
    rewrite (sortedUsers_by env "email:asc" "email" (Some "asc"%string)) by done.
    eapply Sorted_map; [|apply Sorted_segment, sort_sorted].
    + intros a b H. exact H.
    + intros a b. apply Htotal.
Qed.

(** X8.  Only the direction "asc", spelled so, sorts upwards.  With any
    other direction after the colon ("desc", "ASC", ...) and with no
    direction at all, a page sorted by name is in descending order. *)
Theorem listUsers_sorted_descending {db : Type} (env : collaborators db)
    (users : list user) (page : Z) (limit : option Z) (search direction : string) :
  (∀ a b, localeCompare env a b < 0 → 0 ≤ localeCompare env b a) →
  includes ":" direction = false →
  direction ≠ "asc"%string →
  Sorted (fun a b => 0 ≤ localeCompare env (view_name a) (view_name b))
         (results (listUsers env users page limit search (Some ("name:" +:+ direction)))) ∧
  Sorted (fun a b => 0 ≤ localeCompare env (view_name a) (view_name b))
         (results (listUsers env users page limit search (Some "name"%string))).
Proof.
  intros Htotal Hplain Hdir.
  assert (Hdown : ∀ d l, (∀ s, d = Some s → s ≠ "asc"%string) →
    Sorted (fun a b => 0 ≤ localeCompare env (user_name a) (user_name b))
           (Text.sort (compareFn env "name" d) l)).
  { intros d l Hd.
    assert (Hf : ∀ a b, compareFn env "name" d a b
                        = localeCompare env (user_name a) (user_name b) * -1).
    { intros a b. unfold compareFn, compareValue. simpl.
      destruct d as [s|]; [|done].
      by destruct (String.eqb_spec s "asc"); [destruct (Hd s eq_refl)|]. }
    assert (Hs : Sorted (fun a b => compareFn env "name" d a b ≤ 0)
                   (Text.sort (compareFn env "name" d) l)).
    { apply sort_sorted. intros a b. rewrite !Hf. intros H.
      specialize (Htotal (user_name a) (user_name b)). lia. }
    apply (Sorted_map _ (fun a b => 0 ≤ localeCompare env (user_name a) (user_name b))
             (fun u => u)) in Hs; [by rewrite map_id in Hs|].
    intros a b. rewrite Hf. lia. }
  split.
  - destruct (listUsers_segment env users page limit search (Some ("name:" +:+ direction)))
      as (i & j & ->).
    rewrite (sortedUsers_by env ("name:" +:+ direction) "name" (Some direction)).
    + eapply Sorted_map; [|apply Sorted_segment, Hdown].
      * intros a b H. exact H.
      * intros s [= <-]. done.
    + done.
    + change ("name:" +:+ direction) with ("name" +:+ String ":" direction).
      rewrite split_app by done. by rewrite split_plain.
  - destruct (listUsers_segment env users page limit search (Some "name"%string))
      as (i & j & ->).
    rewrite (sortedUsers_by env "name" "name" None) by done.
    eapply Sorted_map; [|apply Sorted_segment, Hdown].
    + intros a b H. exact H.
    + done.
Qed.

(** X9.  A sort key that is empty, or whose part before the colon is
    neither "name" nor "email" spelled so, leaves the selection in the
    order of the repository: the answer is the one given without a sort
    key. *)
Theorem listUsers_unknown_sort_key_keeps_order {db : Type} (env : collaborators db)
    (users : list user) (page : Z) (limit : option Z) (search key : string) :
  key = ""%string
  ∨ (nth 0 (split ":" key) EmptyString ≠ "name"%string
     ∧ nth 0 (split ":" key) EmptyString ≠ "email"%string) →
  listUsers env users page limit search (Some key)
  = listUsers env users page limit search None.
Proof.
  intros Hkey.
  assert (Hsame : ∀ l, sortedUsers env (Some key) l = l).
  { intros l. unfold sortedUsers. destruct (String.eqb_spec key "") as [|Hne]; [done|].
    destruct Hkey as [|[Hname Hemail]]; [done|]. cbv zeta.
    apply sort_indifferent. intros a b. unfold compareFn, compareValue.
    destruct (String.eqb_spec (nth 0 (split ":" key) "") "name"); [done|].
    destruct (String.eqb_spec (nth 0 (split ":" key) "") "email"); [done|].
    destruct (nth_error _ _) as [d|]; [destruct (String.eqb d "asc")|]; lia. }
  unfold listUsers. cbv zeta. rewrite Hsame. done.
Qed.

(** X10.  Sorting loses nobody: whatever the sort key, the unlimited
    listing has the same users as the listing without a sort key, each as
    often; and with an empty search text these are all the users of the
    repository. *)
Theorem listUsers_sort_keeps_everybody {db : Type} (env : collaborators db)
    (users : list user) (page : Z) (search : string) (sort : option string) :
  results (listUsers env users page None search sort)
    ≡ₚ results (listUsers env users page None search None) ∧
  results (listUsers env users page None "" sort) ≡ₚ map view users ∧
  results (listUsers env users page None "" None) = map view users.
Proof.
  assert (Hperm : ∀ l, sortedUsers env sort l ≡ₚ l).
  { intros l. destruct sort as [key|]; [|done]. unfold sortedUsers.
    destruct (String.eqb key ""); [done|]. apply sort_permutation. }
  assert (Hall : filter (fun u => matches "" u = true) users = users).
  { apply filter_all. intros u. apply matches_everybody. }
  rewrite !(listUsers_unlimited env users) by auto.
  split; [|split].
  - by rewrite Hperm.
  - by rewrite Hperm, Hall.
  - by rewrite Hall.
Qed.

(** ** Look-ups and guarded writes *)

Section ServiceFacts.

Context {db : Type} (env : collaborators db).

(** Unfolding [await]: a call that resolves hands its value on, a call
    that is rejected ends the function there. *)
Lemma bind_call {A B : Type} (o : op) (f : db → db * settled A) (k : A → M db B) (d : db) :
  bind (call o f) k d =
    match f d with
    | (d1, Resolved a) => let '(d2, t2, r) := k a d1 in (d2, o :: t2, r)
    | (d1, Rejects reason) => (d1, [o], Rejects reason)
    end.
Proof. unfold bind, call. by destruct (f d) as [d1 [a|reason]]. Qed.

Lemma bind_util {A B : Type} (o : op) (s : settled A) (k : A → M db B) (d : db) :
  bind (util o s) k d =
    match s with
    | Resolved a => let '(d2, t2, r) := k a d in (d2, o :: t2, r)
    | Rejects reason => (d, [o], Rejects reason)
    end.
Proof. unfold bind, util. by destruct s. Qed.

Lemma bind_try_call {A B : Type} (o : op) (f : db → db * settled A)
    (k : settled A → M db B) (d : db) :
  bind (try (call o f)) k d =
    let '(d2, t2, r) := k (f d).2 (f d).1 in (d2, o :: t2, r).
Proof. unfold bind, try, call. by destruct (f d) as [d1 r]. Qed.

End ServiceFacts.

(** X11.  A user that the look-up does not find is never written to:
    [updateUser], [deleteUser] and [changePassword] answer [null] after
    the look-up alone, without hashing anything and without a second call
    to the repository. *)
Theorem missing_user_is_not_written {db : Type} (env : collaborators db)
    (id name email password : string) (d d1 : db) :
  repoGetUser env id d = (d1, Resolved None) →
  updateUser env id name email d = (d1, [GetUser id], Resolved Null) ∧
  deleteUser env id d = (d1, [GetUser id], Resolved Null) ∧
  changePassword env id password d = (d1, [GetUser id], Resolved Null).
Proof.
  intros Hmiss. unfold updateUser, deleteUser, changePassword.
  by rewrite !bind_call, Hmiss.
Qed.

(** X12.  The same for transfers: [updateTransfer] and [deleteTransfer]
    answer [null] for an id the look-up does not find, and make no other
    call. *)
Theorem missing_transfer_is_not_written {db : Type} (env : collaborators db)
    (id : string) (amount : value) (d d1 : db) :
  repoGetTransfer1 env id d = (d1, Resolved None) →
  updateTransfer env id amount d = (d1, [GetTransfer1 id], Resolved Null) ∧
  deleteTransfer env id d = (d1, [GetTransfer1 id], Resolved Null).
Proof.
  intros Hmiss. unfold updateTransfer, deleteTransfer.
  by rewrite !bind_call, Hmiss.
Qed.

(** X13.  [updateUser] and [deleteUser] answer [true] exactly when the
    user was found and the write resolved, and in no case anything but
    [true] or [null]; a write that is rejected is answered [null], whereas
    a look-up that is rejected rejects the call itself, with the same
    reason and before any write. *)
Theorem user_writes_answer {db : Type} (env : collaborators db)
    (id name email : string) (d : db) :
  (∀ d' calls r, updateUser env id name email d = (d', calls, r) →
     (r = Resolved (Bool true) ↔
        ∃ u, (repoGetUser env id d).2 = Resolved (Some u) ∧
             ∃ v, (repoUpdateUser env id name email (repoGetUser env id d).1).2 = Resolved v) ∧
     (∀ reason, r = Rejects reason ↔
        (repoGetUser env id d).2 = Rejects reason ∧ calls = [GetUser id]) ∧
     (∀ v, r = Resolved v → v = Bool true ∨ v = Null)) ∧
  (∀ d' calls r, deleteUser env id d = (d', calls, r) →
     (r = Resolved (Bool true) ↔
        ∃ u, (repoGetUser env id d).2 = Resolved (Some u) ∧
             ∃ v, (repoDeleteUser env id (repoGetUser env id d).1).2 = Resolved v) ∧
     (∀ reason, r = Rejects reason ↔
        (repoGetUser env id d).2 = Rejects reason ∧ calls = [GetUser id]) ∧
     (∀ v, r = Resolved v → v = Bool true ∨ v = Null)).
Proof.
  split; intros d' calls r; unfold updateUser, deleteUser; rewrite bind_call;
    destruct (repoGetUser env id d) as [d1 [[u|]|reason]]; simpl.
  - rewrite bind_try_call.
    destruct (repoUpdateUser env id name email d1) as [d2 [v|reason]]; simpl;
      intros [= <- <- <-]; (split; [|split]).
    + split; [eauto|done].
    + intros reason. split; [done | intros [? _]; done].
    + intros ? [= <-]. auto.
    + split; [done | intros (? & _ & ? & ?); done].
    + intros reason'. split; [done | intros [? _]; done].
    + intros ? [= <-]. auto.
  - intros [= <- <- <-]. split; [|split].
    + split; [done | intros (? & ? & _); done].
    + intros reason. split; [done | intros [? _]; done].
    + intros ? [= <-]. auto.
  - intros [= <- <- <-]. split; [|split].
    + split; [done | intros (? & ? & _); done].
    + intros reason'. split; [by intros [= <-] | by intros [[= <-] _]].
    + done.
  - rewrite bind_try_call.
    destruct (repoDeleteUser env id d1) as [d2 [v|reason]]; simpl;
      intros [= <- <- <-]; (split; [|split]).
    + split; [eauto|done].
    + intros reason. split; [done | intros [? _]; done].
    + intros ? [= <-]. auto.
    + split; [done | intros (? & _ & ? & ?); done].
    + intros reason'. split; [done | intros [? _]; done].
    + intros ? [= <-]. auto.
  - intros [= <- <- <-]. split; [|split].
    + split; [done | intros (? & ? & _); done].
    + intros reason. split; [done | intros [? _]; done].
    + intros ? [= <-]. auto.
  - intros [= <- <- <-]. split; [|split].
    + split; [done | intros (? & ? & _); done].
    + intros reason'. split; [by intros [= <-] | by intros [[= <-] _]].
    + done.
Qed.

(** ** Passwords *)

(** X14.  [createUser] hands the repository the hash and never the
    password as typed, and answers [true] or [null] as the write resolves
    or is rejected.  When the hashing itself is rejected the repository is
    not called and the rejection is not caught: the call is rejected with
    the same reason. *)
Theorem createUser_stores_the_hash {db : Type} (env : collaborators db)
    (name email password : string) (d : db) :
  (∀ reason, hashPassword env password = Rejects reason →
     createUser env name email password d = (d, [HashPassword password], Rejects reason)) ∧
  (∀ hashed, hashPassword env password = Resolved hashed →
     ∃ answer,
       createUser env name email password d =
         ((repoCreateUser env name email hashed d).1,
          [HashPassword password; CreateUser name email hashed],
          Resolved answer) ∧
       (answer = Bool true ↔ ∃ v, (repoCreateUser env name email hashed d).2 = Resolved v) ∧
       (answer = Null ↔ ∃ reason, (repoCreateUser env name email hashed d).2 = Rejects reason)).
Proof.
  split.
  - intros reason Hhash. unfold createUser. by rewrite bind_util, Hhash.
  - intros hashed Hhash. unfold createUser. rewrite bind_util, Hhash, bind_try_call.
    destruct (repoCreateUser env name email hashed d) as [d1 [v|reason]]; simpl.
    + exists (Bool true). split; [done|]. split; [split; eauto|].
      split; [done | intros [? [=]]].
    + exists Null. split; [done|]. split; [|split; eauto].
      split; [done | intros [? [=]]].
Qed.

(** X15.  [checkPassword] for a user the look-up does not find is
    rejected with a [TypeError], not answered [false], and compares
    nothing; for a user that is found it is the answer of
    [passwordMatched] on the password given and the hash on record. *)
Theorem checkPassword_needs_the_user {db : Type} (env : collaborators db)
    (userId password : string) (d d1 : db) :
  (repoGetUser env userId d = (d1, Resolved None) →
     checkPassword env userId password d = (d1, [GetUser userId], Rejects (Str "TypeError"))) ∧
  (∀ u, repoGetUser env userId d = (d1, Resolved (Some u)) →
     checkPassword env userId password d =
       (d1, [GetUser userId; PasswordMatched password (user_password u)],
        passwordMatched env password (user_password u))).
Proof.
  split.
  - intros Hmiss. unfold checkPassword. by rewrite bind_call, Hmiss.
  - intros u Hfound. unfold checkPassword. by rewrite bind_call, Hfound.
Qed.

(** X16.  [changePassword] for a user that is found hashes the new
    password and hands the hash to the repository; it answers [true] when
    the repository resolves with a truthy value and [null] when it
    resolves with a falsy one.  Nothing here is caught: a rejected hashing
    or a rejected write rejects the call. *)
Theorem changePassword_answers {db : Type} (env : collaborators db)
    (userId password : string) (d d1 : db) (u : user) :
  repoGetUser env userId d = (d1, Resolved (Some u)) →
  (∀ reason, hashPassword env password = Rejects reason →
     changePassword env userId password d =
       (d1, [GetUser userId; HashPassword password], Rejects reason)) ∧
  (∀ hashed d2, hashPassword env password = Resolved hashed →
     (∀ reason, repoChangePassword env userId hashed d1 = (d2, Rejects reason) →
        changePassword env userId password d =
          (d2, [GetUser userId; HashPassword password; ChangePassword userId hashed],
           Rejects reason)) ∧
     (∀ changeSuccess, repoChangePassword env userId hashed d1 = (d2, Resolved changeSuccess) →
        changePassword env userId password d =
          (d2, [GetUser userId; HashPassword password; ChangePassword userId hashed],
           Resolved (if truthy changeSuccess then Bool true else Null)))).
Proof.
  intros Hfound. split.
  - intros reason Hhash. unfold changePassword.
    by rewrite bind_call, Hfound, bind_util, Hhash.
  - intros hashed d2 Hhash. split.
    + intros reason Hwrite. unfold changePassword.
      by rewrite bind_call, Hfound, bind_util, Hhash, bind_call, Hwrite.
    + intros changeSuccess Hwrite. unfold changePassword.
      rewrite bind_call, Hfound, bind_util, Hhash, bind_call, Hwrite.
      by destruct (truthy changeSuccess).
Qed.

(** ** Transfers *)

(** X17.  [getTransfers] answers with one entry per transfer of the
    repository, in the same order, each carrying the fields of its
    transfer; the [id] of an entry is the transfer document itself, not an
    identifier.  A rejected look-up rejects the call. *)
Theorem getTransfers_keeps_the_ledger {db : Type} (env : collaborators db) (d : db) :
  (∀ d1 reason, repoGetTransfer env d = (d1, Rejects reason) →
     getTransfers env d = (d1, [GetTransfer], Rejects reason)) ∧
  (∀ d1 ledger, repoGetTransfer env d = (d1, Resolved ledger) →
     ∃ answer,
       getTransfers env d = (d1, [GetTransfer], Resolved answer) ∧
       length answer = length ledger ∧
       map tv_id answer = ledger ∧
       ∀ (i : nat) (e : transferView), answer !! i = Some e →
         ledger !! i = Some (tv_id e) ∧
         tv_transferId e = transferId (tv_id e) ∧
         tv_fromUserId e = fromUserId (tv_id e) ∧
         tv_toUserId e = toUserId (tv_id e) ∧
         tv_amount e = amount (tv_id e) ∧
         tv_timestamp e = timestamp (tv_id e)).
Proof.
  split.
  - intros d1 reason Hrej. unfold getTransfers. by rewrite bind_call, Hrej.
  - intros d1 ledger Hres. unfold getTransfers. rewrite bind_call, Hres. simpl.
    eexists. split; [reflexivity|]. split; [by rewrite length_map|]. split.
    + rewrite map_map. simpl. apply map_id.
    + intros i e Hi. change (map ?f ledger) with (f <$> ledger) in Hi.
      rewrite list_lookup_fmap in Hi.
      destruct (ledger !! i) as [t|]; [|done]. by injection Hi as <-.
Qed.

(** [getUsers] is the listing of what the repository resolved with. *)
Lemma getUsers_lists {db : Type} (env : collaborators db)
    (page : Z) (limit : option Z) (search : string) (sort : option string) (d : db) :
  getUsers env page limit search sort d =
    match repoGetUsers env d with
    | (d1, Resolved users) =>
        (d1, [GetUsers], Resolved (listUsers env users page limit search sort))
    | (d1, Rejects reason) => (d1, [GetUsers], Rejects reason)
    end.
Proof. unfold getUsers. rewrite bind_call. by destruct (repoGetUsers env d) as [d1 [us|x]]. Qed.

(** X25.  [createTransfer] answers [true] exactly when both look-ups
    resolved with a user and the write resolved, and otherwise [null]; the
    write is attempted exactly when both look-ups resolved, found or not,
    so that a look-up that is rejected, unlike one that finds nobody,
    keeps the transfer from being written. *)
Theorem createTransfer_answers {db user : Type} (usersRepository : Users.repository db user)
    (transferId : string) (timestamp : Z) (id toUserId : string) (amount : value) (d : db) :
  ∃ d' calls answer,
    Users.createTransfer usersRepository transferId timestamp id toUserId amount d
      = (d', calls, answer) ∧
    (answer = Bool true ∨ answer = Null) ∧
    (answer = Bool true ↔
       ∃ toUser fromUser,
         Users.getUser usersRepository toUserId d = Resolved (Some toUser) ∧
         Users.getUser usersRepository id d = Resolved (Some fromUser) ∧
         ∃ done,
           (Users.repoCreateTransfer usersRepository transferId (Some fromUser) (Some toUser)
              amount timestamp d).2 = Resolved done) ∧
    ((∃ fromUser toUser,
        Users.CreateTransfer transferId fromUser toUser amount timestamp ∈ calls) ↔
     (∃ toUser fromUser,
        Users.getUser usersRepository toUserId d = Resolved toUser ∧
        Users.getUser usersRepository id d = Resolved fromUser)).
Proof.
  unfold Users.createTransfer.
  destruct (Users.getUser usersRepository toUserId d) as [toUser|x] eqn:Hto.
  - destruct (Users.getUser usersRepository id d) as [fromUser|y] eqn:Hfrom.
    + destruct (Users.repoCreateTransfer usersRepository transferId fromUser toUser
                  amount timestamp d) as [d' [[]|z]] eqn:Hwrite.
      * destruct toUser as [tu|], fromUser as [fu|]; eexists _, _, _;
          (split; [reflexivity|]); (split; [auto|]); (split; [|split; [eauto|]]).
        -- split; [|done]. intros _. exists tu, fu. split; [done|]. split; [done|].
           exists tt. by rewrite Hwrite.
        -- intros _. eexists _, _. apply list_elem_of_In. simpl. auto.
        -- split; [done|]. intros (? & ? & ? & [=] & _).
        -- intros _. eexists _, _. apply list_elem_of_In. simpl. auto.
        -- split; [done|]. intros (? & ? & [=] & _).
        -- intros _. eexists _, _. apply list_elem_of_In. simpl. auto.
        -- split; [done|]. intros (? & ? & [=] & _).
        -- intros _. eexists _, _. apply list_elem_of_In. simpl. auto.
      * eexists _, _, _. split; [reflexivity|]. split; [auto|]. split; [|split; [eauto|]].
        -- split; [done|]. intros (tu & fu & [= ->] & [= ->] & done & Hdone).
           rewrite Hwrite in Hdone. done.
        -- intros _. eexists _, _. apply list_elem_of_In. simpl. auto.
    + eexists _, _, _. split; [reflexivity|]. split; [auto|]. split; [|split].
      * split; [done|]. intros (? & ? & _ & [=] & _).
      * intros (? & ? & Hin). apply list_elem_of_In in Hin. simpl in Hin.
        destruct Hin as [[=]|[[=]|[]]].
      * intros (? & ? & _ & [=]).
  - eexists _, _, _. split; [reflexivity|]. split; [auto|]. split; [|split].
    + split; [done|]. intros (? & ? & [=] & _).
    + intros (? & ? & Hin). apply list_elem_of_In in Hin. simpl in Hin.
      destruct Hin as [[=]|[]].
    + intros (? & ? & [=] & _).
Qed.

(** * Further properties of [login] *)

Import Throttle.

(** What a call does is decided by the entries of its own identity. *)
Lemma login_local (a : attempt) (st1 st2 : store) :
  loginAttempts st1 !! identity a = loginAttempts st2 !! identity a →
  lastLoginAttemptTime st1 !! identity a = lastLoginAttemptTime st2 !! identity a →
  (login a st1).1.2 = (login a st2).1.2 ∧
  (login a st1).2 = (login a st2).2 ∧
  loginAttempts (login a st1).1.1 !! identity a = loginAttempts (login a st2).1.1 !! identity a ∧
  lastLoginAttemptTime (login a st1).1.1 !! identity a
    = lastLoginAttemptTime (login a st2).1.1 !! identity a.
Proof.
  intros Hcount Hstamp.
  assert (Hf : failureCount st1 (identity a) = failureCount st2 (identity a))
    by (unfold failureCount; by rewrite Hcount).
  destruct (Z.le_gt_cases MAX_LOGIN_ATTEMPTS (failureCount st1 (identity a))) as [Hmax|Hlt].
  - rewrite (login_locked a st1 Hmax), (login_locked a st2) by (by rewrite <- Hf).
    simpl. rewrite !lookup_delete_eq, Hf. done.
  - rewrite (login_open a st1 Hlt), (login_open a st2) by (by rewrite <- Hf).
    cbv zeta. rewrite <- Hstamp, <- Hf.
    destruct (credentials a) as [v|x]; [destruct (truthy v)|]; simpl.
    + by rewrite !lookup_delete_eq.
    + by rewrite !lookup_insert_eq.
    + destruct (timedOut _ _); simpl; [by rewrite !lookup_insert_eq | done].
Qed.

Lemma answersFor_cons (key : string) (a : attempt) (l : list attempt)
    (r : list event * response) (rs : list (list event * response)) :
  answersFor key (a :: l) (r :: rs) =
    if about key a then r :: answersFor key l rs else answersFor key l rs.
Proof. unfold answersFor. simpl. by destruct (about key a). Qed.

Lemma filter_about_cons (key : string) (a : attempt) (l : list attempt) :
  List.filter (about key) (a :: l) =
    if about key a then a :: List.filter (about key) l else List.filter (about key) l.
Proof. reflexivity. Qed.

(** X18.  Identities are independent.  The answers a run gives to the
    requests of one identity, log lines and waits included, are the
    answers it would give if the requests of all other identities were
    left out, and it leaves that identity's counter and time stamp the
    same. *)
Theorem serve_identities_independent (key : string) (l : list attempt) (st : store) :
  answersFor key l (serve l st).2 = (serve (List.filter (about key) l) st).2 ∧
  loginAttempts (serve l st).1 !! key
    = loginAttempts (serve (List.filter (about key) l) st).1 !! key ∧
  lastLoginAttemptTime (serve l st).1 !! key
    = lastLoginAttemptTime (serve (List.filter (about key) l) st).1 !! key.
Proof.
  assert (Hgen : ∀ l st1 st2,
    loginAttempts st1 !! key = loginAttempts st2 !! key →
    lastLoginAttemptTime st1 !! key = lastLoginAttemptTime st2 !! key →
    answersFor key l (serve l st1).2 = (serve (List.filter (about key) l) st2).2 ∧
    loginAttempts (serve l st1).1 !! key
      = loginAttempts (serve (List.filter (about key) l) st2).1 !! key ∧
    lastLoginAttemptTime (serve l st1).1 !! key
      = lastLoginAttemptTime (serve (List.filter (about key) l) st2).1 !! key).
  { clear. induction l as [|a l IH]; intros st1 st2 Hc Hs; [done|].
    rewrite serve_cons, filter_about_cons. cbn [fst snd]. rewrite answersFor_cons.
    destruct (about key a) eqn:Habout; unfold about in Habout.
    - apply String.eqb_eq in Habout. rewrite serve_cons. cbn [fst snd]. subst key.
      destruct (login_local a st1 st2 Hc Hs) as (Hevs & Hr & Hc' & Hs').
      destruct (IH _ _ Hc' Hs') as (Hans & Hcf & Hsf).
      by rewrite Hans, Hevs, Hr.
    - apply String.eqb_neq in Habout.
      destruct (login_frame a st1 key) as [Hc' Hs']; [congruence|].
      apply IH; congruence. }
  by apply Hgen.
Qed.

(** One call keeps two stores alike, and answers the same on both. *)
Lemma login_alike (a : attempt) (st1 st2 : store) :
  alike st1 st2 →
  (login a st1).1.2 = (login a st2).1.2 ∧
  (login a st1).2 = (login a st2).2 ∧
  alike (login a st1).1.1 (login a st2).1.1.
Proof.
  intros Halike. destruct (Halike (identity a)) as [Hf Hstamp].
  assert (Hothers : ∀ k, k ≠ identity a →
    failureCount (login a st1).1.1 k = failureCount (login a st2).1.1 k ∧
    (failureCount (login a st1).1.1 k ≠ 0 →
     lastLoginAttemptTime (login a st1).1.1 !! k = lastLoginAttemptTime (login a st2).1.1 !! k)).
  { intros k Hk. unfold failureCount.
    destruct (login_frame a st1 k Hk) as [-> ->], (login_frame a st2 k Hk) as [-> ->].
    apply Halike. }
  assert (Hforgiven : failureCount st1 (identity a) < MAX_LOGIN_ATTEMPTS →
    forgiven st1 (identity a) (clock a) = forgiven st2 (identity a) (clock a)).
  { intros _. unfold forgiven. fold (failureCount st1 (identity a)).
    fold (failureCount st2 (identity a)). rewrite <- Hf.
    destruct (decide (failureCount st1 (identity a) = 0)) as [H0|Hn0].
    - rewrite H0. by destruct (timedOut _ _), (timedOut _ _).
    - by rewrite (Hstamp Hn0). }
  assert (Hown : failureCount (login a st1).1.1 (identity a)
                 = failureCount (login a st2).1.1 (identity a)).
  { rewrite !failureCount_after_login, <- Hf.
    destruct (Z.leb_spec MAX_LOGIN_ATTEMPTS (failureCount st1 (identity a))); [done|].
    by rewrite Hforgiven. }
  split; [|split].
  - destruct (Z.le_gt_cases MAX_LOGIN_ATTEMPTS (failureCount st1 (identity a))) as [Hmax|Hlt].
    + rewrite (login_locked a st1 Hmax), (login_locked a st2) by (by rewrite <- Hf).
      simpl. by rewrite Hf.
    + rewrite (login_open a st1 Hlt), (login_open a st2) by (by rewrite <- Hf).
      cbv zeta. rewrite <- Hf.
      by destruct (credentials a) as [v|x]; [destruct (truthy v)|].
  - destruct (Z.le_gt_cases MAX_LOGIN_ATTEMPTS (failureCount st1 (identity a))) as [Hmax|Hlt].
    + by rewrite (login_locked a st1 Hmax), (login_locked a st2) by (by rewrite <- Hf).
    + rewrite (login_open a st1 Hlt), (login_open a st2) by (by rewrite <- Hf).
      cbv zeta. by destruct (credentials a) as [v|x]; [destruct (truthy v)|].
  - intros k. destruct (decide (k = identity a)) as [->|Hk]; [|by apply Hothers].
    split; [done|]. intros Hnz.
    rewrite !lastLoginAttemptTime_after_login, <- Hf.
    destruct (Z.ltb_spec (failureCount st1 (identity a)) MAX_LOGIN_ATTEMPTS) as [Hlt|Hmax].
    + destruct (failsb a) eqn:Hfail; simpl.
      * by rewrite !lookup_insert_eq.
      * (* no failure was written: the counter is the forgiven one, or zero *)
        rewrite failureCount_after_login in Hnz.
        destruct (Z.leb_spec MAX_LOGIN_ATTEMPTS (failureCount st1 (identity a))); [lia|].
        unfold failsb in Hfail.
        destruct (credentials a) as [v|x].
        -- apply negb_false_iff in Hfail. by rewrite Hfail in Hnz.
        -- apply Hstamp. intros H0. apply Hnz. unfold forgiven.
           fold (failureCount st1 (identity a)). rewrite H0. by destruct (timedOut _ _).
    + simpl. rewrite failureCount_after_login in Hnz.
      by destruct (Z.leb_spec MAX_LOGIN_ATTEMPTS (failureCount st1 (identity a))); [|lia].
Qed.

(** X19.  A time stamp left behind by an identity whose counter reads
    zero is never looked at to any effect.  Two stores whose counters read
    the same, and whose time stamps agree wherever the counter is not
    zero, give the same answers to every series of requests on [ordinary]
    identities, log lines included, and stay so related. *)
Theorem serve_alike (l : list attempt) (st1 st2 : store) :
  Forall (fun a => ordinary (identity a) = true) l →
  alike st1 st2 →
  (serve l st1).2 = (serve l st2).2 ∧ alike (serve l st1).1 (serve l st2).1.
Proof.
  intros _. revert st1 st2. induction l as [|a l IH]; intros st1 st2 Halike; [done|].
  rewrite !serve_cons. cbn [fst snd].
  destruct (login_alike a st1 st2 Halike) as (Hevs & Hr & Hnext).
  destruct (IH _ _ Hnext) as [Hrs Hfinal].
  by rewrite Hevs, Hr, Hrs.
Qed.

(** ** Serving in a row as one interleaving *)

Lemma lookup_at_length {A : Type} (l1 l2 : list A) (x : A) :
  (l1 ++ x :: l2) !! length l1 = Some x.
Proof. by apply list_lookup_middle. Qed.

Lemma insert_at_length {A : Type} (l1 l2 : list A) (x y : A) :
  <[length l1 := y]> (l1 ++ x :: l2) = l1 ++ y :: l2.
Proof. rewrite insert_app_r_alt by lia. by rewrite Nat.sub_diag. Qed.

Lemma schedule_app (o1 o2 : list nat) : ∀ c : config,
  schedule (o1 ++ o2) c =
    match schedule o1 c with
    | Some c' => schedule o2 c'
    | None => None
    end.
Proof.
  induction o1 as [|i o1 IH]; intros c; [done|].
  rewrite <- app_comm_cons, !schedule_cons. destruct (advance i c); [apply IH | done].
Qed.

(** A request in the middle of the pool, run through both segments. *)
Lemma schedule_both_segments (before after : list task) (a : attempt) (st : store) :
  schedule [length before; length before] (st, before ++ (a, Arrived) :: after) =
    Some ((login a st).1.1,
          before ++ (a, Finished (login a st).1.2 (login a st).2) :: after).
Proof.
  unfold login. rewrite schedule_cons, advance_eq, lookup_at_length.
  destruct (login_enter _ _ _ _) as [[st1 evs1] k].
  rewrite insert_at_length, schedule_cons, advance_eq, lookup_at_length.
  destruct (login_resume _ _ _) as [[st2 evs2] r].
  by rewrite insert_at_length.
Qed.

Lemma serve_schedule (rest : list attempt) : ∀ (before : list task) (st : store),
  schedule (backToBack (length before) (length rest)) (st, before ++ arrivals rest)
  = Some ((serve rest st).1, before ++ served rest (serve rest st).2).
Proof.
  induction rest as [|a rest IH]; intros before st; [done|].
  unfold backToBack. cbn [length seq flat_map].
  change ([length before; length before] ++ ?o) with ([length before; length before] ++ o)%list.
  rewrite schedule_app. cbn [arrivals map].
  rewrite schedule_both_segments, serve_cons. cbn [fst snd].
  specialize (IH (before ++ [(a, Finished (login a st).1.2 (login a st).2)]) (login a st).1.1).
  rewrite length_app in IH. cbn [length] in IH.
  replace (length before + 1)%nat with (S (length before)) in IH by lia.
  rewrite <- !app_assoc in IH. exact IH.
Qed.

Lemma serve_steps (l : list attempt) (st : store) :
  rtc step (st, arrivals l) ((serve l st).1, served l (serve l st).2).
Proof. apply (schedule_rtc (backToBack 0 (length l))). apply (serve_schedule l [] st). Qed.

Lemma serve_length (l : list attempt) : ∀ st : store, length (serve l st).2 = length l.
Proof.
  induction l as [|a l IH]; intros st; [done|]. rewrite serve_cons. simpl. by rewrite IH.
Qed.

(** ** Requests that all enter before any is answered *)

Lemma schedule_enter_all (key : string) (rest : list attempt) :
  ∀ (before : list task) (st : store),
  Forall (fun a => identity a = key) rest →
  failureCount st key = 0 →
  ∃ st',
    schedule (seq (length before) (length rest)) (st, before ++ arrivals rest)
    = Some (st', before ++ map parkedAtZero rest) ∧
    failureCount st' key = 0.
Proof.
  induction rest as [|a rest IH]; intros before st Hall Hzero.
  - exists st. by rewrite !app_nil_r.
  - apply Forall_cons in Hall as [Hkey Hall].
    cbn [length seq arrivals map]. rewrite schedule_cons, advance_eq, lookup_at_length.
    rewrite login_enter_open by (rewrite Hkey, Hzero; done).
    rewrite insert_at_length, Hkey, Hzero.
    set (st1 := if timedOut _ _ then _ else st).
    assert (Hz1 : failureCount st1 key = 0).
    { unfold st1. destruct (timedOut _ _); [apply failureCount_setAttempts | done]. }
    destruct (IH (before ++ [parkedAtZero a]) st1 Hall Hz1) as (st' & Hrun & Hz').
    rewrite length_app in Hrun. cbn [length] in Hrun.
    replace (length before + 1)%nat with (S (length before)) in Hrun by lia.
    rewrite <- !app_assoc in Hrun. exists st'. split; [|done].
    unfold parkedAtZero at 1 in Hrun. rewrite Hkey in Hrun.
    replace (MAX_LOGIN_ATTEMPTS - 0) with MAX_LOGIN_ATTEMPTS by done. exact Hrun.
Qed.

Lemma schedule_answer_all (key : string) (rest : list attempt) :
  ∀ (before : list task) (st : store),
  Forall (fun a => identity a = key ∧ failsb a = true) rest →
  0 ≤ failureCount st key →
  ∃ st',
    schedule (seq (length before) (length rest)) (st, before ++ map parkedAtZero rest)
    = Some (st', before ++ map rejectedAsFirst rest) ∧
    loginAttempts st' !! key
      = (if decide (rest = []) then loginAttempts st !! key
         else Some (failureCount st key + Z.of_nat (length rest))) ∧
    failureCount st' key = failureCount st key + Z.of_nat (length rest).
Proof.
  induction rest as [|a rest IH]; intros before st Hall Hnonneg.
  - exists st. rewrite !app_nil_r. split; [done|]. split; [done|]. simpl. lia.
  - apply Forall_cons in Hall as [[Hkey Hfail] Hall].
    cbn [length seq map]. rewrite schedule_cons, advance_eq.
    unfold parkedAtZero at 1. rewrite lookup_at_length.
    unfold login_resume, after_credentials. fold (credentials a).
    unfold failsb in Hfail. destruct (credentials a) as [v|x]; [|done].
    apply negb_true_iff in Hfail. rewrite Hfail. cbn [negb catch_next].
    rewrite insert_at_length, Hkey. fold (failureCount st key).
    set (st1 := Store _ _).
    assert (Hc1 : failureCount st1 key = failureCount st key + 1).
    { unfold failureCount at 1, st1. simpl. rewrite lookup_insert_eq. simpl.
      destruct (Z.eqb_spec (failureCount st key + 1) 0); [lia | done]. }
    destruct (IH (before ++ [rejectedAsFirst a]) st1 Hall) as (st' & Hrun & Hentry & Hcount).
    { lia. }
    rewrite length_app in Hrun. cbn [length] in Hrun.
    replace (length before + 1)%nat with (S (length before)) in Hrun by lia.
    rewrite <- !app_assoc in Hrun. exists st'. split; [|split].
    + unfold rejectedAsFirst at 1 in Hrun.
      replace (5 - MAX_LOGIN_ATTEMPTS) with 1 by done. exact Hrun.
    + rewrite decide_False by done. rewrite Hentry. destruct (decide (rest = [])) as [->|_].
      * unfold st1. simpl. rewrite lookup_insert_eq. f_equal; lia.
      * f_equal. rewrite Hc1. cbn [length]. lia.
    + rewrite Hcount, Hc1. cbn [length]. lia.
Qed.

(** X21.  The limit does not hold against requests in flight together.
    When any number of failing requests for one [ordinary] identity whose
    counter is at zero, more than [MAX_LOGIN_ATTEMPTS] included, all enter
    before the first of them is answered, each reads the counter at zero:
    none is locked out, every one is rejected and logged as attempt 1, and
    the counter ends at their number. *)
Theorem requests_entering_together_are_never_locked
    (key : string) (l : list attempt) (st : store) :
  ordinary key = true →
  Forall (fun a => identity a = key ∧ failsb a = true) l →
  failureCount st key = 0 →
  ∃ st',
    schedule (allEnterFirst (length l)) (st, arrivals l) = Some (st', map rejectedAsFirst l) ∧
    failureCount st' key = Z.of_nat (length l) ∧
    finished (map rejectedAsFirst l) = length l ∧
    ∀ i a evs r, map rejectedAsFirst l !! i = Some (a, Finished evs r) →
      classify r = Rejected ∧ reported evs = Some 1.
Proof.
  intros _ Hall Hzero.
  destruct (schedule_enter_all key l [] st) as (st1 & Hrun1 & Hz1); [|done|].
  { eapply Forall_impl; [exact Hall | by intros a [? _]]. }
  destruct (schedule_answer_all key l [] st1 Hall) as (st2 & Hrun2 & _ & Hcount); [lia|].
  cbn [length app] in Hrun1, Hrun2.
  exists st2. split; [|split; [|split]].
  - unfold allEnterFirst. by rewrite schedule_app, Hrun1.
  - rewrite Hcount, Hz1. lia.
  - clear. induction l as [|a l IH]; [done|]. simpl. by rewrite IH.
  - intros i a evs r Hi. change (map rejectedAsFirst l) with (rejectedAsFirst <$> l) in Hi.
    rewrite list_lookup_fmap in Hi. destruct (l !! i) as [b|]; [|done].
    unfold rejectedAsFirst in Hi. simpl in Hi. by injection Hi as <- <- <-.
Qed.

(** ** Time stamps, log lines and the case of letters *)

Lemma advance_keeps_stamps (i : nat) (st : store) (pool : list task) (c' : config) (k : string) :
  advance i (st, pool) = Some c' →
  is_Some (lastLoginAttemptTime st !! k) → is_Some (lastLoginAttemptTime c'.1 !! k).
Proof.
  intros Hadv Hk. rewrite advance_eq in Hadv.
  destruct (pool !! i) as [[a [|evs w|evs r]]|]; [| |done|done].
  - unfold login_enter in Hadv. cbv zeta in Hadv.
    destruct (_ <=? 0); injection Hadv as <-; simpl; by destruct (timedOut _ _).
  - destruct w as [ms key|em pw key now rem]; simpl in Hadv.
    + by injection Hadv as <-.
    + unfold after_credentials in Hadv.
      destruct (checkLoginCredentials a em pw) as [v|x]; [destruct (truthy v)|];
        simpl in Hadv; injection Hadv as <-; simpl; try done.
      destruct (decide (key = k)) as [->|Hne].
      * rewrite lookup_insert_eq. eauto.
      * by rewrite lookup_insert_ne.
Qed.

Lemma rtc_step_keeps_stamps (c c' : config) (k : string) :
  rtc step c c' →
  is_Some (lastLoginAttemptTime c.1 !! k) → is_Some (lastLoginAttemptTime c'.1 !! k).
Proof.
  intros Hsteps. induction Hsteps as [c|[st pool] c1 c2 [i Hadv] _ IH]; [done|].
  intros Hk. apply IH. by eapply advance_keeps_stamps.
Qed.

(** X22.  [lastLoginAttemptTime] only grows.  No segment of any request
    removes a time stamp; every rejected request on an [ordinary] identity
    leaves the one of its identity at its own entry time; so an address
    that has failed once stays in the map for as long as the process runs,
    under every interleaving and hence over every series of requests. *)
Theorem time_stamps_are_never_removed (k : string) :
  (∀ c c' : config, rtc step c c' →
     is_Some (lastLoginAttemptTime c.1 !! k) → is_Some (lastLoginAttemptTime c'.1 !! k)) ∧
  (∀ (l : list attempt) (st : store),
     is_Some (lastLoginAttemptTime st !! k) →
     is_Some (lastLoginAttemptTime (serve l st).1 !! k)) ∧
  (∀ (a : attempt) (l : list attempt) (st : store),
     ordinary (identity a) = true →
     classify (login a st).2 = Rejected →
     lastLoginAttemptTime (login a st).1.1 !! identity a = Some (clock a) ∧
     is_Some (lastLoginAttemptTime (serve l (login a st).1.1).1 !! identity a)).
Proof.
  assert (Hserve : ∀ (l : list attempt) (st : store),
     is_Some (lastLoginAttemptTime st !! k) →
     is_Some (lastLoginAttemptTime (serve l st).1 !! k)).
  { intros l st. apply (rtc_step_keeps_stamps (st, arrivals l) (_, _) k (serve_steps l st)). }
  split; [intros c c'; apply rtc_step_keeps_stamps|]. split; [done|].
  clear Hserve. intros a l st _ Hrej.
  assert (Hstamp : lastLoginAttemptTime (login a st).1.1 !! identity a = Some (clock a)).
  { rewrite classify_login in Hrej. rewrite lastLoginAttemptTime_after_login. unfold failsb.
    destruct (Z.leb_spec MAX_LOGIN_ATTEMPTS (failureCount st (identity a))); [done|].
    destruct (Z.ltb_spec (failureCount st (identity a)) MAX_LOGIN_ATTEMPTS); [|lia].
    destruct (credentials a) as [v|x]; [|done]. destruct (truthy v); [done|].
    simpl. by rewrite lookup_insert_eq. }
  split; [done|].
  apply (rtc_step_keeps_stamps ((login a st).1.1, arrivals l) (_, _) (identity a)
           (serve_steps l (login a st).1.1)).
  simpl. rewrite Hstamp. eauto.
Qed.

Lemma login_log_lines (a : attempt) (st : store) (em : string) (n : Z) :
  0 ≤ failureCount st (identity a) ≤ MAX_LOGIN_ATTEMPTS →
  (LoggerInfo (LoginGagalTimeout em n) ∈ (login a st).1.2 → n = 5) ∧
  (LoggerInfo (LoginGagal em n) ∈ (login a st).1.2 → 1 ≤ n ≤ 4).
Proof.
  intros Hb. unfold MAX_LOGIN_ATTEMPTS in Hb.
  destruct (Z.le_gt_cases MAX_LOGIN_ATTEMPTS (failureCount st (identity a))) as [Hmax|Hlt].
  - rewrite (login_locked a st Hmax). simpl. unfold MAX_LOGIN_ATTEMPTS in Hmax. split.
    + intros Hin. apply list_elem_of_In in Hin. simpl in Hin.
      destruct Hin as [[= _ <-]|[[=]|[]]]. lia.
    + intros Hin. apply list_elem_of_In in Hin. simpl in Hin.
      destruct Hin as [[=]|[[=]|[]]].
  - rewrite (login_open a st Hlt). cbv zeta. unfold MAX_LOGIN_ATTEMPTS in Hlt.
    destruct (credentials a) as [v|x]; [destruct (truthy v)|]; simpl; split;
      intros Hin; apply list_elem_of_In in Hin; simpl in Hin;
      repeat (destruct Hin as [Hin|Hin]; [try discriminate|]); try done.
    injection Hin as _ <-. lia.
Qed.

(** X23.  As long as requests on [ordinary] identities are served one
    after the other on a server that started empty, the log line of a
    lockout always says attempt 5, as its text does, and the log line of a
    rejection says 1, 2, 3 or 4. *)
Theorem logged_attempt_numbers (l : list attempt) (evs : list event) (r : response)
    (em : string) (n : Z) :
  Forall (fun a => ordinary (identity a) = true) l →
  (evs, r) ∈ (serve l initial).2 →
  (LoggerInfo (LoginGagalTimeout em n) ∈ evs → n = 5) ∧
  (LoggerInfo (LoginGagal em n) ∈ evs → 1 ≤ n ≤ 4).
Proof.
  assert (Hgen : ∀ l st, (∀ k, 0 ≤ failureCount st k ≤ MAX_LOGIN_ATTEMPTS) →
    (evs, r) ∈ (serve l st).2 →
    (LoggerInfo (LoginGagalTimeout em n) ∈ evs → n = 5) ∧
    (LoggerInfo (LoginGagal em n) ∈ evs → 1 ≤ n ≤ 4)).
  { clear. induction l as [|a l IH]; intros st Hb Hin.
    - simpl in Hin. by apply elem_of_nil in Hin.
    - rewrite serve_cons in Hin. cbn [snd] in Hin. apply elem_of_cons in Hin as [Heq|Hin].
      + injection Heq as -> ->. apply login_log_lines. apply Hb.
      + apply (IH (login a st).1.1); [|done]. by apply login_bounded. }
  intros _. apply Hgen. apply initial_bounded.
Qed.

Lemma lower_upper_ascii (c : ascii) : lower_ascii (upper_ascii c) = lower_ascii c.
Proof. destruct c as [[] [] [] [] [] [] [] []]; vm_compute; reflexivity. Qed.

Lemma toLowerCase_toUpperCase (s : string) : toLowerCase (toUpperCase s) = toLowerCase s.
Proof. induction s as [|c s IH]; simpl; [done|]. by rewrite lower_upper_ascii, IH. Qed.

(** X24.  The case of the letters of an address of ASCII characters
    does not matter to the throttle.  A request whose address is another's
    in upper or in lower case has the same identity, so that from a
    counter at zero two failures in a row under the two spellings, the
    identity being [ordinary], are rejected as attempt 1 and attempt 2 of
    one counter. *)
Theorem addresses_differing_in_case_share_a_counter (a b : attempt) (st : store) :
  isAscii (email a) = true →
  ordinary (identity a) = true →
  email b = toUpperCase (email a) ∨ email b = toLowerCase (email a) →
  failsb a = true →
  failsb b = true →
  failureCount st (identity a) = 0 →
  clock b - clock a ≤ LOGIN_TIMEOUT →
  identity b = identity a ∧
  shown (serve [a; b] st).2 = [(Rejected, Some 1); (Rejected, Some 2)] ∧
  loginAttempts (serve [a; b] st).1 !! identity a = Some 2 ∧
  loginAttempts (serve [a; b] st).1 !! identity b = Some 2.
Proof.
  intros _ _ Hcase Ha Hb Hzero Hwin.
  assert (Hid : identity b = identity a).
  { unfold identity. destruct Hcase as [-> | ->];
      [apply toLowerCase_toUpperCase | apply toLowerCase_idempotent]. }
  split; [done|].
  destruct (failures_counted (identity a) [a; b] st 0) as [Hcount Hshown]; try done.
  - by repeat constructor.
  - simpl. apply andb_true_iff. split; [by apply Z.leb_le | done].
  - intros; by left.
  - split; [done|]. rewrite Hid.
    assert (Hentry : loginAttempts (serve [a; b] st).1 !! identity a = Some 2).
    { unfold failureCount in Hcount. simpl length in Hcount.
      destruct (loginAttempts (serve [a; b] st).1 !! identity a) as [m|]; simpl in Hcount; [|lia].
      f_equal. destruct (Z.eqb_spec m 0); lia. }
    done.
Qed.

(** * The further properties at concrete data *)

Import Sample.

Lemma byCode_total (a b : string) : 0 < byCode a b → byCode b a ≤ 0.
Proof.
  unfold byCode. rewrite (String.compare_antisym a b).
  destruct (String.compare b a); simpl; lia.
Qed.

Lemma byCode_total_down (a b : string) : byCode a b < 0 → 0 ≤ byCode b a.
Proof.
  unfold byCode. rewrite (String.compare_antisym a b).
  destruct (String.compare b a); simpl; lia.
Qed.

(** Page 3 of five users listed without a limit. *)
Lemma listUsers_without_limit_five :
  ((None : option Z) = None ∨ (None : option Z) = Some 0) ∧
  map view_id (results (listUsers inMemory five 3 None "" None)) = ["u3"; "u1"; "u5"; "u2"; "u4"]%string ∧
  total_pages (pagination (listUsers inMemory five 3 None "" None)) = Some 1 ∧
  has_next_page (pagination (listUsers inMemory five 3 None "" None)) = false.
Proof.
  assert (H : (None : option Z) = None ∨ (None : option Z) = Some 0) by (left; reflexivity).
  split; [exact H|].
  destruct (listUsers_without_limit inMemory five 3 1 None "" None H)
    as (Hsame & Hcount & Htotal & Hprev & Hnext).
  split; [|split].
  - rewrite Hsame. vm_compute. reflexivity.
  - rewrite Htotal. vm_compute. reflexivity.
  - rewrite Hnext. vm_compute. reflexivity.
Defined.

(** Five users in pages of two. *)
Lemma listUsers_pages_cover_five :
  (0 < 2 ∧
   total_pages (pagination (listUsers inMemory five 1 (Some 2) "" (Some "name:asc"%string))) = Some 3) ∧
  concat (map (fun p : nat =>
                 results (listUsers inMemory five (Z.of_nat p) (Some 2) "" (Some "name:asc"%string)))
              (seq 1 (Z.to_nat 3)))
  = results (listUsers inMemory five 1 None "" (Some "name:asc"%string)).
Proof.
  assert (H1 : 0 < 2) by lia.
  assert (H2 : total_pages (pagination (listUsers inMemory five 1 (Some 2) ""
                 (Some "name:asc"%string))) = Some 3) by (vm_compute; reflexivity).
  split; [by_assumptions|].
  exact (listUsers_pages_cover inMemory five 2 1 "" (Some "name:asc"%string) 3 H1 H2).
Defined.

Lemma listUsers_page_bounds_five :
  (0 < 2 ∧
   total_pages (pagination (listUsers inMemory five 3 (Some 2) "" None)) = Some 3) ∧
  count (pagination (listUsers inMemory five 3 (Some 2) "" None)) ≤ 2 ∧
  results (listUsers inMemory five 3 (Some 2) "" None) ≠ [] ∧
  has_next_page (pagination (listUsers inMemory five 3 (Some 2) "" None)) = false.
Proof.
  assert (H1 : 0 < 2) by lia.
  assert (H2 : total_pages (pagination (listUsers inMemory five 3 (Some 2) "" None)) = Some 3)
    by (vm_compute; reflexivity).
  split; [by_assumptions|].
  destruct (listUsers_page_bounds inMemory five 2 3 "" None 3 H1 H2)
    as (_ & Hle & Hin & _ & _ & Hnext).
  split; [exact Hle|]. split; [apply Hin; lia|].
  rewrite Hnext by lia. vm_compute. reflexivity.
Defined.

Lemma listUsers_search_ignores_case_five :
  toLowerCase "NAME:An" = toLowerCase "name:an" ∧
  listUsers inMemory five 1 None "NAME:An" None = listUsers inMemory five 1 None "name:an" None.
Proof.
  assert (H : toLowerCase "NAME:An" = toLowerCase "name:an") by (vm_compute; reflexivity).
  split; [exact H|].
  exact (listUsers_search_ignores_case inMemory five 1 None "NAME:An" "name:an" None H).
Defined.

Lemma listUsers_unknown_field_selects_nobody_five :
  (includes ":" "id" = false ∧
   toLowerCase "id" ≠ "email"%string ∧
   toLowerCase "id" ≠ "name"%string) ∧
  results (listUsers inMemory five 1 (Some 10) "id:u1" None) = [].
Proof.
  assert (H1 : includes ":" "id" = false) by (vm_compute; reflexivity).
  assert (H2 : toLowerCase "id" ≠ "email"%string) by (vm_compute; congruence).
  assert (H3 : toLowerCase "id" ≠ "name"%string) by (vm_compute; congruence).
  split; [by_assumptions|].
  exact (proj1 (listUsers_unknown_field_selects_nobody inMemory five 1 (Some 10)
                  "id" "u1" None H1 H2 H3)).
Defined.

Lemma listUsers_search_reads_two_parts_five :
  (isAscii "name:an:x" = true ∧ includes ":" "name" = false ∧ includes ":" "an" = false) ∧
  listUsers inMemory five 1 None "name:an:x" None = listUsers inMemory five 1 None "name:an" None.
Proof.
  assert (H0 : isAscii "name:an:x" = true) by (vm_compute; reflexivity).
  assert (H1 : includes ":" "name" = false) by (vm_compute; reflexivity).
  assert (H2 : includes ":" "an" = false) by (vm_compute; reflexivity).
  split; [by_assumptions|].
  exact (listUsers_search_reads_two_parts inMemory five 1 None "name" "an" "x" None H0 H1 H2).
Defined.

Lemma listUsers_sorted_ascending_five :
  (∀ a b, 0 < localeCompare inMemory a b → localeCompare inMemory b a ≤ 0) ∧
  Sorted (fun a b => localeCompare inMemory (view_name a) (view_name b) ≤ 0)
         (results (listUsers inMemory five 1 (Some 3) "" (Some "name:asc"%string))).
Proof.
  assert (H : ∀ a b, 0 < localeCompare inMemory a b → localeCompare inMemory b a ≤ 0)
    by exact byCode_total.
  split; [exact H|].
  exact (proj1 (listUsers_sorted_ascending inMemory five 1 (Some 3) "" H)).
Defined.

Lemma listUsers_sorted_descending_five :
  ((∀ a b, localeCompare inMemory a b < 0 → 0 ≤ localeCompare inMemory b a) ∧
   includes ":" "ASC" = false ∧
   "ASC"%string ≠ "asc"%string) ∧
  Sorted (fun a b => 0 ≤ localeCompare inMemory (view_name a) (view_name b))
         (results (listUsers inMemory five 1 None "" (Some "name:ASC"%string))).
Proof.
  assert (H1 : ∀ a b, localeCompare inMemory a b < 0 → 0 ≤ localeCompare inMemory b a)
    by exact byCode_total_down.
  assert (H2 : includes ":" "ASC" = false) by (vm_compute; reflexivity).
  assert (H3 : "ASC"%string ≠ "asc"%string) by congruence.
  split; [by_assumptions|].
  exact (proj1 (listUsers_sorted_descending inMemory five 1 None "" "ASC" H1 H2 H3)).
Defined.

Lemma listUsers_unknown_sort_key_keeps_order_five :
  ("Name:asc"%string = ""%string
   ∨ (nth 0 (split ":" "Name:asc") EmptyString ≠ "name"%string
      ∧ nth 0 (split ":" "Name:asc") EmptyString ≠ "email"%string)) ∧
  listUsers inMemory five 1 None "" (Some "Name:asc"%string) = listUsers inMemory five 1 None "" None.
Proof.
  assert (H : "Name:asc"%string = ""%string
              ∨ (nth 0 (split ":" "Name:asc") EmptyString ≠ "name"%string
                 ∧ nth 0 (split ":" "Name:asc") EmptyString ≠ "email"%string))
    by (right; vm_compute; split; congruence).
  split; [exact H|].
  exact (listUsers_unknown_sort_key_keeps_order inMemory five 1 None "" "Name:asc" H).
Defined.

Lemma missing_user_is_not_written_sample :
  repoGetUser inMemory "nobody" sampleDb = (sampleDb, Resolved None) ∧
  updateUser inMemory "nobody" "Zed" "zed@x.com" sampleDb
    = (sampleDb, [GetUser "nobody"], Resolved Null) ∧
  deleteUser inMemory "nobody" sampleDb = (sampleDb, [GetUser "nobody"], Resolved Null).
Proof.
  assert (H : repoGetUser inMemory "nobody" sampleDb = (sampleDb, Resolved None))
    by (vm_compute; reflexivity).
  split; [exact H|].
  destruct (missing_user_is_not_written inMemory "nobody" "Zed" "zed@x.com" "pw"
              sampleDb sampleDb H) as (Hup & Hdel & _).
  by_assumptions.
Defined.

Lemma missing_transfer_is_not_written_sample :
  repoGetTransfer1 inMemory "t9" sampleDb = (sampleDb, Resolved None) ∧
  updateTransfer inMemory "t9" (Num 5) sampleDb
    = (sampleDb, [GetTransfer1 "t9"], Resolved Null) ∧
  deleteTransfer inMemory "t9" sampleDb = (sampleDb, [GetTransfer1 "t9"], Resolved Null).
Proof.
  assert (H : repoGetTransfer1 inMemory "t9" sampleDb = (sampleDb, Resolved None))
    by (vm_compute; reflexivity).
  split; [exact H|].
  destruct (missing_transfer_is_not_written inMemory "t9" (Num 5) sampleDb sampleDb H)
    as (Hup & Hdel).
  by_assumptions.
Defined.

Lemma user_writes_answer_sample :
  (∃ d' calls, updateUser inMemory "u1" "Anna" "anna@x.com" sampleDb
               = (d', calls, Resolved (Bool true))) ∧
  (repoGetUser inMemory "u1" sampleDb).2 = Resolved (Some ann).
Proof.
  destruct (updateUser inMemory "u1" "Anna" "anna@x.com" sampleDb) as [[d' calls] r] eqn:Hrun.
  assert (Hfound : (repoGetUser inMemory "u1" sampleDb).2 = Resolved (Some ann))
    by (vm_compute; reflexivity).
  split; [|exact Hfound].
  destruct (proj1 (user_writes_answer inMemory "u1" "Anna" "anna@x.com" sampleDb)
              d' calls r Hrun) as (Htrue & _ & _).
  exists d', calls. f_equal. apply Htrue.
  exists ann. split; [exact Hfound|]. exists Undefined. vm_compute. reflexivity.
Defined.

Lemma createUser_stores_the_hash_sample :
  hashPassword inMemory "pw" = Resolved "hash:pw"%string ∧
  ∃ d' answer,
    createUser inMemory "Fay" "fay@x.com" "pw" sampleDb
    = (d', [HashPassword "pw"; CreateUser "Fay" "fay@x.com" "hash:pw"], Resolved answer).
Proof.
  assert (H : hashPassword inMemory "pw" = Resolved "hash:pw"%string)
    by (vm_compute; reflexivity).
  split; [exact H|].
  destruct (proj2 (createUser_stores_the_hash inMemory "Fay" "fay@x.com" "pw" sampleDb)
              "hash:pw"%string H) as (answer & Hrun & _).
  eexists _, answer. exact Hrun.
Defined.

Lemma checkPassword_needs_the_user_sample :
  repoGetUser inMemory "nobody" sampleDb = (sampleDb, Resolved None) ∧
  checkPassword inMemory "nobody" "pw" sampleDb
    = (sampleDb, [GetUser "nobody"], Rejects (Str "TypeError")).
Proof.
  assert (H : repoGetUser inMemory "nobody" sampleDb = (sampleDb, Resolved None))
    by (vm_compute; reflexivity).
  split; [exact H|].
  exact (proj1 (checkPassword_needs_the_user inMemory "nobody" "pw" sampleDb sampleDb) H).
Defined.

Lemma changePassword_answers_sample :
  (repoGetUser inMemory "u1" sampleDb = (sampleDb, Resolved (Some ann)) ∧
   hashPassword inMemory "new" = Resolved "hash:new"%string) ∧
  ∃ d2,
    repoChangePassword inMemory "u1" "hash:new" sampleDb = (d2, Resolved (Bool true)) ∧
    changePassword inMemory "u1" "new" sampleDb
    = (d2, [GetUser "u1"; HashPassword "new"; ChangePassword "u1" "hash:new"],
       Resolved (Bool true)).
Proof.
  assert (H1 : repoGetUser inMemory "u1" sampleDb = (sampleDb, Resolved (Some ann)))
    by (vm_compute; reflexivity).
  assert (H2 : hashPassword inMemory "new" = Resolved "hash:new"%string)
    by (vm_compute; reflexivity).
  split; [by_assumptions|].
  destruct (repoChangePassword inMemory "u1" "hash:new" sampleDb) as [d2 r] eqn:Hwrite.
  assert (Hr : r = Resolved (Bool true)).
  { assert (Hc : (repoChangePassword inMemory "u1" "hash:new" sampleDb).2 = Resolved (Bool true))
      by (vm_compute; reflexivity).
    rewrite Hwrite in Hc. exact Hc. }
  subst r. exists d2. split; [reflexivity|].
  exact (proj2 (proj2 (changePassword_answers inMemory "u1" "new" sampleDb sampleDb ann H1)
                  "hash:new"%string d2 H2) (Bool true) Hwrite).
Defined.

Lemma getTransfers_keeps_the_ledger_sample :
  repoGetTransfer inMemory sampleDb = (sampleDb, Resolved (transfers sampleDb)) ∧
  ∃ answer,
    getTransfers inMemory sampleDb = (sampleDb, [GetTransfer], Resolved answer) ∧
    map tv_id answer = transfers sampleDb.
Proof.
  assert (H : repoGetTransfer inMemory sampleDb = (sampleDb, Resolved (transfers sampleDb)))
    by (vm_compute; reflexivity).
  split; [exact H|].
  destruct (proj2 (getTransfers_keeps_the_ledger inMemory sampleDb) sampleDb _ H)
    as (answer & Hrun & _ & Hids & _).
  exists answer. split; assumption.
Defined.

Lemma serve_alike_stamped :
  (Forall (fun a => ordinary (identity a) = true) fourFailures ∧
   alike stamped initial) ∧
  (serve fourFailures stamped).2 = (serve fourFailures initial).2.
Proof.
  assert (H0 : Forall (fun a => ordinary (identity a) = true) fourFailures)
    by each_by_computation.
  assert (H : alike stamped initial).
  { intros k. unfold failureCount, stamped, initial. simpl. rewrite !lookup_empty.
    split; [reflexivity | intros Hne; by destruct Hne]. }
  split; [by_assumptions|].
  exact (proj1 (serve_alike fourFailures stamped initial H0 H)).
Defined.

Lemma requests_entering_together_are_never_locked_five :
  (ordinary "bob@x.com" = true ∧
   Forall (fun a => identity a = "bob@x.com"%string ∧ failsb a = true) fiveAtOnce ∧
   failureCount initial "bob@x.com" = 0) ∧
  ∃ st',
    schedule (allEnterFirst 5) (initial, arrivals fiveAtOnce)
    = Some (st', map rejectedAsFirst fiveAtOnce) ∧
    failureCount st' "bob@x.com" = 5.
Proof.
  assert (H0 : ordinary "bob@x.com" = true) by (vm_compute; reflexivity).
  assert (H1 : Forall (fun a => identity a = "bob@x.com"%string ∧ failsb a = true) fiveAtOnce)
    by each_by_computation.
  assert (H2 : failureCount initial "bob@x.com" = 0) by (vm_compute; reflexivity).
  split; [by_assumptions|].
  destruct (requests_entering_together_are_never_locked "bob@x.com" fiveAtOnce initial H0 H1 H2)
    as (st' & Hrun & Hcount & _).
  exists st'. split; assumption.
Defined.

Lemma time_stamps_are_never_removed_bob :
  (ordinary (identity (wrong t0)) = true ∧
   classify (login (wrong t0) initial).2 = Rejected) ∧
  lastLoginAttemptTime (login (wrong t0) initial).1.1 !! identity (wrong t0) = Some t0 ∧
  is_Some (lastLoginAttemptTime
             (serve [right (t0 + 1); wrong (t0 + 2)] (login (wrong t0) initial).1.1).1
           !! identity (wrong t0)).
Proof.
  assert (H0 : ordinary (identity (wrong t0)) = true) by (vm_compute; reflexivity).
  assert (H : classify (login (wrong t0) initial).2 = Rejected) by (vm_compute; reflexivity).
  split; [by_assumptions|].
  exact (proj2 (proj2 (time_stamps_are_never_removed (identity (wrong t0))))
           (wrong t0) [right (t0 + 1); wrong (t0 + 2)] initial H0 H).
Defined.

Lemma logged_attempt_numbers_bob :
  (Forall (fun a => ordinary (identity a) = true) (fourFailures ++ [wrong (t0 + seconds 40)]) ∧
   ([LoggerInfo (LoginGagalTimeout "bob@x.com" 5); SetTimeout 60000],
    Next (errorResponder FORBIDDEN "Too many failed login attempts"))
     ∈ (serve (fourFailures ++ [wrong (t0 + seconds 40)]) initial).2) ∧
  ∀ em n,
    LoggerInfo (LoginGagalTimeout em n)
      ∈ [LoggerInfo (LoginGagalTimeout "bob@x.com" 5); SetTimeout 60000] → n = 5.
Proof.
  assert (H : ([LoggerInfo (LoginGagalTimeout "bob@x.com" 5); SetTimeout 60000],
               Next (errorResponder FORBIDDEN "Too many failed login attempts"))
              ∈ (serve (fourFailures ++ [wrong (t0 + seconds 40)]) initial).2).
  { apply list_elem_of_In. vm_compute. do 4 right. left. reflexivity. }
  assert (H0 : Forall (fun a => ordinary (identity a) = true)
                 (fourFailures ++ [wrong (t0 + seconds 40)])) by each_by_computation.
  split; [by_assumptions|].
  exact (fun em n =>
           proj1 (logged_attempt_numbers (fourFailures ++ [wrong (t0 + seconds 40)]) _ _ em n H0 H)).
Defined.

Lemma addresses_differing_in_case_share_a_counter_bob :
  (isAscii (email (wrong t0)) = true ∧
   ordinary (identity (wrong t0)) = true ∧
   (email (shouted (t0 + 1)) = toUpperCase (email (wrong t0))
    ∨ email (shouted (t0 + 1)) = toLowerCase (email (wrong t0))) ∧
   failsb (wrong t0) = true ∧
   failsb (shouted (t0 + 1)) = true ∧
   failureCount initial (identity (wrong t0)) = 0 ∧
   clock (shouted (t0 + 1)) - clock (wrong t0) ≤ LOGIN_TIMEOUT) ∧
  shown (serve [wrong t0; shouted (t0 + 1)] initial).2 = [(Rejected, Some 1); (Rejected, Some 2)].
Proof.
  assert (Ha : isAscii (email (wrong t0)) = true) by (vm_compute; reflexivity).
  assert (Ho : ordinary (identity (wrong t0)) = true) by (vm_compute; reflexivity).
  assert (H1 : email (shouted (t0 + 1)) = toUpperCase (email (wrong t0))
               ∨ email (shouted (t0 + 1)) = toLowerCase (email (wrong t0)))
    by (left; vm_compute; reflexivity).
  assert (H2 : failsb (wrong t0) = true) by (vm_compute; reflexivity).
  assert (H3 : failsb (shouted (t0 + 1)) = true) by (vm_compute; reflexivity).
  assert (H4 : failureCount initial (identity (wrong t0)) = 0) by (vm_compute; reflexivity).
  assert (H5 : clock (shouted (t0 + 1)) - clock (wrong t0) ≤ LOGIN_TIMEOUT)
    by (vm_compute; congruence).
  split; [by_assumptions|].
  exact (proj1 (proj2 (addresses_differing_in_case_share_a_counter
                         (wrong t0) (shouted (t0 + 1)) initial Ha Ho H1 H2 H3 H4 H5))).
Defined.

Lemma createTransfer_answers_ledger :
  ∃ d' calls,
    Users.createTransfer memoryRepository "k3j2h1" t0 "u1" "u1" (Num 100) ledger
    = (d', calls, Bool true).
Proof.
  destruct (createTransfer_answers memoryRepository "k3j2h1" t0 "u1" "u1" (Num 100) ledger)
    as (d' & calls & answer & Hrun & _ & Htrue & _).
  exists d', calls. rewrite Hrun. f_equal. apply Htrue.
  exists alice, alice. split; [vm_compute; reflexivity|]. split; [vm_compute; reflexivity|].
  exists tt. vm_compute. reflexivity.
Defined.

(** * The dictionaries with their prototype *)

Section PrototypeFacts.

Import Proto.

Lemma ordinary_not_proto (key : string) : ordinary key = true → String.eqb key "__proto__" = false.
Proof.
  intros Hkey. destruct (String.eqb_spec key "__proto__") as [->|]; [|done].
  vm_compute in Hkey. discriminate.
Qed.

Lemma get_numbers (m : gmap string Z) (key : string) :
  ordinary key = true →
  get (Number <$> m) key = match m !! key with Some n => Number n | None => Nothing end.
Proof. intros Hkey. unfold get. rewrite lookup_fmap, Hkey. by destruct (m !! key). Qed.

Lemma set_numbers (m : gmap string Z) (key : string) (n : Z) :
  ordinary key = true →
  set key (Number n) (Number <$> m) = Number <$> <[key := n]> m.
Proof.
  intros Hkey. unfold set. rewrite lookup_fmap, (ordinary_not_proto key Hkey), fmap_insert.
  by destruct (m !! key).
Qed.

Lemma orZero_numbers (o : option Z) :
  orZero (match o with Some n => Number n | None => Nothing end) = Number (or_zero o).
Proof. destruct o as [n|]; [|done]. unfold orZero. simpl. by destruct (n =? 0). Qed.

Lemma incremented_numbers (o : option Z) :
  incremented (match o with Some n => Number n | None => Nothing end) = Number (or_zero o + 1).
Proof. unfold incremented. by rewrite orZero_numbers. Qed.

Lemma stale_numbers (o : option Z) (now : Z) :
  (let last := match o with Some n => Number n | None => Nothing end in
   holds last && exceeds (minus now (toNumber last)) LOGIN_TIMEOUT) = timedOut o now.
Proof. by destruct o. Qed.

(** The first segment, on an ordinary key. *)
Lemma login_enter_numbers (em : string) (pw : value) (now : Z) (st : Auth.store) :
  ordinary (toLowerCase em) = true →
  login_enter em pw now (ofStore st) =
    (ofStore (Auth.login_enter em pw now st).1.1,
     map ofEvent (Auth.login_enter em pw now st).1.2,
     ofAwaiting (Auth.login_enter em pw now st).2).
Proof.
  intros Hkey. unfold login_enter, Auth.login_enter, ofStore. cbn [Proto.loginAttempts Proto.lastLoginAttemptTime].
  rewrite !get_numbers by done. rewrite orZero_numbers. cbv zeta.
  rewrite (stale_numbers (Auth.lastLoginAttemptTime st !! toLowerCase em) now).
  cbn [toNumber minus atMost].
  destruct (timedOut _ _); destruct (_ <=? 0); simpl; rewrite ?set_numbers by done; done.
Qed.

(** The second segment, on an ordinary key. *)
Lemma login_resume_numbers (a : attempt) (k : Auth.awaiting) (st : Auth.store) :
  ordinary (parkedKey k) = true →
  login_resume a (ofAwaiting k) (ofStore st) =
    (ofStore (Auth.login_resume a k st).1.1,
     map ofEvent (Auth.login_resume a k st).1.2,
     (Auth.login_resume a k st).2).
Proof.
  intros Hkey. destruct k as [ms key|em pw key now rem]; simpl.
  - unfold ofStore. simpl. by rewrite fmap_delete.
  - unfold after_credentials, Auth.after_credentials.
    destruct (checkLoginCredentials a em pw) as [v|x]; [|done].
    destruct (truthy v); simpl.
    + unfold ofStore. simpl. by rewrite fmap_delete.
    + unfold ofStore. simpl. rewrite get_numbers, incremented_numbers, !set_numbers by done. done.
Qed.

Lemma login_enter_key (em : string) (pw : value) (now : Z) (st : Auth.store) :
  parkedKey (Auth.login_enter em pw now st).2 = toLowerCase em.
Proof. unfold Auth.login_enter. cbv zeta. by destruct (_ <=? 0). Qed.

Lemma login_numbers (a : attempt) (st : Auth.store) :
  ordinary (identity a) = true →
  login a (ofStore st) =
    (ofStore (Auth.login a st).1.1, map ofEvent (Auth.login a st).1.2, (Auth.login a st).2).
Proof.
  intros Hkey. unfold login, Auth.login.
  rewrite (login_enter_numbers (email a) (password a) (clock a) st Hkey).
  pose proof (login_enter_key (email a) (password a) (clock a) st) as Hk.
  destruct (Auth.login_enter _ _ _ _) as [[st1 evs1] k]. cbn [fst snd] in *.
  rewrite (login_resume_numbers a k st1) by (by rewrite Hk).
  destruct (Auth.login_resume a k st1) as [[st2 evs2] r]. cbn [fst snd].
  by rewrite map_app.
Qed.

(** X26.  On ordinary keys the entries of their own are all there is to
    the two dictionaries.  Run on stores of numbers with [Object.prototype]
    behind them, the first segment of [login], the second segment, and so
    any series of requests, do what they do on the finite maps: the same
    entries are read and written, the same answers given, and every number
    that is logged is a number. *)
Theorem own_entries_are_all_that_is_read :
  (∀ (em : string) (pw : value) (now : Z) (st : Auth.store),
     ordinary (toLowerCase em) = true →
     login_enter em pw now (ofStore st) =
       (ofStore (Auth.login_enter em pw now st).1.1,
        map ofEvent (Auth.login_enter em pw now st).1.2,
        ofAwaiting (Auth.login_enter em pw now st).2)) ∧
  (∀ (a : attempt) (k : Auth.awaiting) (st : Auth.store),
     ordinary (parkedKey k) = true →
     login_resume a (ofAwaiting k) (ofStore st) =
       (ofStore (Auth.login_resume a k st).1.1,
        map ofEvent (Auth.login_resume a k st).1.2,
        (Auth.login_resume a k st).2)) ∧
  (∀ (l : list attempt) (st : Auth.store),
     Forall (fun a => ordinary (identity a) = true) l →
     serve l (ofStore st) = (ofStore (Auth.serve l st).1, ofAnswers (Auth.serve l st).2)).
Proof.
  split; [exact login_enter_numbers|]. split; [exact login_resume_numbers|].
  intros l. induction l as [|a l IH]; intros st Hall; [done|].
  apply Forall_cons in Hall as [Ha Hall].
  rewrite serve_cons. cbn [serve fst snd]. rewrite (login_numbers a st Ha).
  rewrite (IH _ Hall). done.
Qed.

Lemma serve_under_prototype (a : attempt) (l : list attempt) (st : store) :
  serve (a :: l) st =
    ((serve l (login a st).1.1).1,
     ((login a st).1.2, (login a st).2) :: (serve l (login a st).1.1).2).
Proof.
  simpl. destruct (login a st) as [[st1 evs] r]. simpl.
  by destruct (serve l st1) as [st2 rs].
Qed.

(** A failing call that reads a member, or the text of one, where the
    counter should be, and finds nothing stale. *)
Lemma login_under_member (a : attempt) (st : store) (name : string) (ones : nat) :
  failsb a = true →
  get (loginAttempts st) (identity a)
    = (if (ones =? 0)%nat then Member name else Text name ones) →
  (let last := get (lastLoginAttemptTime st) (identity a) in
   holds last && exceeds (minus (clock a) (toNumber last)) LOGIN_TIMEOUT) = false →
  login a st =
    (Store (set (identity a) (Text name (S ones)) (loginAttempts st))
           (set (identity a) (Number (clock a)) (lastLoginAttemptTime st)),
     [CheckLoginCredentials (email a) (password a);
      LoggerInfo (LoginGagal (email a) NaN)],
     Next (errorResponder INVALID_CREDENTIALS "Wrong email or password")).
Proof.
  intros Hfail Hget Hfresh. unfold login, login_enter. fold (identity a). cbv zeta in *.
  rewrite Hfresh, Hget.
  assert (Hread : orZero (if (ones =? 0)%nat then Member name else Text name ones)
                  = (if (ones =? 0)%nat then Member name else Text name ones))
    by (by destruct (ones =? 0)%nat).
  rewrite Hread.
  assert (Hnan : toNumber (if (ones =? 0)%nat then Member name else Text name ones) = NaN)
    by (by destruct (ones =? 0)%nat).
  rewrite Hnan. cbn [minus atMost login_resume]. fold (credentials a).
  unfold failsb in Hfail. destruct (credentials a) as [v|x]; [|done].
  apply negb_true_iff in Hfail. unfold after_credentials. rewrite Hfail. cbn [negb catch_next app].
  rewrite Hget. unfold incremented. rewrite Hread.
  destruct ones as [|ones]; simpl; done.
Qed.

Lemma set_lookup (key : string) (v : found) (m : gmap string found) :
  set key v m !! key = (if String.eqb key "__proto__" && bool_decide (m !! key = None)
                        then None else Some v).
Proof.
  unfold set. destruct (m !! key) as [w|] eqn:Hm.
  - rewrite andb_false_r. by rewrite lookup_insert_eq.
  - rewrite andb_true_r. destruct (String.eqb key "__proto__"); [done|].
    by rewrite lookup_insert_eq.
Qed.

Lemma get_member (m : gmap string found) (key : string) :
  ordinary key = false → m !! key = None → get m key = Member key.
Proof. intros Hkey Hm. unfold get. by rewrite Hm, Hkey. Qed.

Lemma member_never_stale (m : gmap string found) (key : string) (now t : Z) :
  ordinary key = false →
  m !! key = None ∨ (m !! key = Some (Number t) ∧ now - t ≤ LOGIN_TIMEOUT) →
  (let last := get m key in
   holds last && exceeds (minus now (toNumber last)) LOGIN_TIMEOUT) = false.
Proof.
  intros Hkey [Hm|[Hm Hwin]]; cbv zeta.
  - by rewrite (get_member m key Hkey Hm).
  - unfold get. rewrite Hm. simpl.
    destruct (Z.ltb_spec LOGIN_TIMEOUT (now - t)); [lia|]. apply andb_false_r.
Qed.

Lemma failures_under_member (key : string) (l : list attempt) :
  ordinary key = false →
  ∀ (st : store) (ones : nat),
  Forall (fun a => identity a = key ∧ failsb a = true) l →
  withinWindow l = true →
  loginAttempts st !! key
    = (if String.eqb key "__proto__" || (ones =? 0)%nat then None else Some (Text key ones)) →
  (∀ a, head l = Some a →
     lastLoginAttemptTime st !! key = None
     ∨ ∃ t, lastLoginAttemptTime st !! key = Some (Number t) ∧ clock a - t ≤ LOGIN_TIMEOUT) →
  shown (serve l st).2 = replicate (length l) (Rejected, Some NaN) ∧
  loginAttempts (serve l st).1 !! key
    = (if String.eqb key "__proto__" || (ones + length l =? 0)%nat then None
       else Some (Text key (ones + length l))).
Proof.
  intros Hkey. induction l as [|a l IH]; intros st ones Hall Hwin Hentry Hstamp.
  - simpl. by rewrite Nat.add_0_r.
  - apply Forall_cons in Hall as [[Hid Hfail] Hall].
    assert (Hfresh : (let last := get (lastLoginAttemptTime st) (identity a) in
              holds last && exceeds (minus (clock a) (toNumber last)) LOGIN_TIMEOUT) = false).
    { rewrite Hid. destruct (Hstamp a eq_refl) as [Hnone|(t & Ht & Hwint)].
      - by apply (member_never_stale _ key (clock a) 0 Hkey); left.
      - apply (member_never_stale _ key (clock a) t Hkey). by right. }
    set (seen := if String.eqb key "__proto__" then O else ones).
    assert (Hget : get (loginAttempts st) (identity a)
                   = (if (seen =? 0)%nat then Member key else Text key seen)).
    { rewrite Hid. unfold get, seen. rewrite Hentry, Hkey.
      destruct (String.eqb key "__proto__"); [done|]. simpl.
      by destruct (ones =? 0)%nat. }
    rewrite serve_under_prototype, (login_under_member a st key seen Hfail Hget Hfresh).
    cbn [fst snd]. rewrite Hid.
    set (st1 := Store _ _).
    assert (Hentry1 : loginAttempts st1 !! key
              = (if String.eqb key "__proto__" || (S ones =? 0)%nat then None
                 else Some (Text key (S ones)))).
    { unfold st1. cbn [loginAttempts]. rewrite set_lookup, Hentry. unfold seen.
      destruct (String.eqb key "__proto__") eqn:Hproto; simpl.
      - done.
      - done. }
    destruct (IH st1 (S ones) Hall) as [Hshown Hfinal].
    + simpl in Hwin. destruct l as [|b l]; [done|]. by apply andb_true_iff in Hwin as [_ ?].
    + exact Hentry1.
    + intros b Hb. unfold st1. cbn [lastLoginAttemptTime]. rewrite set_lookup.
      destruct l as [|b' l]; [done|]. simpl in Hb. injection Hb as ->.
      simpl in Hwin. apply andb_true_iff in Hwin as [Hle _]. apply Z.leb_le in Hle.
      destruct (String.eqb key "__proto__" && bool_decide (lastLoginAttemptTime st !! key = None));
        [by left | right; eauto].
    + split.
      * simpl. f_equal. exact Hshown.
      * rewrite Hfinal. cbn [length]. by rewrite Nat.add_succ_r.
Qed.

(** X27.  Under a name that every object inherits ("constructor",
    "__proto__", ...) the lockout never fires.  On a server that holds
    nothing of its own under the name, wrong passwords in a row for it,
    however many, are each answered [Rejected] and logged as attempt
    [NaN]; what stands for the counter is the text of the inherited member
    with one "1" appended for each failure, and under "__proto__" nothing
    is stored at all. *)
Theorem inherited_names_are_never_locked (key : string) (l : list attempt) (st : store) :
  ordinary key = false →
  loginAttempts st !! key = None →
  lastLoginAttemptTime st !! key = None →
  Forall (fun a => identity a = key ∧ failsb a = true) l →
  withinWindow l = true →
  shown (serve l st).2 = replicate (length l) (Rejected, Some NaN) ∧
  loginAttempts (serve l st).1 !! key
    = (if String.eqb key "__proto__" || (length l =? 0)%nat then None
       else Some (Text key (length l))).
Proof.
  intros Hkey Hentry Hstamp Hall Hwin.
  apply (failures_under_member key l Hkey st 0 Hall Hwin).
  - rewrite Hentry. by rewrite orb_true_r.
  - intros a _. by left.
Qed.

Lemma own_entries_are_all_that_is_read_bob :
  Forall (fun a => ordinary (identity a) = true) fourFailures ∧
  serve fourFailures (ofStore Auth.initial)
    = (ofStore (Auth.serve fourFailures Auth.initial).1,
       ofAnswers (Auth.serve fourFailures Auth.initial).2).
Proof.
  assert (H : Forall (fun a => ordinary (identity a) = true) fourFailures)
    by each_by_computation.
  split; [exact H|].
  exact (proj2 (proj2 own_entries_are_all_that_is_read) fourFailures Auth.initial H).
Defined.

Lemma inherited_names_are_never_locked_constructor :
  (ordinary "constructor" = false ∧
   loginAttempts initial !! "constructor" = None ∧
   lastLoginAttemptTime initial !! "constructor" = None ∧
   Forall (fun a => identity a = "constructor"%string ∧ failsb a = true) Sample.sixForConstructor ∧
   withinWindow Sample.sixForConstructor = true) ∧
  shown (serve Sample.sixForConstructor initial).2 = replicate 6 (Rejected, Some NaN) ∧
  loginAttempts (serve Sample.sixForConstructor initial).1 !! "constructor"
    = Some (Text "constructor" 6).
Proof.
  assert (H1 : ordinary "constructor" = false) by (vm_compute; reflexivity).
  assert (H2 : loginAttempts initial !! "constructor" = None) by (vm_compute; reflexivity).
  assert (H3 : lastLoginAttemptTime initial !! "constructor" = None) by (vm_compute; reflexivity).
  assert (H4 : Forall (fun a => identity a = "constructor"%string ∧ failsb a = true)
                 Sample.sixForConstructor) by each_by_computation.
  assert (H5 : withinWindow Sample.sixForConstructor = true) by (vm_compute; reflexivity).
  split; [by_assumptions|].
  exact (inherited_names_are_never_locked "constructor" Sample.sixForConstructor initial
           H1 H2 H3 H4 H5).
Defined.

End PrototypeFacts.

